(** * VisualPP: the mock key-value service and its benchmark driver

    A shallow embedding of [src/frontend/src/lib/mockKVService.js]: the
    latency simulator [simulateLatency], the cached tier [redis], the
    uncached tier [db] and the workload generator [runBenchmark], followed
    by the properties of the specification that concern them.

    Conventions of the embedding.
    - A JavaScript number is a [jsnum]: a finite value kept as a rational,
      or one of the IEEE-754 specials.  The sign of zero is not modelled.
    - The arithmetic of the ratios, the one whose last bit the code can
      observe through [Math.floor] and [<], is binary64 arithmetic: the
      values [Number] returns, the sum, the quotient and the product of
      [setRatio / (setRatio + getRatio) * requests] and of
      [cachedPart / (cachedPart + uncachedPart || 1)] are rounded to the
      nearest binary64 number, ties to even ([round64]).  The arithmetic of
      the delays, of the clock and of the mock data is exact: the rounding
      of those values is not modelled.  [requests] and [size] are integers;
      [requests - setOps] and [requests / 2] are not rounded: in binary64
      they are exact whenever the quota lies between 0 and [requests] and
      [requests] is at most [2^53].
    - A string is the list of its code units, each below 256.
    - The three module-level [Map]s are [gmap string string].
    - [Math.random()] and [performance.now()] are read from the world: the
      n-th call returns the n-th element of [draws], resp. [timeline].
    - Every [await] is sequential, so an [async] function is a state
      transformer over [world].
    - The world carries two logs that the code never reads: [timeouts], the
      delays handed to [setTimeout], and [calls], the [set] and [get] calls
      the two tiers receive.  Elapsed time is what [timeline] says, not a
      sum of the delays. *)

From Stdlib Require Import ZArith QArith Qround Qabs Qpower Qreduction String Ascii List Lia Lqa.
From Stdlib Require Qcanon SpecFloat.
From stdpp Require Import gmap strings list fin_maps pretty.

Local Open Scope Z_scope.
Local Open Scope string_scope.

(* ===================================================================== *)
(** ** JavaScript numbers *)
(* ===================================================================== *)

Inductive jsnum : Type :=
| Fin (q : Q)
| PosInf
| NegInf
| NaN.

Definition Qltb (x y : Q) : bool := negb (Qle_bool y x).
Definition Qeqb (x y : Q) : bool := Qle_bool x y && Qle_bool y x.

(** [a + b] *)
Definition js_add (a b : jsnum) : jsnum :=
  match a, b with
  | NaN, _ | _, NaN => NaN
  | PosInf, NegInf | NegInf, PosInf => NaN
  | PosInf, _ | _, PosInf => PosInf
  | NegInf, _ | _, NegInf => NegInf
  | Fin x, Fin y => Fin (x + y)
  end.

(** [a - b] *)
Definition js_sub (a b : jsnum) : jsnum :=
  match a, b with
  | NaN, _ | _, NaN => NaN
  | PosInf, PosInf | NegInf, NegInf => NaN
  | PosInf, _ | _, NegInf => PosInf
  | NegInf, _ | _, PosInf => NegInf
  | Fin x, Fin y => Fin (x - y)
  end.

Definition js_neg (a : jsnum) : jsnum :=
  match a with
  | Fin x => Fin (- x)
  | PosInf => NegInf
  | NegInf => PosInf
  | NaN => NaN
  end.

(** An infinity scaled by a finite factor: the sign of the factor decides,
    and a zero factor gives [NaN]. *)
Definition js_scale_inf (inf : jsnum) (x : Q) : jsnum :=
  if Qeqb x 0 then NaN else if Qltb 0 x then inf else js_neg inf.

(** [a * b] *)
Definition js_mul (a b : jsnum) : jsnum :=
  match a, b with
  | NaN, _ | _, NaN => NaN
  | Fin x, Fin y => Fin (x * y)
  | Fin x, PosInf | PosInf, Fin x => js_scale_inf PosInf x
  | Fin x, NegInf | NegInf, Fin x => js_scale_inf NegInf x
  | PosInf, PosInf | NegInf, NegInf => PosInf
  | PosInf, NegInf | NegInf, PosInf => NaN
  end.

(** [a / b]: a finite value over zero is an infinity of the sign of the
    numerator, zero over zero is [NaN]. *)
Definition js_div (a b : jsnum) : jsnum :=
  match a, b with
  | NaN, _ | _, NaN => NaN
  | Fin x, Fin y =>
      if Qeqb y 0 then js_scale_inf PosInf x else Fin (x / y)
  | Fin _, PosInf | Fin _, NegInf => Fin 0
  | PosInf, Fin y => if Qltb y 0 then NegInf else PosInf
  | NegInf, Fin y => if Qltb y 0 then PosInf else NegInf
  | _, _ => NaN
  end.

(** [a < b]; any comparison with [NaN] is false. *)
Definition js_lt (a b : jsnum) : bool :=
  match a, b with
  | NaN, _ | _, NaN => false
  | Fin x, Fin y => Qltb x y
  | NegInf, NegInf | PosInf, _ | _, NegInf => false
  | NegInf, _ | _, PosInf => true
  end.

(** [a >= b]; any comparison with [NaN] is false. *)
Definition js_ge (a b : jsnum) : bool :=
  match a, b with
  | NaN, _ | _, NaN => false
  | Fin x, Fin y => Qle_bool y x
  | PosInf, _ | _, NegInf => true
  | NegInf, _ | _, PosInf => false
  end.

(** [Math.floor(a)] *)
Definition Math_floor (a : jsnum) : jsnum :=
  match a with
  | Fin x => Fin (inject_Z (Qfloor x))
  | other => other
  end.

(** [Math.min(a, b)]: [NaN] as soon as one argument is. *)
Definition Math_min (a b : jsnum) : jsnum :=
  match a, b with
  | NaN, _ | _, NaN => NaN
  | NegInf, _ | _, NegInf => NegInf
  | PosInf, other | other, PosInf => other
  | Fin x, Fin y => if Qle_bool x y then Fin x else Fin y
  end.

(** Truthiness of a number: everything but [0] and [NaN]. *)
Definition js_truthy (a : jsnum) : bool :=
  match a with
  | NaN => false
  | Fin x => negb (Qeqb x 0)
  | _ => true
  end.

(** [a || b] on numbers. *)
Definition js_or (a b : jsnum) : jsnum := if js_truthy a then a else b.

(** The number of trips of [for (let i = 0; i < bound; i++)].  With an
    infinite positive bound the JavaScript loop does not end; no bound
    computed by [runBenchmark] is one (see [prepopulate_bound_not_PosInf]),
    and the definition gives that case no trips. *)
Definition loop_trips (bound : jsnum) : nat :=
  match bound with
  | Fin x => Z.to_nat (Qceiling x)
  | _ => O
  end.

(* ===================================================================== *)
(** ** Rounding to binary64 *)
(* ===================================================================== *)

(** For [a > 0], the [e] with [2^e <= a < 2^(e+1)]. *)
Definition floor_log2 (a : Q) : Z :=
  if Qle_bool 1 a then Z.log2 (Qfloor a)
  else - Z.log2_up (Qceiling (/ a)).

(** Rounding to the nearest integer, a tie going to the even one. *)
Definition round_half_even (x : Q) : Z :=
  let f := Qfloor x in
  let r := (x - inject_Z f)%Q in
  if Qltb r (1 # 2) then f
  else if Qltb (1 # 2) r then f + 1
  else if Z.even f then f else f + 1.

(** The exponent of the unit in the last place of the binary64 numbers next
    to [a > 0]: 53 significant bits, and no exponent below that of the
    subnormal numbers. *)
Definition ulp_exponent (a : Q) : Z := Z.max (floor_log2 a - 52) (-1074).

(** The nearest multiple of the unit in the last place, for [a >= 0]. *)
Definition round_magnitude (a : Q) : Q :=
  let e := ulp_exponent a in
  (inject_Z (round_half_even (a / 2 ^ e)) * 2 ^ e)%Q.

(** The binary64 number nearest to [q], ties to even; a magnitude that
    rounds to [2^1024] or more overflows to an infinity. *)
Definition round64 (q : Q) : jsnum :=
  let v := round_magnitude (Qabs q) in
  if Qle_bool (2 ^ 1024) v then (if Qltb q 0 then NegInf else PosInf)
  else Fin (Qred (if Qltb q 0 then - v else v)).

(** The binary64 numbers: at most 53 significant bits above the exponent of
    the subnormal numbers, and a magnitude below [2^1024]. *)
Definition representable (x : Q) : Prop :=
  exists m e : Z,
    (Z.abs m < 2 ^ 53)%Z /\ (-1074 <= e)%Z
    /\ (x == inject_Z m * 2 ^ e)%Q /\ (Qabs x < 2 ^ 1024)%Q.

Definition binary64 (a : jsnum) : jsnum :=
  match a with
  | Fin q => round64 q
  | other => other
  end.

(** [a + b], [a * b] and [a / b] as binary64 operations: the exact result,
    rounded. *)
Definition add64 (a b : jsnum) : jsnum := binary64 (js_add a b).
Definition mul64 (a b : jsnum) : jsnum := binary64 (js_mul a b).
Definition div64 (a b : jsnum) : jsnum := binary64 (js_div a b).

(** The value of a binary64 number given by its sign, its mantissa and its
    exponent, to compare [round64] with the operations of [SpecFloat]. *)
Definition spec_value (f : SpecFloat.spec_float) : jsnum :=
  match f with
  | SpecFloat.S754_zero _ => Fin 0
  | SpecFloat.S754_infinity negative => if negative then NegInf else PosInf
  | SpecFloat.S754_nan => NaN
  | SpecFloat.S754_finite negative m e =>
      Fin (Qred ((if negative then - inject_Z (Zpos m) else inject_Z (Zpos m)) * 2 ^ e))
  end.

(** The binary64 number of a natural number below [2^53]. *)
Definition spec_nat (n : Z) : SpecFloat.spec_float :=
  SpecFloat.binary_normalize 53 1024 n 0 false.

(* ===================================================================== *)
(** ** Strings: [split(':')], [Number], template literals *)
(* ===================================================================== *)

Definition colon : ascii := ":"%char.

(** [s.split(':')]: never empty, [''.split(':')] is [['']]. *)
Fixpoint split_colon (s : string) : list string :=
  match s with
  | EmptyString => [EmptyString]
  | String c rest =>
      if Ascii.eqb c colon then EmptyString :: split_colon rest
      else match split_colon rest with
           | piece :: pieces => String c piece :: pieces
           | [] => [String c EmptyString]
           end
  end.

Definition code_unit (c : ascii) : Z := Z.of_nat (nat_of_ascii c).

(** [StrWhiteSpaceChar]: white space and line terminators.  Those with a
    code unit below 256 are TAB, LF, VT, FF, CR, SP and NBSP. *)
Definition is_StrWhiteSpaceChar (c : ascii) : bool :=
  let n := code_unit c in
  (Z.leb 9 n && Z.leb n 13) || Z.eqb n 32 || Z.eqb n 160.

Fixpoint skip_white_space (s : string) : string :=
  match s with
  | EmptyString => EmptyString
  | String c rest => if is_StrWhiteSpaceChar c then skip_white_space rest else s
  end.

Fixpoint drop_white_space_at_end (s : string) : string :=
  match s with
  | EmptyString => EmptyString
  | String c rest =>
      match drop_white_space_at_end rest with
      | EmptyString => if is_StrWhiteSpaceChar c then EmptyString else String c EmptyString
      | kept => String c kept
      end
  end.

(** [s] without the white space around it. *)
Definition trim (s : string) : string := drop_white_space_at_end (skip_white_space s).

(** The value of [c] as a digit in the given radix: [0-9], then [a-z] or
    [A-Z] from ten on. *)
Definition digit_in (radix : Z) (c : ascii) : option Z :=
  let n := code_unit c in
  let d := if Z.leb 48 n && Z.leb n 57 then n - 48
           else if Z.leb 97 n && Z.leb n 122 then n - 87
           else if Z.leb 65 n && Z.leb n 90 then n - 55
           else radix in
  if Z.ltb d radix then Some d else None.

(** The longest run of digits at the head of [s]: its value, continuing
    [acc], the number of its digits, and what follows it. *)
Fixpoint digits (radix acc : Z) (s : string) : Z * nat * string :=
  match s with
  | EmptyString => (acc, O, EmptyString)
  | String c rest =>
      match digit_in radix c with
      | Some d => let '(value, count, follows) := digits radix (radix * acc + d) rest in
                  (value, S count, follows)
      | None => (acc, O, s)
      end
  end.

(** [ExponentPart], optional, up to the end of the literal: nothing, or
    [e] or [E], an optional sign and at least one digit. *)
Definition ExponentPart (s : string) : option Z :=
  match s with
  | EmptyString => Some 0
  | String c rest =>
      if Ascii.eqb c "e" || Ascii.eqb c "E" then
        let (negative, body) :=
          match rest with
          | String "+" body => (false, body)
          | String "-" body => (true, body)
          | _ => (false, rest)
          end in
        match digits 10 0 body with
        | (value, S _, EmptyString) => Some (if negative then - value else value)
        | _ => None
        end
      else None
  end.

(** [StrUnsignedDecimalLiteral]: [Infinity], or digits with an optional
    fraction and an optional exponent, at least one digit before or after
    the point.  The value is the exact one of the literal. *)
Definition StrUnsignedDecimalLiteral (s : string) : option jsnum :=
  if String.eqb s "Infinity" then Some PosInf
  else
    let '(whole, whole_digits, after_whole) := digits 10 0 s in
    let '(mantissa, fraction_digits, after_fraction) :=
      match after_whole with
      | String "." fraction => digits 10 whole fraction
      | _ => (whole, O, after_whole)
      end in
    match (whole_digits + fraction_digits)%nat with
    | O => None
    | S _ =>
        match ExponentPart after_fraction with
        | Some exponent =>
            Some (Fin (inject_Z mantissa * 10 ^ (exponent - Z.of_nat fraction_digits)))
        | None => None
        end
    end.

(** [StrDecimalLiteral]: an optional sign. *)
Definition StrDecimalLiteral (s : string) : option jsnum :=
  match s with
  | String "+" rest => StrUnsignedDecimalLiteral rest
  | String "-" rest => option_map js_neg (StrUnsignedDecimalLiteral rest)
  | _ => StrUnsignedDecimalLiteral s
  end.

(** [NonDecimalIntegerLiteral]: [0b], [0o] or [0x], in either case, and at
    least one digit of that radix; no sign. *)
Definition NonDecimalIntegerLiteral (s : string) : option jsnum :=
  match s with
  | String "0" (String prefix body) =>
      let radix := if Ascii.eqb prefix "b" || Ascii.eqb prefix "B" then 2
                   else if Ascii.eqb prefix "o" || Ascii.eqb prefix "O" then 8
                   else if Ascii.eqb prefix "x" || Ascii.eqb prefix "X" then 16
                   else 0 in
      match digits radix 0 body with
      | (value, S _, EmptyString) => Some (Fin (inject_Z value))
      | _ => None
      end
  | _ => None
  end.

(** [Number(s)], the abstract operation StringToNumber of ECMA-262: white
    space around the literal is dropped, the empty literal is [0], a
    [StrNumericLiteral] is its value rounded to the nearest binary64 number,
    and every other string is [NaN].  ([-0] is [0] here.) *)
Definition Number (s : string) : jsnum :=
  match trim s with
  | EmptyString => Fin 0
  | literal =>
      match StrDecimalLiteral literal with
      | Some value => binary64 value
      | None =>
          match NonDecimalIntegerLiteral literal with
          | Some value => binary64 value
          | None => NaN
          end
      end
  end.

(** [const [a, b] = s.split(':').map(Number)].  A missing component is
    [undefined], which every arithmetic use below coerces to [NaN]. *)
Definition parse_ratio (s : string) : jsnum * jsnum :=
  let parts := map Number (split_colon s) in
  (nth 0 parts NaN, nth 1 parts NaN).

(** [`${i}`] for an integer loop index. *)
Definition template_nat (i : nat) : string := pretty i.

(** [`${z}`] for an integer-valued number. *)
Definition template_Z (z : Z) : string := pretty z.

(* ===================================================================== *)
(** ** The world: module state and the two ambient oracles *)
(* ===================================================================== *)

Module Range.
Record t := { min : Q; max : Q }.
End Range.

(** [simulationConfig] *)
Record simulation := {
  redisLatencyMs : Range.t;
  dbLatencyMs : Range.t;
  networkJitterMs : Range.t
}.

Definition initial_simulationConfig : simulation :=
  {| redisLatencyMs := {| Range.min := 2; Range.max := 15 |};
     dbLatencyMs := {| Range.min := 30; Range.max := 200 |};
     networkJitterMs := {| Range.min := 0; Range.max := 5 |} |}.

(** A [set] or [get] call received by a tier, with its outcome for [get]
    ([None] is the JavaScript [null]). *)
Inductive call : Type :=
| RedisSet (key value : string) (cached : bool)
| RedisGet (key : string) (found : option string)
| DbSet (key value : string)
| DbGet (key : string) (found : option string).

Record world := {
  redisStore : gmap string string;
  dbStore : gmap string string;
  redisCache : gmap string string;
  simulationConfig : simulation;
  draws : nat -> Q;          (* the results of successive [Math.random()] *)
  cursor : nat;              (* how many draws were taken *)
  timeline : nat -> Q;       (* the results of successive [performance.now()] *)
  ticks : nat;               (* how many clock readings were taken *)
  timeouts : list Q;         (* log: every delay handed to [setTimeout] *)
  calls : list call          (* log: every [set] and [get] a tier received *)
}.

Definition with_redisStore (f : gmap string string -> gmap string string) (w : world) : world :=
  {| redisStore := f (redisStore w); dbStore := dbStore w; redisCache := redisCache w;
     simulationConfig := simulationConfig w; draws := draws w; cursor := cursor w;
     timeline := timeline w; ticks := ticks w; timeouts := timeouts w; calls := calls w |}.

Definition with_dbStore (f : gmap string string -> gmap string string) (w : world) : world :=
  {| redisStore := redisStore w; dbStore := f (dbStore w); redisCache := redisCache w;
     simulationConfig := simulationConfig w; draws := draws w; cursor := cursor w;
     timeline := timeline w; ticks := ticks w; timeouts := timeouts w; calls := calls w |}.

Definition with_redisCache (f : gmap string string -> gmap string string) (w : world) : world :=
  {| redisStore := redisStore w; dbStore := dbStore w; redisCache := f (redisCache w);
     simulationConfig := simulationConfig w; draws := draws w; cursor := cursor w;
     timeline := timeline w; ticks := ticks w; timeouts := timeouts w; calls := calls w |}.

Definition with_simulationConfig (c : simulation) (w : world) : world :=
  {| redisStore := redisStore w; dbStore := dbStore w; redisCache := redisCache w;
     simulationConfig := c; draws := draws w; cursor := cursor w;
     timeline := timeline w; ticks := ticks w; timeouts := timeouts w; calls := calls w |}.

Definition next_draw (w : world) : world :=
  {| redisStore := redisStore w; dbStore := dbStore w; redisCache := redisCache w;
     simulationConfig := simulationConfig w; draws := draws w; cursor := S (cursor w);
     timeline := timeline w; ticks := ticks w; timeouts := timeouts w; calls := calls w |}.

Definition next_tick (w : world) : world :=
  {| redisStore := redisStore w; dbStore := dbStore w; redisCache := redisCache w;
     simulationConfig := simulationConfig w; draws := draws w; cursor := cursor w;
     timeline := timeline w; ticks := S (ticks w); timeouts := timeouts w; calls := calls w |}.

Definition log_timeout (d : Q) (w : world) : world :=
  {| redisStore := redisStore w; dbStore := dbStore w; redisCache := redisCache w;
     simulationConfig := simulationConfig w; draws := draws w; cursor := cursor w;
     timeline := timeline w; ticks := ticks w; timeouts := timeouts w ++ [d]; calls := calls w |}.

Definition log_call (c : call) (w : world) : world :=
  {| redisStore := redisStore w; dbStore := dbStore w; redisCache := redisCache w;
     simulationConfig := simulationConfig w; draws := draws w; cursor := cursor w;
     timeline := timeline w; ticks := ticks w; timeouts := timeouts w; calls := calls w ++ [c] |}.

(** The module as loaded: three empty maps and the initial simulation
    parameters, nothing drawn, read or logged yet. *)
Definition fresh_world (rnd clk : nat -> Q) : world :=
  {| redisStore := ∅; dbStore := ∅; redisCache := ∅;
     simulationConfig := initial_simulationConfig;
     draws := rnd; cursor := O; timeline := clk; ticks := O;
     timeouts := []; calls := [] |}.

(* ===================================================================== *)
(** ** Sequential effects *)
(* ===================================================================== *)

Definition M (A : Type) : Type := world -> A * world.

Definition ret {A} (a : A) : M A := fun w => (a, w).

Definition bind {A B} (m : M A) (k : A -> M B) : M B :=
  fun w => let (a, w') := m w in k a w'.

Notation "'let*' x ':=' m 'in' k" := (bind m (fun x => k))
  (at level 10, x name, m at level 100, k at level 200).
Notation "'run' m 'then' k" := (bind m (fun _ => k))
  (at level 10, m at level 100, k at level 200).

Definition modify (f : world -> world) : M unit := fun w => (tt, f w).
Definition gets {A} (f : world -> A) : M A := fun w => (f w, w).

(** [for (let i = start; i < start + trips; i++) body(i)] *)
Fixpoint for_loop (trips start : nat) (body : nat -> M unit) : M unit :=
  match trips with
  | O => ret tt
  | S n => run body start then for_loop n (S start) body
  end.

(** [Math.random()] *)
Definition Math_random : M Q :=
  fun w => (draws w (cursor w), next_draw w).

(** [performance.now()] *)
Definition performance_now : M Q :=
  fun w => (timeline w (ticks w), next_tick w).

(** [simulateLatency(min, max)]: the awaited promise resolves, with no
    value, once the timer armed with [latency] has fired. *)
Definition simulateLatency (min max : Q) : M unit :=
  let* r := Math_random in
  let latency := (r * (max - min) + min)%Q in
  modify (log_timeout latency).

(* ===================================================================== *)
(** ** The cached tier: [redis] *)
(* ===================================================================== *)

Definition has (m : gmap string string) (key : string) : bool :=
  bool_decide (is_Some (m !! key)).

Definition redis_latency : M unit :=
  let* cfg := gets simulationConfig in
  simulateLatency (Range.min (redisLatencyMs cfg)) (Range.max (redisLatencyMs cfg)).

Definition jitter_latency : M unit :=
  let* cfg := gets simulationConfig in
  simulateLatency (Range.min (networkJitterMs cfg)) (Range.max (networkJitterMs cfg)).

(** [redis.set(key, value, cached)]; a caller that leaves [cached] out
    passes [false]. *)
Definition redis_set (key value : string) (cached : bool) : M bool :=
  run redis_latency then
  run modify (with_redisStore (insert key value)) then
  run (if cached then modify (with_redisCache (insert key value))
       else
         let* present := gets (fun w => has (redisCache w) key) in
         if present then modify (with_redisCache (delete key)) else ret tt) then
  run modify (log_call (RedisSet key value cached)) then
  ret true.

(** [redis.get(key)] *)
Definition redis_get (key : string) : M (option string) :=
  let* hit := gets (fun w => has (redisCache w) key) in
  if hit then
    run jitter_latency then
    let* found := gets (fun w => redisCache w !! key) in
    run modify (log_call (RedisGet key found)) then
    ret found
  else
    run redis_latency then
    let* found := gets (fun w => redisStore w !! key) in
    run modify (log_call (RedisGet key found)) then
    ret found.

(** [redis.exists(key)] *)
Definition redis_exists (key : string) : M bool :=
  run jitter_latency then
  gets (fun w => has (redisStore w) key).

(** [redis.del(key)] *)
Definition redis_del (key : string) : M bool :=
  run redis_latency then
  let* hadKey := gets (fun w => has (redisStore w) key) in
  run modify (with_redisStore (delete key)) then
  run modify (with_redisCache (delete key)) then
  ret hadKey.

(** [redis.setCached(key, cached)]; a caller that leaves [cached] out
    passes [true]. *)
Definition redis_setCached (key : string) (cached : bool) : M bool :=
  run jitter_latency then
  let* stored := gets (fun w => redisStore w !! key) in
  match stored with
  | None => ret false
  | Some value =>
      run (if cached then modify (with_redisCache (insert key value))
           else modify (with_redisCache (delete key))) then
      ret true
  end.

(** [redis.getCachedStatus(key)]; [None] is [null]. *)
Definition redis_getCachedStatus (key : string) : M (option bool) :=
  run jitter_latency then
  let* present := gets (fun w => has (redisStore w) key) in
  if present then
    let* cachedNow := gets (fun w => has (redisCache w) key) in
    ret (Some cachedNow)
  else ret None.

(** [redis.flushAll()] *)
Definition redis_flushAll : M bool :=
  let* cfg := gets simulationConfig in
  run simulateLatency (Range.min (redisLatencyMs cfg) * 2) (Range.max (redisLatencyMs cfg) * 2) then
  run modify (with_redisStore (fun _ => ∅)) then
  run modify (with_redisCache (fun _ => ∅)) then
  ret true.

(* ===================================================================== *)
(** ** The uncached tier: [db] *)
(* ===================================================================== *)

Definition db_latency : M unit :=
  let* cfg := gets simulationConfig in
  simulateLatency (Range.min (dbLatencyMs cfg)) (Range.max (dbLatencyMs cfg)).

(** [db.set(key, value)] *)
Definition db_set (key value : string) : M bool :=
  run db_latency then
  run modify (with_dbStore (insert key value)) then
  run modify (log_call (DbSet key value)) then
  ret true.

(** [db.get(key)] *)
Definition db_get (key : string) : M (option string) :=
  run db_latency then
  let* found := gets (fun w => dbStore w !! key) in
  run modify (log_call (DbGet key found)) then
  ret found.

(** [db.exists(key)] *)
Definition db_exists (key : string) : M bool :=
  let* cfg := gets simulationConfig in
  run simulateLatency (Range.min (dbLatencyMs cfg) / 2) (Range.max (dbLatencyMs cfg) / 2) then
  gets (fun w => has (dbStore w) key).

(** [db.del(key)] *)
Definition db_del (key : string) : M bool :=
  run db_latency then
  let* hadKey := gets (fun w => has (dbStore w) key) in
  run modify (with_dbStore (delete key)) then
  ret hadKey.

(** [db.clear()] *)
Definition db_clear : M bool :=
  let* cfg := gets simulationConfig in
  run simulateLatency (Range.min (dbLatencyMs cfg) * 2) (Range.max (dbLatencyMs cfg) * 2) then
  run modify (with_dbStore (fun _ => ∅)) then
  ret true.

(** [updateSimulationConfig(params)]: the object spread replaces exactly
    the top-level entries that [params] carries. *)
Record simulation_params := {
  new_redisLatencyMs : option Range.t;
  new_dbLatencyMs : option Range.t;
  new_networkJitterMs : option Range.t
}.

Definition updateSimulationConfig (params : simulation_params) : M unit :=
  modify (fun w =>
    let old := simulationConfig w in
    with_simulationConfig
      {| redisLatencyMs := default (redisLatencyMs old) (new_redisLatencyMs params);
         dbLatencyMs := default (dbLatencyMs old) (new_dbLatencyMs params);
         networkJitterMs := default (networkJitterMs old) (new_networkJitterMs params) |} w).

(* ===================================================================== *)
(** ** The workload generator: [runBenchmark] *)
(* ===================================================================== *)

(** The [config] object.  An absent property is [None]; the destructuring
    pattern of [runBenchmark] then supplies its default. *)
Module Config.
Record t := {
  type : option string;
  storage : option string;
  requests : option Z;
  size : option Z;
  ratio : option string;
  cachedRatio : option string;
  name : option string
}.
End Config.

(** The returned record.  [id] is ['run-'] followed by base-36 digits of
    one more draw: the draw itself is kept.  [timestamp], a reading of the
    wall clock, is left out. *)
Module Result.
Record t := {
  id : Q;
  name : string;
  type : string;
  storage : string;
  requests : Z;
  size : Z;
  ratio : string;
  cachedRatio : string;
  opsPerSecond : jsnum;
  duration : jsnum
}.
End Result.

(** How the promise of an [async] function settles. *)
Inductive settled (A : Type) : Type :=
| Fulfilled (value : A)
| Rejected (reason : string).
Arguments Fulfilled {A} value.
Arguments Rejected {A} reason.

Definition chars : string :=
  "ABCDEFGHIJKLMNOPQRSTUVWXYZabcdefghijklmnopqrstuvwxyz0123456789".

(** [s.charAt(idx)]: the empty string outside of [s]. *)
Definition charAt (s : string) (idx : Z) : string :=
  if Z.ltb idx 0 then EmptyString
  else match String.get (Z.to_nat idx) s with
       | Some c => String c EmptyString
       | None => EmptyString
       end.

Fixpoint generateValue_from (trips : nat) (result : string) : M string :=
  match trips with
  | O => ret result
  | S n =>
      let* r := Math_random in
      let picked := charAt chars (Qfloor (r * inject_Z (Z.of_nat (String.length chars)))) in
      generateValue_from n (result ++ picked)
  end.

(** [generateValue(size)] *)
Definition generateValue (size : Z) : M string :=
  generateValue_from (Z.to_nat size) EmptyString.

Definition is_redis (storage : string) : bool := String.eqb storage "redis".

(** The write that the three branches of [runBenchmark] share:
    [if (storage === 'redis') { isCached = Math.random() < cachedProbability;
    await storageImpl.set(key, value, isCached) } else
    { await storageImpl.set(key, value) }]. *)
Definition storage_write (storage : string) (cachedProbability : jsnum)
    (key value : string) : M unit :=
  if is_redis storage then
    let* r := Math_random in
    let isCached := js_lt (Fin r) cachedProbability in
    run redis_set key value isCached then ret tt
  else
    run db_set key value then ret tt.

(** [await storageImpl.get(key)] *)
Definition storage_read (storage : string) (key : string) : M unit :=
  if is_redis storage then run redis_get key then ret tt
  else run db_get key then ret tt.

(** [cachedPart / (cachedPart + uncachedPart || 1)] *)
Definition cachedProbability_of (cachedRatio : string) : jsnum :=
  let (cachedPart, uncachedPart) := parse_ratio cachedRatio in
  div64 cachedPart (js_or (add64 cachedPart uncachedPart) (Fin 1)).

(** One trip of the [set] loop. *)
Definition set_trip (storage : string) (p : jsnum) (size : Z) (i : nat) : M unit :=
  let key := "benchmark:" ++ template_nat i in
  let* value := generateValue size in
  storage_write storage p key value.

(** One trip of the population loop of the [get] branch. *)
Definition populate_trip (storage : string) (p : jsnum) (size : Z) (i : nat) : M unit :=
  let key := "benchmark:get:" ++ template_nat i in
  let* value := generateValue size in
  storage_write storage p key value.

(** One trip of the read loop of the [get] branch. *)
Definition read_trip (storage : string) (i : nat) : M unit :=
  let key := "benchmark:get:" ++ template_nat i in
  storage_read storage key.

(** One trip of the pre-population loop of the [mixed] branch. *)
Definition prepopulate_trip (storage : string) (p : jsnum) (size : Z) (i : nat) : M unit :=
  let key := "benchmark:mixed:" ++ template_nat i in
  let* value := generateValue size in
  storage_write storage p key value.

(** [`benchmark:mixed:${Math.floor(Math.random() * requests)}`] *)
Definition mixed_key (requests : Z) : M string :=
  let* r := Math_random in
  ret ("benchmark:mixed:" ++ template_Z (Qfloor (r * inject_Z requests))).

(** [setRatio / (setRatio + getRatio)] *)
Definition set_share (setRatio getRatio : jsnum) : jsnum :=
  div64 setRatio (add64 setRatio getRatio).

(** [setCount < setOps && (getCount >= getOps || Math.random() < share)];
    the draw is taken only when the two tests before it leave the answer
    open. *)
Definition isSetOp_of (setOps getOps share : jsnum) (setCount getCount : nat) : M bool :=
  if js_lt (Fin (inject_Z (Z.of_nat setCount))) setOps then
    if js_ge (Fin (inject_Z (Z.of_nat getCount))) getOps then ret true
    else
      let* r := Math_random in
      ret (js_lt (Fin r) share)
  else ret false.

(** One trip of the mixed loop, on the two counters it updates. *)
Definition mixed_trip (storage : string) (p : jsnum) (requests size : Z)
    (setOps getOps share : jsnum) (counts : nat * nat) : M (nat * nat) :=
  let (setCount, getCount) := counts in
  let* isSetOp := isSetOp_of setOps getOps share setCount getCount in
  if isSetOp then
    let* key := mixed_key requests in
    let* value := generateValue size in
    run storage_write storage p key value then
    ret (S setCount, getCount)
  else
    let* key := mixed_key requests in
    run storage_read storage key then
    ret (setCount, S getCount).

(** [trips] trips of the mixed loop from the given counters. *)
Fixpoint mixed_loop (trips : nat) (storage : string) (p : jsnum) (requests size : Z)
    (setOps getOps share : jsnum) (counts : nat * nat) : M (nat * nat) :=
  match trips with
  | O => ret counts
  | S n =>
      let* counts' := mixed_trip storage p requests size setOps getOps share counts in
      mixed_loop n storage p requests size setOps getOps share counts'
  end.

(** [Math.floor((setRatio / (setRatio + getRatio)) * requests)] *)
Definition setOps_of (setRatio getRatio : jsnum) (requests : Z) : jsnum :=
  Math_floor (mul64 (set_share setRatio getRatio) (Fin (inject_Z requests))).

(** [requests - setOps] *)
Definition getOps_of (setRatio getRatio : jsnum) (requests : Z) : jsnum :=
  js_sub (Fin (inject_Z requests)) (setOps_of setRatio getRatio requests).

(** [Math.min(getOps, requests / 2)] *)
Definition prepopulate_bound (setRatio getRatio : jsnum) (requests : Z) : jsnum :=
  Math_min (getOps_of setRatio getRatio requests)
           (js_div (Fin (inject_Z requests)) (Fin 2)).

(** The [if]/[else if] chain on [type]. *)
Definition run_operations (type storage : string) (requests size : Z)
    (setRatio getRatio p : jsnum) : M unit :=
  if String.eqb type "set" then
    for_loop (Z.to_nat requests) O (set_trip storage p size)
  else if String.eqb type "get" then
    run for_loop (Z.to_nat requests) O (populate_trip storage p size) then
    for_loop (Z.to_nat requests) O (read_trip storage)
  else if String.eqb type "mixed" then
    let setOps := setOps_of setRatio getRatio requests in
    let getOps := getOps_of setRatio getRatio requests in
    run for_loop (loop_trips (prepopulate_bound setRatio getRatio requests)) O
          (prepopulate_trip storage p size) then
    run mixed_loop (Z.to_nat requests) storage p requests size
          setOps getOps (set_share setRatio getRatio) (O, O) then
    ret tt
  else ret tt.

(** [runBenchmark(config)].  No statement of the body throws on a [config]
    of this type, so the promise it returns is always fulfilled. *)
Definition runBenchmark (config : Config.t) : M (settled Result.t) :=
  let type := default "get" (Config.type config) in
  let storage := default "redis" (Config.storage config) in
  let requests := default 1000 (Config.requests config) in
  let size := default 3 (Config.size config) in
  let ratio := default "1:1" (Config.ratio config) in
  let cachedRatio := default "1:1" (Config.cachedRatio config) in
  let name := default "Benchmark Run" (Config.name config) in
  let (setRatio, getRatio) := parse_ratio ratio in
  let cachedProbability := cachedProbability_of cachedRatio in
  let* startTime := performance_now in
  run run_operations type storage requests size setRatio getRatio cachedProbability then
  let* endTime := performance_now in
  let duration := js_div (js_sub (Fin endTime) (Fin startTime)) (Fin 1000) in
  let opsPerSecond := js_div (Fin (inject_Z requests)) duration in
  let* idDraw := Math_random in
  ret (Fulfilled
         {| Result.id := idDraw;
            Result.name := name;
            Result.type := type;
            Result.storage := storage;
            Result.requests := requests;
            Result.size := size;
            Result.ratio := ratio;
            Result.cachedRatio := if is_redis storage then cachedRatio else "0:1";
            Result.opsPerSecond := opsPerSecond;
            Result.duration := duration |}).

(* ===================================================================== *)
(** ** Vocabulary of the properties *)
(* ===================================================================== *)

Definition result_of {A} (m : M A) (w : world) : A := fst (m w).
Definition world_after {A} (m : M A) (w : world) : world := snd (m w).

(** Every [Math.random()] lies in [[0, 1)]. *)
Definition draws_in_unit_interval (w : world) : Prop :=
  forall n, (0 <= draws w n)%Q /\ (draws w n < 1)%Q.

Definition within (r : Range.t) (d : Q) : Prop :=
  (Range.min r <= d)%Q /\ (d <= Range.max r)%Q.

Definition well_formed (r : Range.t) : Prop := (Range.min r <= Range.max r)%Q.

Definition call_key (c : call) : string :=
  match c with
  | RedisSet key _ _ | RedisGet key _ | DbSet key _ | DbGet key _ => key
  end.

Definition is_set (c : call) : bool :=
  match c with
  | RedisSet _ _ _ | DbSet _ _ => true
  | RedisGet _ _ | DbGet _ _ => false
  end.

Definition is_get (c : call) : bool := negb (is_set c).

(** A read that came back with a value. *)
Definition is_found_get (c : call) : bool :=
  match c with
  | RedisGet _ (Some _) | DbGet _ (Some _) => true
  | _ => false
  end.

(** The operations of the cached tier, as a client may issue them. *)
Inductive redis_op : Type :=
| OpSet (key value : string) (cached : bool)
| OpGet (key : string)
| OpExists (key : string)
| OpDel (key : string)
| OpSetCached (key : string) (cached : bool)
| OpGetCachedStatus (key : string)
| OpFlushAll.

Definition perform (op : redis_op) : M unit :=
  match op with
  | OpSet key value cached => run redis_set key value cached then ret tt
  | OpGet key => run redis_get key then ret tt
  | OpExists key => run redis_exists key then ret tt
  | OpDel key => run redis_del key then ret tt
  | OpSetCached key cached => run redis_setCached key cached then ret tt
  | OpGetCachedStatus key => run redis_getCachedStatus key then ret tt
  | OpFlushAll => run redis_flushAll then ret tt
  end.

Fixpoint perform_all (ops : list redis_op) : M unit :=
  match ops with
  | [] => ret tt
  | op :: rest => run perform op then perform_all rest
  end.

(** Whatever the hot cache holds, the backing store holds with the same
    value. *)
Definition cache_included (w : world) : Prop :=
  forall key value, redisCache w !! key = Some value -> redisStore w !! key = Some value.

(** The fields of a configuration as [runBenchmark] destructures them. *)
Definition type_of (config : Config.t) : string := default "get" (Config.type config).
Definition storage_of (config : Config.t) : string := default "redis" (Config.storage config).
Definition requests_of (config : Config.t) : Z := default 1000 (Config.requests config).
Definition size_of (config : Config.t) : Z := default 3 (Config.size config).
Definition ratio_of (config : Config.t) : string := default "1:1" (Config.ratio config).
Definition cachedRatio_of (config : Config.t) : string :=
  default "1:1" (Config.cachedRatio config).
Definition name_of (config : Config.t) : string :=
  default "Benchmark Run" (Config.name config).

Definition known_type (type : string) : Prop :=
  type = "get" \/ type = "set" \/ type = "mixed".

(** A ratio pair of two zero weights. *)
Definition both_zero (pair : jsnum * jsnum) : Prop :=
  match pair with
  | (Fin a, Fin b) => (a == 0)%Q /\ (b == 0)%Q
  | _ => False
  end.

(** A ratio pair of two non-negative weights that are not both zero. *)
Definition weights (pair : jsnum * jsnum) : Prop :=
  match pair with
  | (Fin a, Fin b) => (0 <= a)%Q /\ (0 <= b)%Q /\ (0 < a + b)%Q
  | _ => False
  end.

(** The configurations the data model of the specification admits. *)
Definition valid (config : Config.t) : Prop :=
  known_type (type_of config)
  /\ (storage_of config = "redis" \/ storage_of config = "db")
  /\ 0 < requests_of config
  /\ 0 < size_of config
  /\ (type_of config = "mixed" -> weights (parse_ratio (ratio_of config)))
  /\ (storage_of config = "redis" -> weights (parse_ratio (cachedRatio_of config))).

(** The configurations the specification wants rejected. *)
Definition invalid (config : Config.t) : Prop :=
  ~ known_type (type_of config)
  \/ requests_of config <= 0
  \/ size_of config <= 0
  \/ (type_of config = "mixed" /\ both_zero (parse_ratio (ratio_of config)))
  \/ (storage_of config = "redis" /\ both_zero (parse_ratio (cachedRatio_of config))).

Definition same_maps (w w' : world) : Prop :=
  redisStore w' = redisStore w /\ dbStore w' = dbStore w /\ redisCache w' = redisCache w.

(** A run that is rejected and has touched nothing. *)
Definition fails_fast (config : Config.t) (w : world) : Prop :=
  (exists reason, result_of (runBenchmark config) w = Rejected reason)
  /\ calls (world_after (runBenchmark config) w) = calls w
  /\ same_maps w (world_after (runBenchmark config) w).

Definition finite_nonneg (x : jsnum) : Prop :=
  match x with
  | Fin q => (0 <= q)%Q
  | _ => False
  end.

(** The two clock readings of a run started in [w], in milliseconds. *)
Definition startTime_in (w : world) : Q := timeline w (ticks w).
Definition endTime_in (w : world) : Q := timeline w (S (ticks w)).

(** A field of the world that no storage operation writes. *)
Definition ambient {X} (f : world -> X) : Prop :=
  (forall g w, f (with_redisStore g w) = f w)
  /\ (forall g w, f (with_dbStore g w) = f w)
  /\ (forall g w, f (with_redisCache g w) = f w)
  /\ (forall w, f (next_draw w) = f w)
  /\ (forall d w, f (log_timeout d w) = f w)
  /\ (forall c w, f (log_call c w) = f w).

(** A field of the world that taking a draw leaves alone. *)
Definition draw_blind {X} (f : world -> X) : Prop :=
  forall w, f (next_draw w) = f w.

Definition unchanged {X A} (f : world -> X) (m : M A) : Prop :=
  forall w, f (world_after m w) = f w.

(** The operations [runBenchmark] runs between its two clock readings. *)
Definition operations_of (config : Config.t) : M unit :=
  run_operations (type_of config) (storage_of config) (requests_of config)
    (size_of config) (fst (parse_ratio (ratio_of config)))
    (snd (parse_ratio (ratio_of config))) (cachedProbability_of (cachedRatio_of config)).

(** The backing map of the tier that [storage] selects. *)
Definition tier_store (storage : string) (w : world) : gmap string string :=
  if is_redis storage then redisStore w else dbStore w.

(** The write trip the three branches share, up to the prefix of its key:
    [set_trip], [populate_trip] and [prepopulate_trip] are its instances at
    ["benchmark:"], ["benchmark:get:"] and ["benchmark:mixed:"]. *)
Definition keyed_write (prefix storage : string) (p : jsnum) (size : Z) (i : nat) : M unit :=
  let* value := generateValue size in
  storage_write storage p (prefix ++ template_nat i) value.

Definition keys_from (prefix : string) (start trips : nat) : list string :=
  map (fun i => prefix ++ template_nat i) (seq start trips).

(** The cacheable flag a write was issued with, on the cached tier. *)
Definition marked_cacheable (c : call) : option bool :=
  match c with
  | RedisSet _ _ cached => Some cached
  | _ => None
  end.

(** Every write among the calls carries the flag [flag]. *)
Definition writes_marked (flag : bool) (log : list call) : Prop :=
  Forall (fun c => is_set c = true -> marked_cacheable c = Some flag) log.

(** With draws in [[0, 1)], [m] keeps the draws and adds to the call log
    only calls that satisfy [P]. *)
Definition emits_only {A} (P : call -> Prop) (m : M A) : Prop :=
  forall w, draws_in_unit_interval w ->
    draws (world_after m w) = draws w
    /\ exists log, calls (world_after m w) = (calls w ++ log)%list /\ Forall P log.

Definition count_sets (log : list call) : nat := length (List.filter is_set log).
Definition count_gets (log : list call) : nat := length (List.filter is_get log).

(** The world in which the mixed loop of a run started in [w] begins: the
    first clock reading and the pre-population are done. *)
Definition after_prepopulation (config : Config.t) (w : world) : world :=
  let (setRatio, getRatio) := parse_ratio (ratio_of config) in
  world_after
    (for_loop (loop_trips (prepopulate_bound setRatio getRatio (requests_of config))) O
       (prepopulate_trip (storage_of config) (cachedProbability_of (cachedRatio_of config))
          (size_of config)))
    (next_tick w).

(** The mixed loop of a run, cut after [trips] trips. *)
Definition mixed_phase (config : Config.t) (trips : nat) : M (nat * nat) :=
  let (setRatio, getRatio) := parse_ratio (ratio_of config) in
  mixed_loop trips (storage_of config) (cachedProbability_of (cachedRatio_of config))
    (requests_of config) (size_of config)
    (setOps_of setRatio getRatio (requests_of config))
    (getOps_of setRatio getRatio (requests_of config))
    (set_share setRatio getRatio) (O, O).

(** [setCount] and [getCount] once [trips] trips of the mixed loop of a run
    started in [w] are done. *)
Definition running_counts (config : Config.t) (trips : nat) (w : world) : nat * nat :=
  result_of (mixed_phase config trips) (after_prepopulation config w).

(* ===================================================================== *)
(** ** Sample inputs *)
(* ===================================================================== *)

(** Two oracles: the same value at every reading, and a clock that advances
    by [step] milliseconds between two readings. *)
Definition constant (q : Q) : nat -> Q := fun _ => q.
Definition ticking (step : Q) : nat -> Q := fun n => (inject_Z (Z.of_nat n) * step)%Q.

(** A freshly loaded module whose draws are all one half and whose clock
    advances by one second per reading. *)
Definition sample_world : world := fresh_world (constant (1 # 2)) (ticking 1000).

(** A world whose clock shows the same instant at every reading. *)
Definition frozen_world : world := fresh_world (constant (1 # 2)) (constant 0).

(** A world in which the key ["k"] sits in the hot cache. *)
Definition cached_world : world := world_after (redis_set "k" "v" true) sample_world.

(** A configuration with every field but the name present. *)
Definition configuration (type storage : string) (requests size : Z)
    (ratio cachedRatio : string) : Config.t :=
  {| Config.type := Some type; Config.storage := Some storage;
     Config.requests := Some requests; Config.size := Some size;
     Config.ratio := Some ratio; Config.cachedRatio := Some cachedRatio;
     Config.name := None |}.

(* ===================================================================== *)
(** ** Vocabulary of the further properties *)
(* ===================================================================== *)

(** The operations of the uncached tier, as a client may issue them. *)
Inductive db_op : Type :=
| DbOpSet (key value : string)
| DbOpGet (key : string)
| DbOpExists (key : string)
| DbOpDel (key : string)
| DbOpClear.

Definition db_perform (op : db_op) : M unit :=
  match op with
  | DbOpSet key value => run db_set key value then ret tt
  | DbOpGet key => run db_get key then ret tt
  | DbOpExists key => run db_exists key then ret tt
  | DbOpDel key => run db_del key then ret tt
  | DbOpClear => run db_clear then ret tt
  end.

Fixpoint db_perform_all (ops : list db_op) : M unit :=
  match ops with
  | [] => ret tt
  | op :: rest => run db_perform op then db_perform_all rest
  end.

(** [m] takes one draw and arms one timer, with a delay between [lo] and
    [hi]. *)
Definition one_timer_within {A} (lo hi : Q) (m : M A) (w : world) : Prop :=
  cursor (world_after m w) = S (cursor w)
  /\ exists latency,
       timeouts (world_after m w) = (timeouts w ++ [latency])%list
       /\ (lo <= latency)%Q /\ (latency <= hi)%Q.

(** [m] keeps the property [I] of the world. *)
Definition preserves {A} (I : world -> Prop) (m : M A) : Prop :=
  forall w, I w -> I (world_after m w).

(** What a reader of the tier that [storage] selects gets for [key]:
    [storageImpl.get(key)] without its delay. *)
Definition tier_read (storage : string) (w : world) (key : string) : option string :=
  if is_redis storage then
    match redisCache w !! key with
    | Some value => Some value
    | None => redisStore w !! key
    end
  else dbStore w !! key.

(** The value a call carries: the one written, or the one read. *)
Definition call_value (c : call) : option string :=
  match c with
  | RedisSet _ value _ | DbSet _ value => Some value
  | RedisGet _ found | DbGet _ found => found
  end.

(** What a process does with the module between two moments: client
    operations on either tier, updates of the simulation parameters and
    benchmark runs, in any order. *)
Inductive activity : Type :=
| OnRedis (op : redis_op)
| OnDb (op : db_op)
| Tune (params : simulation_params)
| Benchmark (config : Config.t).

Definition act (a : activity) : M unit :=
  match a with
  | OnRedis op => perform op
  | OnDb op => db_perform op
  | Tune params => updateSimulationConfig params
  | Benchmark config => run runBenchmark config then ret tt
  end.

Fixpoint session (activities : list activity) : M unit :=
  match activities with
  | [] => ret tt
  | a :: rest => run act a then session rest
  end.

(** The activities that leave the cached tier alone, and those that leave
    the uncached tier alone. *)
Definition off_redis (a : activity) : Prop :=
  match a with
  | OnRedis _ => False
  | Benchmark config => storage_of config <> "redis"
  | _ => True
  end.

Definition off_db (a : activity) : Prop :=
  match a with
  | OnDb _ => False
  | Benchmark config => storage_of config = "redis"
  | _ => True
  end.

(** The characters ['A'-'Z'], ['a'-'z'] and ['0'-'9']. *)
Definition alphanumeric (c : ascii) : bool :=
  let n := nat_of_ascii c in
  (Nat.leb 65 n && Nat.leb n 90) || (Nat.leb 97 n && Nat.leb n 122)
  || (Nat.leb 48 n && Nat.leb n 57).

(** The key [key] is in the hot cache ([flag = true]) or out of it
    ([flag = false]). *)
Definition cached_state (flag : bool) (w : world) (key : string) : Prop :=
  if flag then is_Some (redisCache w !! key) else redisCache w !! key = None.

(** The range of the timer of a [redis.get]: the jitter on a hit, the
    latency of the cached tier on a miss. *)
Definition read_range (hit : bool) (cfg : simulation) : Range.t :=
  if hit then networkJitterMs cfg else redisLatencyMs cfg.

(** A call received by the cached tier. *)
Definition on_cached_tier (c : call) : bool :=
  match c with
  | RedisSet _ _ _ | RedisGet _ _ => true
  | DbSet _ _ | DbGet _ _ => false
  end.

(** The key [key] is ["benchmark:mixed:<j>"] for an index [j] below
    [requests]. *)
Definition mixed_key_below (requests : Z) (key : string) : Prop :=
  exists j, 0 <= j < requests /\ key = "benchmark:mixed:" ++ template_Z j.

(** The calls logged since the log was [base] all satisfy [P]. *)
Definition logged_since (base : list call) (P : call -> Prop) (w : world) : Prop :=
  exists log, calls w = (base ++ log)%list /\ Forall P log.

(** The ratio string ["<a>:<b>"] of two naturals. *)
Definition ratio_string (a b : nat) : string :=
  template_nat a ++ String colon (template_nat b).

Definition colon_free (s : string) : Prop :=
  forall c, In c (list_ascii_of_string s) -> c <> colon.

Definition is_decimal_digit (c : ascii) : bool :=
  Z.leb 48 (code_unit c) && Z.leb (code_unit c) 57.

(** A string of decimal digits. *)
Definition decimal (s : string) : Prop :=
  forall c, In c (list_ascii_of_string s) -> is_decimal_digit c = true.

(* ===================================================================== *)
(** ** The mock data of the benchmark route: [generateMockBenchmarkData] *)
(* ===================================================================== *)

(** The [config] object of [generateMockBenchmarkData], destructured with
    no defaults.  [requests] and [size] are integers, which [parseInt]
    returns unchanged. *)
Module MockConfig.
Record t := {
  type : string;
  storage : string;
  requests : Z;
  size : Z;
  ratio : option string;
  cachedRatio : option string;
  name : option string
}.
End MockConfig.

(** The record it returns, without [id] (from [uuidv4]) and [timestamp]. *)
Module MockResult.
Record t := {
  name : string;
  type : string;
  storage : string;
  requests : Z;
  size : Z;
  ratio : option string;
  cachedRatio : option string;
  opsPerSecond : jsnum;
  duration : jsnum
}.
End MockResult.

(** [s.toUpperCase()] on the ASCII letters; other characters are kept. *)
Definition upper_char (c : ascii) : ascii :=
  let n := nat_of_ascii c in
  if Nat.leb 97 n && Nat.leb n 122 then ascii_of_nat (n - 32) else c.

Fixpoint toUpperCase (s : string) : string :=
  match s with
  | EmptyString => EmptyString
  | String c rest => String (upper_char c) (toUpperCase rest)
  end.

(** [name || fallback]: an absent or empty name is falsy. *)
Definition name_or (name : option string) (fallback : string) : string :=
  match name with
  | Some (String c rest) => String c rest
  | _ => fallback
  end.

(** [parseFloat(x.toFixed(2))]: the nearest multiple of one hundredth, a
    tie going away from zero; [Infinity] and [NaN] stay as they are. *)
Definition round_hundredths (x : Q) : Q :=
  if Qltb x 0 then (- (inject_Z (Qfloor (- x * 100 + (1 # 2))) / 100))%Q
  else (inject_Z (Qfloor (x * 100 + (1 # 2))) / 100)%Q.

Definition toFixed2 (x : jsnum) : jsnum :=
  match x with
  | Fin q => Fin (round_hundredths q)
  | other => other
  end.

(** The table of [baseOpsPerSecond]. *)
Definition baseOpsPerSecond (type storage : string) : Q :=
  let isCached := is_redis storage in
  if String.eqb type "get" then (if isCached then 8500 else 180)
  else if String.eqb type "set" then (if isCached then 7800 else 220)
  else (if isCached then 8100 else 200).

(** [generateMockBenchmarkData(config)] *)
Definition generateMockBenchmarkData (config : MockConfig.t) : M MockResult.t :=
  let type := MockConfig.type config in
  let storage := MockConfig.storage config in
  let requests := MockConfig.requests config in
  let base := baseOpsPerSecond type storage in
  let* r := Math_random in
  let variance := (r * (2 # 10) - (1 # 10))%Q in
  let opsPerSecond := Fin (base * (1 + variance)) in
  let baseDuration := js_div (Fin (inject_Z requests)) opsPerSecond in
  let* r' := Math_random in
  let durationVariance := (r' * (15 # 100) - (5 # 100))%Q in
  let duration := js_mul baseDuration (Fin (1 + durationVariance)) in
  ret {| MockResult.name :=
           name_or (MockConfig.name config)
             ((if is_redis storage then "Redis" else "DB") ++ " "
              ++ toUpperCase type ++ " Benchmark");
         MockResult.type := type;
         MockResult.storage := storage;
         MockResult.requests := requests;
         MockResult.size := MockConfig.size config;
         MockResult.ratio := MockConfig.ratio config;
         MockResult.cachedRatio := MockConfig.cachedRatio config;
         MockResult.opsPerSecond := toFixed2 opsPerSecond;
         MockResult.duration := toFixed2 duration |}.

(* ===================================================================== *)
(** ** The embedding on small inputs *)
(* ===================================================================== *)

Example parse_ratio_three_to_one : parse_ratio "3:1" = (Fin 3, Fin 1).
Proof. reflexivity. Qed.

Example parse_ratio_single_number : parse_ratio "3" = (Fin 3, NaN).
Proof. reflexivity. Qed.

Example parse_ratio_not_a_number : parse_ratio "a:1" = (NaN, Fin 1).
Proof. reflexivity. Qed.

Example cachedProbability_of_no_weights : cachedProbability_of "0:0" = Fin 0.
Proof. reflexivity. Qed.

Example setOps_of_seven_requests : setOps_of (Fin 1) (Fin 2) 7 = Fin 2.
Proof. reflexivity. Qed.

Example prepopulation_of_one_request :
  loop_trips (prepopulate_bound (Fin 0) (Fin 1) 1) = 1%nat.
Proof. reflexivity. Qed.

Example get_run_on_redis :
  calls (world_after (runBenchmark (configuration "get" "redis" 2 3 "1:1" "1:0"))
           sample_world)
  = [RedisSet "benchmark:get:0" "fff" true; RedisSet "benchmark:get:1" "fff" true;
     RedisGet "benchmark:get:0" (Some "fff"); RedisGet "benchmark:get:1" (Some "fff")].
Proof. vm_compute. reflexivity. Qed.

Example mixed_run_on_db :
  calls (world_after (runBenchmark (configuration "mixed" "db" 5 1 "1:1" "1:0"))
           sample_world)
  = [DbSet "benchmark:mixed:0" "f"; DbSet "benchmark:mixed:1" "f";
     DbSet "benchmark:mixed:2" "f";
     DbGet "benchmark:mixed:2" (Some "f"); DbGet "benchmark:mixed:2" (Some "f");
     DbGet "benchmark:mixed:2" (Some "f");
     DbSet "benchmark:mixed:2" "f"; DbSet "benchmark:mixed:2" "f"].
Proof. vm_compute. reflexivity. Qed.

Example measured_second :
  exists idDraw,
    result_of (runBenchmark (configuration "set" "db" 4 1 "1:1" "1:0")) sample_world
    = Fulfilled
        {| Result.id := idDraw; Result.name := "Benchmark Run"; Result.type := "set";
           Result.storage := "db"; Result.requests := 4; Result.size := 1;
           Result.ratio := "1:1"; Result.cachedRatio := "0:1";
           Result.opsPerSecond := Fin (4 / ((1000 - 0) / 1000));
           Result.duration := Fin ((1000 - 0) / 1000) |}.
Proof. eexists. vm_compute. reflexivity. Qed.

(* ===================================================================== *)
(** ** Arithmetic and sequencing lemmas *)
(* ===================================================================== *)

Lemma Qltb_lt (x y : Q) : Qltb x y = true <-> (x < y)%Q.
Proof.
  unfold Qltb. rewrite negb_true_iff. split.
  - intros H. apply Qnot_le_lt. intros Hle. apply Qle_bool_iff in Hle. congruence.
  - intros H. destruct (Qle_bool y x) eqn:E; [|reflexivity].
    apply Qle_bool_iff in E. apply Qle_not_lt in E. contradiction.
Qed.

Lemma Qltb_ge (x y : Q) : Qltb x y = false <-> (y <= x)%Q.
Proof.
  unfold Qltb. rewrite negb_false_iff. apply Qle_bool_iff.
Qed.

Lemma Qeqb_eq (x y : Q) : Qeqb x y = true <-> (x == y)%Q.
Proof.
  unfold Qeqb. rewrite andb_true_iff, !Qle_bool_iff. split.
  - intros [H1 H2]. apply Qle_antisym; assumption.
  - intros H. rewrite H. split; apply Qle_refl.
Qed.

Lemma Qeqb_neq (x y : Q) : Qeqb x y = false <-> ~ (x == y)%Q.
Proof.
  rewrite <- Qeqb_eq. destruct (Qeqb x y); split; intros; congruence.
Qed.

Lemma latency_in_range (lo hi r : Q) :
  (lo <= hi)%Q -> (0 <= r)%Q -> (r < 1)%Q ->
  (lo <= r * (hi - lo) + lo)%Q /\ (r * (hi - lo) + lo <= hi)%Q.
Proof. intros. split; nra. Qed.

Lemma result_of_bind {A B} (m : M A) (k : A -> M B) (w : world) :
  result_of (bind m k) w = result_of (k (result_of m w)) (world_after m w).
Proof. unfold result_of, world_after, bind. destruct (m w). reflexivity. Qed.

Lemma world_after_bind {A B} (m : M A) (k : A -> M B) (w : world) :
  world_after (bind m k) w = world_after (k (result_of m w)) (world_after m w).
Proof. unfold result_of, world_after, bind. destruct (m w). reflexivity. Qed.

Lemma result_of_ret {A} (a : A) (w : world) : result_of (ret a) w = a.
Proof. reflexivity. Qed.

Lemma world_after_ret {A} (a : A) (w : world) : world_after (ret a) w = w.
Proof. reflexivity. Qed.

Lemma simulateLatency_world (lo hi : Q) (w : world) :
  world_after (simulateLatency lo hi) w
  = log_timeout (draws w (cursor w) * (hi - lo) + lo)%Q (next_draw w).
Proof. reflexivity. Qed.

(* ===================================================================== *)
(** ** Rounding to binary64 *)
(* ===================================================================== *)

(** [round64] agrees with the division and the multiplication of
    [SpecFloat], the executable IEEE-754 arithmetic of the standard
    library, where the quotas of the code part from the exact ones. *)
Example round64_quotient :
  div64 (Fin 29) (Fin 100)
  = spec_value (SpecFloat.SFdiv 53 1024 (spec_nat 29) (spec_nat 100))
  /\ div64 (Fin 1) (Fin 49)
     = spec_value (SpecFloat.SFdiv 53 1024 (spec_nat 1) (spec_nat 49))
  /\ div64 (Fin 7) (Fin 10)
     = spec_value (SpecFloat.SFdiv 53 1024 (spec_nat 7) (spec_nat 10)).
Proof. vm_compute. repeat split. Qed.

Example round64_product :
  mul64 (div64 (Fin 29) (Fin 100)) (Fin 100)
  = spec_value (SpecFloat.SFmul 53 1024
                  (SpecFloat.SFdiv 53 1024 (spec_nat 29) (spec_nat 100)) (spec_nat 100))
  /\ mul64 (div64 (Fin 1) (Fin 49)) (Fin 49)
     = spec_value (SpecFloat.SFmul 53 1024
                     (SpecFloat.SFdiv 53 1024 (spec_nat 1) (spec_nat 49)) (spec_nat 49))
  /\ mul64 (div64 (Fin 1) (Fin 2)) (Fin 1000) = Fin 500.
Proof. vm_compute. repeat split. Qed.

Example round64_limits :
  round64 (2 ^ 1024 - 2 ^ 971) = Fin (Qred (2 ^ 1024 - 2 ^ 971))
  /\ round64 (2 ^ 1024 - 2 ^ 970) = PosInf
  /\ round64 (2 ^ (-1074)) = Fin (Qred (2 ^ (-1074)))
  /\ round64 (2 ^ (-1075)) = Fin 0
  /\ round64 (inject_Z (2 ^ 53 + 1)) = Fin (inject_Z (2 ^ 53)).
Proof. vm_compute. repeat split. Qed.

Example Number_literals :
  map Number ["1"; " 12 "; "0.5"; "1e3"; "0x1F"; "-3"; "1."; ".5"; "Infinity"]
  = [Fin 1; Fin 12; Fin (1 # 2); Fin 1000; Fin 31; Fin (-3); Fin 1; Fin (1 # 2); PosInf]
  /\ map Number [""; "."; "1e"; "12abc"; "0x"; "-0x10"; "1 2"; "1_0"]
     = [Fin 0; NaN; NaN; NaN; NaN; NaN; NaN; NaN]
  /\ Number "9007199254740993" = Fin 9007199254740992
  /\ Number "1e400" = PosInf.
Proof. vm_compute. repeat split. Qed.

Lemma Fin_inj (a b : Q) : Fin a = Fin b -> a = b.
Proof. intros H. injection H as H. exact H. Qed.

Section Rounding.

Local Open Scope Q_scope.

Lemma pow2_pos (e : Z) : 0 < 2 ^ e.
Proof. apply Qpower_0_lt. reflexivity. Qed.

Lemma pow2_plus (a b : Z) : 2 ^ (a + b) == 2 ^ a * 2 ^ b.
Proof. apply Qpower_plus. discriminate. Qed.

Lemma pow2_le (a b : Z) : (a <= b)%Z -> 2 ^ a <= 2 ^ b.
Proof. intros H. apply Qpower_le_compat_l; [exact H|discriminate]. Qed.

Lemma pow2_lt (a b : Z) : (a < b)%Z -> 2 ^ a < 2 ^ b.
Proof. intros H. apply Qpower_lt_compat_l; [exact H|reflexivity]. Qed.

Lemma pow2_lt_inv (a b : Z) : 2 ^ a < 2 ^ b -> (a < b)%Z.
Proof. intros H. apply (Qpower_lt_compat_l_inv 2); [exact H|reflexivity]. Qed.

Lemma pow2_inject (n : Z) : (0 <= n)%Z -> inject_Z (2 ^ n) == 2 ^ n.
Proof. intros H. apply (Zpower_Qpower 2 n H). Qed.

Lemma pow2_opp (e : Z) : 2 ^ (- e) == / 2 ^ e.
Proof. apply Qpower_opp. Qed.

(** *** The binary logarithm *)

Lemma floor_log2_spec (a : Q) :
  0 < a -> 2 ^ floor_log2 a <= a /\ a < 2 ^ (floor_log2 a + 1).
Proof.
  intros Ha. unfold floor_log2. destruct (Qle_bool 1 a) eqn:H1.
  - apply Qle_bool_iff in H1.
    assert (1 <= Qfloor a)%Z as Hf.
    { change 1%Z with (Qfloor 1). apply Qfloor_resp_le. exact H1. }
    destruct (Z.log2_spec (Qfloor a) ltac:(lia)) as [Hlo Hhi].
    pose proof (Z.log2_nonneg (Qfloor a)) as Hnn.
    split.
    + rewrite <- pow2_inject by exact Hnn.
      apply Qle_trans with (inject_Z (Qfloor a)); [|apply Qfloor_le].
      rewrite <- Zle_Qle. exact Hlo.
    + rewrite <- pow2_inject by lia.
      apply Qlt_le_trans with (inject_Z (Qfloor a + 1)); [apply Qlt_floor|].
      rewrite <- Zle_Qle. unfold Z.succ in Hhi. lia.
  - assert (a < 1) as Hlt.
    { apply Qnot_le_lt. intros Hle. apply Qle_bool_iff in Hle. congruence. }
    assert (1 < / a) as Hinv.
    { apply Qlt_shift_inv_l; [exact Ha|]. rewrite Qmult_1_l. exact Hlt. }
    assert (0 < / a) as Hinvpos by (apply Qinv_lt_0_compat; exact Ha).
    assert (1 < Qceiling (/ a))%Z as Hc.
    { rewrite Zlt_Qlt. apply Qlt_le_trans with (/ a); [exact Hinv|apply Qle_ceiling]. }
    destruct (Z.log2_up_spec (Qceiling (/ a)) Hc) as [Hlo Hhi].
    pose proof (Z.log2_up_nonneg (Qceiling (/ a))) as Hnn.
    set (k := Z.log2_up (Qceiling (/ a))) in *.
    assert (0 < k)%Z as Hk.
    { destruct (Z.eq_dec k 0%Z) as [E|E]; [|lia]. rewrite E in Hhi. cbn in Hhi. lia. }
    assert (/ a <= 2 ^ k) as Hup.
    { apply Qle_trans with (inject_Z (Qceiling (/ a))); [apply Qle_ceiling|].
      rewrite <- pow2_inject by lia. rewrite <- Zle_Qle. exact Hhi. }
    assert (2 ^ (k - 1) < / a) as Hdown.
    { rewrite <- pow2_inject by lia.
      apply Qle_lt_trans with (inject_Z (Qceiling (/ a) - 1)); [|apply Qceiling_lt].
      rewrite <- Zle_Qle. replace (Z.pred k) with (k - 1)%Z in Hlo by lia. lia. }
    split.
    + rewrite pow2_opp.
      apply Qle_shift_inv_r; [apply pow2_pos|].
      apply (Qmult_le_l _ _ (/ a) Hinvpos).
      setoid_replace (/ a * (a * 2 ^ k)) with (2 ^ k) using relation Qeq
        by (field; intros E; rewrite E in Ha; discriminate).
      rewrite Qmult_1_r. exact Hup.
    + replace (- k + 1)%Z with (- (k - 1))%Z by lia. rewrite pow2_opp.
      apply Qlt_shift_inv_l; [apply pow2_pos|].
      apply (Qmult_lt_l _ _ (/ a) Hinvpos).
      setoid_replace (/ a * (a * 2 ^ (k - 1))) with (2 ^ (k - 1)) using relation Qeq
        by (field; intros E; rewrite E in Ha; discriminate).
      rewrite Qmult_1_r. exact Hdown.
Qed.

Lemma floor_log2_monotone (a b : Q) : 0 < a -> a <= b -> (floor_log2 a <= floor_log2 b)%Z.
Proof.
  intros Ha Hab.
  assert (0 < b) as Hb by (apply Qlt_le_trans with a; assumption).
  destruct (floor_log2_spec a Ha) as [Alo _], (floor_log2_spec b Hb) as [_ Bhi].
  assert (floor_log2 a < floor_log2 b + 1)%Z; [|lia].
  apply pow2_lt_inv. apply Qle_lt_trans with a; [exact Alo|].
  apply Qle_lt_trans with b; assumption.
Qed.

#[local] Instance floor_log2_comp : Proper (Qeq ==> eq) floor_log2.
Proof.
  intros a b Hab. unfold floor_log2.
  assert (Qle_bool 1 a = Qle_bool 1 b) as ->.
  { destruct (Qle_bool 1 a) eqn:Ea, (Qle_bool 1 b) eqn:Eb; try reflexivity.
    - apply Qle_bool_iff in Ea. rewrite Hab in Ea. apply Qle_bool_iff in Ea. congruence.
    - apply Qle_bool_iff in Eb. rewrite <- Hab in Eb. apply Qle_bool_iff in Eb. congruence. }
  rewrite (Qfloor_comp _ _ Hab).
  assert (/ a == / b) as E by (rewrite Hab; reflexivity).
  rewrite (Qceiling_comp _ _ E). reflexivity.
Qed.

(** *** Rounding to the nearest integer *)

Lemma round_half_even_cases (x : Q) :
  let f := Qfloor x in
  (round_half_even x = f /\ x - inject_Z f <= 1 # 2)
  \/ (round_half_even x = (f + 1)%Z /\ 1 # 2 <= x - inject_Z f).
Proof.
  cbv zeta. unfold round_half_even.
  destruct (Qltb (x - inject_Z (Qfloor x)) (1 # 2)) eqn:E1.
  - left. split; [reflexivity|]. apply Qltb_lt in E1. apply Qlt_le_weak, E1.
  - apply Qltb_ge in E1.
    destruct (Qltb (1 # 2) (x - inject_Z (Qfloor x))) eqn:E2.
    + right. split; [reflexivity|exact E1].
    + apply Qltb_ge in E2. destruct (Z.even (Qfloor x)).
      * left. split; [reflexivity|exact E2].
      * right. split; [reflexivity|exact E1].
Qed.

Lemma round_half_even_near (x : Q) :
  x - (1 # 2) <= inject_Z (round_half_even x) /\ inject_Z (round_half_even x) <= x + (1 # 2).
Proof.
  pose proof (Qfloor_le x) as Hlo. pose proof (Qlt_floor x) as Hhi.
  rewrite inject_Z_plus in Hhi. change (inject_Z 1) with 1 in Hhi.
  destruct (round_half_even_cases x) as [[-> H]|[-> H]].
  - generalize dependent (inject_Z (Qfloor x)). intros f Hlo Hhi H. split; lra.
  - rewrite inject_Z_plus. change (inject_Z 1) with 1.
    generalize dependent (inject_Z (Qfloor x)). intros f Hlo Hhi H. split; lra.
Qed.

Lemma round_half_even_Z (z : Z) : round_half_even (inject_Z z) = z.
Proof.
  unfold round_half_even. rewrite Qfloor_Z.
  assert (Qltb (inject_Z z - inject_Z z) (1 # 2) = true) as ->; [|reflexivity].
  apply Qltb_lt. lra.
Qed.

#[local] Instance round_half_even_comp : Proper (Qeq ==> eq) round_half_even.
Proof.
  intros x y Hxy. unfold round_half_even. rewrite (Qfloor_comp _ _ Hxy).
  assert (forall a b c, a == b -> Qltb a c = Qltb b c) as L1.
  { intros a b c E. unfold Qltb. f_equal.
    destruct (Qle_bool c a) eqn:Ea, (Qle_bool c b) eqn:Eb; try reflexivity.
    - apply Qle_bool_iff in Ea. rewrite E in Ea. apply Qle_bool_iff in Ea. congruence.
    - apply Qle_bool_iff in Eb. rewrite <- E in Eb. apply Qle_bool_iff in Eb. congruence. }
  assert (forall a b c, a == b -> Qltb c a = Qltb c b) as L2.
  { intros a b c E. unfold Qltb. f_equal.
    destruct (Qle_bool a c) eqn:Ea, (Qle_bool b c) eqn:Eb; try reflexivity.
    - apply Qle_bool_iff in Ea. rewrite E in Ea. apply Qle_bool_iff in Ea. congruence.
    - apply Qle_bool_iff in Eb. rewrite <- E in Eb. apply Qle_bool_iff in Eb. congruence. }
  assert (x - inject_Z (Qfloor y) == y - inject_Z (Qfloor y)) as E by (rewrite Hxy; reflexivity).
  rewrite (L1 _ _ _ E), (L2 _ _ _ E). reflexivity.
Qed.

Lemma round_half_even_monotone (x y : Q) :
  x <= y -> (round_half_even x <= round_half_even y)%Z.
Proof.
  intros Hxy. pose proof (Qfloor_resp_le x y Hxy) as Hf.
  destruct (Z.eq_dec (Qfloor x) (Qfloor y)) as [E|E].
  - unfold round_half_even. rewrite <- E.
    set (f := Qfloor x).
    assert (x - inject_Z f <= y - inject_Z f) as Hr by lra.
    destruct (Qltb (x - inject_Z f) (1 # 2)) eqn:X1.
    + destruct (Qltb (y - inject_Z f) (1 # 2)); [lia|].
      destruct (Qltb (1 # 2) (y - inject_Z f)); [lia|]. destruct (Z.even f); lia.
    + apply Qltb_ge in X1.
      assert (Qltb (y - inject_Z f) (1 # 2) = false) as -> by (apply Qltb_ge; lra).
      destruct (Qltb (1 # 2) (x - inject_Z f)) eqn:X2.
      * apply Qltb_lt in X2.
        assert (Qltb (1 # 2) (y - inject_Z f) = true) as -> by (apply Qltb_lt; lra). lia.
      * destruct (Qltb (1 # 2) (y - inject_Z f)); [destruct (Z.even f); lia|].
        destruct (Z.even f); lia.
  - assert (round_half_even x <= Qfloor x + 1)%Z
      by (destruct (round_half_even_cases x) as [[-> _]|[-> _]]; lia).
    assert (Qfloor y <= round_half_even y)%Z
      by (destruct (round_half_even_cases y) as [[-> _]|[-> _]]; lia).
    lia.
Qed.

(** *** Rounding a magnitude *)

Lemma ulp_exponent_monotone (a b : Q) :
  0 < a -> a <= b -> (ulp_exponent a <= ulp_exponent b)%Z.
Proof.
  intros Ha Hab. unfold ulp_exponent.
  pose proof (floor_log2_monotone a b Ha Hab). lia.
Qed.

#[local] Instance round_magnitude_comp : Proper (Qeq ==> Qeq) round_magnitude.
Proof.
  intros a b Hab. unfold round_magnitude, ulp_exponent.
  rewrite (floor_log2_comp _ _ Hab).
  assert (a / 2 ^ Z.max (floor_log2 b - 52) (-1074) == b / 2 ^ Z.max (floor_log2 b - 52) (-1074))
    as E by (rewrite Hab; reflexivity).
  rewrite (round_half_even_comp _ _ E). reflexivity.
Qed.

Lemma round_magnitude_zero : round_magnitude 0 == 0.
Proof. reflexivity. Qed.

Lemma scaled_le (a b : Q) (e : Z) : a <= b * 2 ^ e <-> a / 2 ^ e <= b.
Proof.
  pose proof (pow2_pos e) as Hp. split; intros H.
  - apply Qle_shift_div_r; assumption.
  - apply (Qmult_le_r _ _ (2 ^ e) Hp) in H.
    setoid_replace (a / 2 ^ e * 2 ^ e) with a using relation Qeq in H; [exact H|].
    field. intros E. rewrite E in Hp. discriminate.
Qed.

Lemma scaled_ge (a b : Q) (e : Z) : b * 2 ^ e <= a <-> b <= a / 2 ^ e.
Proof.
  pose proof (pow2_pos e) as Hp. split; intros H.
  - apply Qle_shift_div_l; assumption.
  - apply (Qmult_le_r _ _ (2 ^ e) Hp) in H.
    setoid_replace (a / 2 ^ e * 2 ^ e) with a using relation Qeq in H; [exact H|].
    field. intros E. rewrite E in Hp. discriminate.
Qed.

Lemma round_magnitude_nonneg (a : Q) : 0 <= a -> 0 <= round_magnitude a.
Proof.
  intros Ha. unfold round_magnitude.
  apply Qmult_le_0_compat; [|apply Qlt_le_weak, pow2_pos].
  change 0 with (inject_Z 0). rewrite <- Zle_Qle.
  change 0%Z with (round_half_even (inject_Z 0)) at 1.
  apply round_half_even_monotone. apply scaled_ge.
  change (inject_Z 0) with 0. rewrite Qmult_0_l. exact Ha.
Qed.

(** The rounded magnitude stays in the binade of its argument. *)
Lemma round_magnitude_upper (a : Q) :
  0 < a -> round_magnitude a <= 2 ^ (ulp_exponent a + 53).
Proof.
  intros Ha. unfold round_magnitude. set (e := ulp_exponent a).
  rewrite pow2_plus, (Qmult_comm (2 ^ e)).
  apply Qmult_le_compat_r; [|apply Qlt_le_weak, pow2_pos].
  rewrite <- (pow2_inject 53) by lia. rewrite <- Zle_Qle.
  rewrite <- (round_half_even_Z (2 ^ 53)).
  apply round_half_even_monotone. apply scaled_le.
  rewrite (pow2_inject 53) by lia. rewrite <- pow2_plus.
  destruct (floor_log2_spec a Ha) as [_ Hhi].
  apply Qlt_le_weak. apply Qlt_le_trans with (2 ^ (floor_log2 a + 1)); [exact Hhi|].
  apply pow2_le. unfold e, ulp_exponent. lia.
Qed.

Lemma round_magnitude_lower (a : Q) :
  0 < a -> (-1074 < ulp_exponent a)%Z -> 2 ^ (ulp_exponent a + 52) <= round_magnitude a.
Proof.
  intros Ha Hnormal. unfold round_magnitude. set (e := ulp_exponent a).
  rewrite (Z.add_comm e), pow2_plus.
  apply Qmult_le_compat_r; [|apply Qlt_le_weak, pow2_pos].
  rewrite <- (pow2_inject 52) by lia. rewrite <- Zle_Qle.
  rewrite <- (round_half_even_Z (2 ^ 52)).
  apply round_half_even_monotone. apply scaled_ge.
  rewrite (pow2_inject 52) by lia. rewrite <- pow2_plus.
  destruct (floor_log2_spec a Ha) as [Hlo _].
  apply Qle_trans with (2 ^ floor_log2 a); [|exact Hlo].
  apply pow2_le. unfold e, ulp_exponent in *. lia.
Qed.

Lemma round_magnitude_monotone (a b : Q) :
  0 <= a -> a <= b -> round_magnitude a <= round_magnitude b.
Proof.
  intros Ha Hab.
  destruct (Qlt_le_dec 0 a) as [Hpos|Hzero].
  2:{ assert (a == 0) as -> by lra. rewrite round_magnitude_zero.
      apply round_magnitude_nonneg. lra. }
  assert (0 < b) as Hb by lra.
  pose proof (ulp_exponent_monotone a b Hpos Hab) as He.
  destruct (Z.eq_dec (ulp_exponent a) (ulp_exponent b)) as [E|E].
  - unfold round_magnitude. rewrite E.
    apply Qmult_le_compat_r; [|apply Qlt_le_weak, pow2_pos].
    rewrite <- Zle_Qle. apply round_half_even_monotone.
    apply scaled_le.
    setoid_replace (b / 2 ^ ulp_exponent b * 2 ^ ulp_exponent b) with b using relation Qeq; [exact Hab|].
    field. intros E0. pose proof (pow2_pos (ulp_exponent b)) as Hp. rewrite E0 in Hp. discriminate.
  - apply Qle_trans with (2 ^ (ulp_exponent a + 53)); [apply round_magnitude_upper, Hpos|].
    apply Qle_trans with (2 ^ (ulp_exponent b + 52)).
    + apply pow2_le. lia.
    + apply round_magnitude_lower; [exact Hb|]. unfold ulp_exponent in *. lia.
Qed.

(** A multiple of a power of two that needs at most 53 bits is its own
    rounding. *)
Lemma round_magnitude_exact (m e : Z) :
  (0 <= m < 2 ^ 53)%Z -> (-1074 <= e)%Z ->
  round_magnitude (inject_Z m * 2 ^ e) == inject_Z m * 2 ^ e.
Proof.
  intros Hm He.
  destruct (Z.eq_dec m 0%Z) as [->|Hnz].
  { rewrite Qmult_0_l. reflexivity. }
  set (a := inject_Z m * 2 ^ e).
  assert (0 < a) as Ha.
  { apply Qmult_lt_0_compat; [|apply pow2_pos].
    change 0 with (inject_Z 0). rewrite <- Zlt_Qlt. lia. }
  assert (ulp_exponent a <= e)%Z as Hulp.
  { unfold ulp_exponent.
    assert (floor_log2 a < e + 53)%Z; [|lia].
    apply pow2_lt_inv. destruct (floor_log2_spec a Ha) as [Hlo _].
    apply Qle_lt_trans with a; [exact Hlo|].
    unfold a. rewrite (Z.add_comm e), pow2_plus.
    apply Qmult_lt_compat_r; [apply pow2_pos|].
    rewrite <- pow2_inject by lia. rewrite <- Zlt_Qlt. lia. }
  unfold round_magnitude. set (u := ulp_exponent a) in *.
  assert (a / 2 ^ u == inject_Z (m * 2 ^ (e - u))) as E.
  { unfold a. rewrite inject_Z_mult, pow2_inject by lia.
    unfold Zminus. rewrite pow2_plus, pow2_opp. field.
    intros E0. pose proof (pow2_pos u) as Hp. rewrite E0 in Hp. discriminate. }
  rewrite (round_half_even_comp _ _ E), round_half_even_Z.
  rewrite inject_Z_mult, pow2_inject by lia.
  unfold a, Zminus. rewrite pow2_plus, pow2_opp. field.
  intros E0. pose proof (pow2_pos u) as Hp. rewrite E0 in Hp. discriminate.
Qed.

(** In the normal range a rounding moves a magnitude by at most one part
    in [2^53]. *)
Lemma round_magnitude_error (a : Q) :
  2 ^ (-1022) <= a ->
  a - a * 2 ^ (-53) <= round_magnitude a /\ round_magnitude a <= a + a * 2 ^ (-53).
Proof.
  intros Hnormal.
  assert (0 < a) as Ha by (apply Qlt_le_trans with (2 ^ (-1022)); [apply pow2_pos|exact Hnormal]).
  destruct (floor_log2_spec a Ha) as [Hlo Hhi].
  assert (-1022 <= floor_log2 a)%Z as Hfl.
  { assert (-1022 < floor_log2 a + 1)%Z; [|lia].
    apply pow2_lt_inv. apply Qle_lt_trans with a; assumption. }
  assert (ulp_exponent a = floor_log2 a - 52)%Z as Hu by (unfold ulp_exponent; lia).
  unfold round_magnitude. rewrite Hu. set (e := (floor_log2 a - 52)%Z).
  pose proof (pow2_pos e) as Hp.
  destruct (round_half_even_near (a / 2 ^ e)) as [Nlo Nhi].
  assert (2 ^ e * (1 # 2) <= a * 2 ^ (-53)) as Hhalf.
  { assert (2 ^ floor_log2 a == 2 ^ e * 2 ^ 52) as E1
      by (rewrite <- pow2_plus; unfold e; replace (floor_log2 a - 52 + 52)%Z with (floor_log2 a) by lia; reflexivity).
    assert ((2:Q) ^ (-53) == (1 # 2) * / 2 ^ 52) as -> by reflexivity.
    rewrite E1 in Hlo.
    assert (0 < (2:Q) ^ 52) as H52 by (apply pow2_pos).
    assert (2 ^ e <= a * / 2 ^ 52).
    { apply Qle_shift_div_l; [exact H52|exact Hlo]. }
    lra. }
  assert (a == a / 2 ^ e * 2 ^ e) as Ea.
  { field. intros E0. rewrite E0 in Hp. discriminate. }
  apply (Qmult_le_r _ _ (2 ^ e) Hp) in Nlo. apply (Qmult_le_r _ _ (2 ^ e) Hp) in Nhi.
  set (r := inject_Z (round_half_even (a / 2 ^ e)) * 2 ^ e) in *.
  set (s := a / 2 ^ e) in *.
  split; nra.
Qed.

(** *** Rounding a number *)

Lemma Qle_bool_comp (a b c d : Q) : a == b -> c == d -> Qle_bool a c = Qle_bool b d.
Proof.
  intros E1 E2. destruct (Qle_bool a c) eqn:Ea, (Qle_bool b d) eqn:Eb; try reflexivity.
  - apply Qle_bool_iff in Ea. rewrite E1, E2 in Ea. apply Qle_bool_iff in Ea. congruence.
  - apply Qle_bool_iff in Eb. rewrite <- E1, <- E2 in Eb. apply Qle_bool_iff in Eb. congruence.
Qed.

Lemma round64_comp (q q' : Q) : q == q' -> round64 q = round64 q'.
Proof.
  intros E. unfold round64.
  assert (round_magnitude (Qabs q) == round_magnitude (Qabs q')) as Em
    by (rewrite E; reflexivity).
  rewrite (Qle_bool_comp _ _ _ _ (Qeq_refl (2 ^ 1024)) Em).
  assert (Qltb q 0 = Qltb q' 0) as ->
    by (unfold Qltb; f_equal; apply Qle_bool_comp; [reflexivity|exact E]).
  destruct (Qle_bool _ _); [reflexivity|].
  f_equal. apply Qred_complete. destruct (Qltb q' 0); rewrite Em; reflexivity.
Qed.

Lemma round64_nonneg (q : Q) :
  0 <= q ->
  round64 q = if Qle_bool (2 ^ 1024) (round_magnitude q) then PosInf
              else Fin (Qred (round_magnitude q)).
Proof.
  intros Hq. unfold round64.
  assert (Qltb q 0 = false) as -> by (apply Qltb_ge; exact Hq).
  assert (round_magnitude (Qabs q) == round_magnitude q) as Em
    by (rewrite (Qabs_pos q Hq); reflexivity).
  rewrite (Qle_bool_comp _ _ _ _ (Qeq_refl (2 ^ 1024)) Em).
  destruct (Qle_bool _ _); [reflexivity|].
  f_equal. apply Qred_complete. exact Em.
Qed.

Lemma representable_comp (x y : Q) : x == y -> representable x -> representable y.
Proof.
  intros E (m & e & Hm & He & Hx & Hb). exists m, e.
  split; [exact Hm|]. split; [exact He|]. split; rewrite <- E; assumption.
Qed.

Lemma representable_Z (z : Z) : (Z.abs z <= 2 ^ 53)%Z -> representable (inject_Z z).
Proof.
  intros Hz.
  assert (Qabs (inject_Z z) < 2 ^ 1024) as Hbound.
  { assert (Qabs (inject_Z z) == inject_Z (Z.abs z)) as -> by reflexivity.
    apply Qle_lt_trans with (inject_Z (2 ^ 53)); [rewrite <- Zle_Qle; exact Hz|].
    rewrite (pow2_inject 53) by lia. apply pow2_lt. lia. }
  destruct (Z.eq_dec (Z.abs z) (2 ^ 53)%Z) as [E|E].
  - exists (z / 2)%Z, 1%Z.
    assert (z = 2 * (z / 2) /\ Z.abs (z / 2) < 2 ^ 53)%Z as [Hz2 Hhalf].
    { change (2 ^ 53)%Z with 9007199254740992%Z in *.
      assert (z = 9007199254740992 \/ z = - 9007199254740992)%Z as [-> | ->] by lia;
        split; reflexivity. }
    split; [exact Hhalf|]. split; [lia|]. split; [|exact Hbound].
    rewrite Hz2 at 1. rewrite inject_Z_mult. change (2 ^ 1) with 2. change (inject_Z 2) with 2.
    ring.
  - exists z, 0%Z. split; [lia|]. split; [lia|]. split; [|exact Hbound].
    change (2 ^ 0) with 1. ring.
Qed.

(** A binary64 number is its own rounding. *)
Lemma round64_representable (x : Q) : representable x -> 0 <= x -> round64 x = Fin (Qred x).
Proof.
  intros (m & e & Hm & He & Hx & Hb) Hpos.
  rewrite (round64_nonneg x Hpos).
  assert (0 <= m)%Z as Hm0.
  { destruct (Z.lt_ge_cases m 0%Z) as [Hneg|]; [|assumption]. exfalso.
    assert (inject_Z m * 2 ^ e < 0); [|lra].
    setoid_replace (inject_Z m * 2 ^ e) with (- (inject_Z (- m) * 2 ^ e)) using relation Qeq
      by (rewrite inject_Z_opp; ring).
    assert (0 < inject_Z (- m) * 2 ^ e); [|lra].
    apply Qmult_lt_0_compat; [|apply pow2_pos].
    change 0 with (inject_Z 0). rewrite <- Zlt_Qlt. lia. }
  assert (round_magnitude x == x) as Em.
  { rewrite Hx. apply round_magnitude_exact; lia. }
  assert (Qle_bool (2 ^ 1024) (round_magnitude x) = false) as ->.
  { destruct (Qle_bool _ _) eqn:E; [|reflexivity]. apply Qle_bool_iff in E.
    rewrite Em in E. rewrite (Qabs_pos x Hpos) in Hb. lra. }
  f_equal. apply Qred_complete. exact Em.
Qed.

Lemma Qred_inject_Z (z : Z) : Qred (inject_Z z) = inject_Z z.
Proof. apply Qcanon.Qred_identity. cbn. apply Z.gcd_1_r. Qed.

(** Integers up to [2^53] are computed with exactly. *)
Lemma round64_Z (x : Q) (z : Z) :
  x == inject_Z z -> (0 <= z <= 2 ^ 53)%Z -> round64 x = Fin (inject_Z z).
Proof.
  intros E Hz. rewrite (round64_comp _ _ E).
  rewrite round64_representable.
  - rewrite Qred_inject_Z. reflexivity.
  - apply representable_Z. lia.
  - change 0 with (inject_Z 0). rewrite <- Zle_Qle. lia.
Qed.

(** Rounding is monotone: between two binary64 numbers it stays between
    them. *)
Lemma round64_between (q lo hi : Q) :
  representable lo -> representable hi -> 0 <= lo -> lo <= q -> q <= hi ->
  exists y, round64 q = Fin y /\ lo <= y /\ y <= hi.
Proof.
  intros Rlo Rhi Hlo Hq1 Hq2.
  assert (0 <= q) as Hq by lra. assert (0 <= hi) as Hhi by lra.
  pose proof (round64_representable lo Rlo Hlo) as Elo.
  pose proof (round64_representable hi Rhi Hhi) as Ehi.
  rewrite round64_nonneg in Elo, Ehi by assumption.
  rewrite (round64_nonneg q Hq).
  pose proof (round_magnitude_monotone lo q Hlo Hq1) as M1.
  pose proof (round_magnitude_monotone q hi Hq Hq2) as M2.
  destruct (Qle_bool (2 ^ 1024) (round_magnitude hi)) eqn:Ohi; [discriminate|].
  destruct (Qle_bool (2 ^ 1024) (round_magnitude lo)) eqn:Olo; [discriminate|].
  apply Fin_inj in Elo, Ehi.
  assert (round_magnitude lo == lo) as Flo.
  { transitivity (Qred (round_magnitude lo)); [symmetry; apply Qred_correct|].
    rewrite Elo. apply Qred_correct. }
  assert (round_magnitude hi == hi) as Fhi.
  { transitivity (Qred (round_magnitude hi)); [symmetry; apply Qred_correct|].
    rewrite Ehi. apply Qred_correct. }
  assert (Qle_bool (2 ^ 1024) (round_magnitude q) = false) as ->.
  { destruct (Qle_bool _ (round_magnitude q)) eqn:E; [|reflexivity].
    apply Qle_bool_iff in E.
    assert (2 ^ 1024 <= round_magnitude hi) as Habs by lra.
    apply Qle_bool_iff in Habs. congruence. }
  eexists. split; [reflexivity|]. rewrite Qred_correct. split; lra.
Qed.

(** What [round64] returns is a binary64 number. *)
Lemma round_magnitude_representable (a : Q) :
  0 <= a -> round_magnitude a < 2 ^ 1024 -> representable (round_magnitude a).
Proof.
  intros Ha Hbound.
  pose proof (round_magnitude_nonneg a Ha) as Hnn.
  assert (Qabs (round_magnitude a) < 2 ^ 1024) as Habs by (rewrite Qabs_pos; assumption).
  destruct (Qlt_le_dec 0 a) as [Hpos|Hzero].
  2:{ apply (representable_comp 0); [|apply (representable_Z 0); cbn; lia].
      assert (a == 0) as -> by lra. reflexivity. }
  pose proof (round_magnitude_upper a Hpos) as Hup.
  revert Hnn Hup Habs. unfold round_magnitude.
  set (e := ulp_exponent a). set (m := round_half_even (a / 2 ^ e)).
  intros Hnn Hup Habs.
  assert (-1074 <= e)%Z as He by (unfold e, ulp_exponent; lia).
  assert (0 <= m <= 2 ^ 53)%Z as Hm.
  { pose proof (pow2_pos e) as Hp. split.
    - rewrite Zle_Qle. change (inject_Z 0) with 0.
      destruct (Qlt_le_dec (inject_Z m) 0) as [Hneg|]; [|assumption]. exfalso.
      assert (inject_Z m * 2 ^ e < 0); [|lra].
      setoid_replace (inject_Z m * 2 ^ e) with (- ((- inject_Z m) * 2 ^ e)) using relation Qeq by ring.
      assert (0 < (- inject_Z m) * 2 ^ e); [|lra].
      apply Qmult_lt_0_compat; [lra|exact Hp].
    - rewrite Zle_Qle, (pow2_inject 53) by lia.
      rewrite (Z.add_comm e), pow2_plus in Hup.
      apply Qmult_le_r in Hup; assumption. }
  destruct (Z.eq_dec m (2 ^ 53)%Z) as [E|E].
  - exists (2 ^ 52)%Z, (e + 1)%Z. split; [lia|]. split; [lia|]. split; [|exact Habs].
    rewrite E, pow2_plus. change (2 ^ 1) with 2.
    rewrite (pow2_inject 53), (pow2_inject 52) by lia.
    change (2 ^ 53) with (2 ^ 52 * 2). ring.
  - exists m, e. split; [lia|]. split; [lia|]. split; [reflexivity|exact Habs].
Qed.

Lemma representable_opp (x : Q) : representable x -> representable (- x).
Proof.
  intros (m & e & Hm & He & Hx & Hb). exists (- m)%Z, e.
  split; [lia|]. split; [lia|]. split.
  - rewrite Hx, inject_Z_opp. ring.
  - rewrite Qabs_opp. exact Hb.
Qed.

Lemma round64_is_representable (q y : Q) : round64 q = Fin y -> representable y.
Proof.
  unfold round64. intros H.
  destruct (Qle_bool (2 ^ 1024) (round_magnitude (Qabs q))) eqn:E.
  { destruct (Qltb q 0); discriminate. }
  assert (round_magnitude (Qabs q) < 2 ^ 1024) as Hbound.
  { apply Qnot_le_lt. intros Hle. apply Qle_bool_iff in Hle. congruence. }
  pose proof (round_magnitude_representable (Qabs q) (Qabs_nonneg q) Hbound) as R.
  apply Fin_inj in H. subst y.
  destruct (Qltb q 0).
  - apply (representable_comp (- round_magnitude (Qabs q))).
    + symmetry. apply Qred_correct.
    + apply representable_opp, R.
  - apply (representable_comp (round_magnitude (Qabs q))); [|exact R].
    symmetry. apply Qred_correct.
Qed.

(** In the normal range a rounding moves a number by at most one part in
    [2^53]. *)
Lemma round64_error (q y : Q) :
  2 ^ (-1022) <= q -> round64 q = Fin y ->
  q - q * 2 ^ (-53) <= y /\ y <= q + q * 2 ^ (-53).
Proof.
  intros Hnormal H.
  assert (0 <= q) as Hq.
  { apply Qle_trans with (2 ^ (-1022)); [apply Qlt_le_weak, pow2_pos|exact Hnormal]. }
  rewrite (round64_nonneg q Hq) in H.
  destruct (Qle_bool _ _); [discriminate|]. apply Fin_inj in H. subst y.
  rewrite Qred_correct. apply round_magnitude_error, Hnormal.
Qed.

Lemma round64_zero (q : Q) : q == 0 -> round64 q = Fin 0.
Proof. intros E. rewrite (round64_comp _ _ E). reflexivity. Qed.

Lemma round64_one (q : Q) : q == 1 -> round64 q = Fin 1.
Proof. intros E. rewrite (round64_comp _ _ E). vm_compute. reflexivity. Qed.

(** Rounding does not go below a binary64 number that the argument is not
    below. *)
Lemma round64_above (q lo : Q) :
  representable lo -> 0 <= lo -> lo <= q ->
  round64 q = PosInf \/ exists y, round64 q = Fin y /\ lo <= y.
Proof.
  intros Rlo Hlo Hq1. assert (0 <= q) as Hq by lra.
  pose proof (round64_representable lo Rlo Hlo) as Elo.
  rewrite round64_nonneg in Elo by assumption.
  rewrite (round64_nonneg q Hq).
  pose proof (round_magnitude_monotone lo q Hlo Hq1) as M1.
  destruct (Qle_bool (2 ^ 1024) (round_magnitude lo)) eqn:Olo; [discriminate|].
  apply Fin_inj in Elo.
  assert (round_magnitude lo == lo) as Flo.
  { transitivity (Qred (round_magnitude lo)); [symmetry; apply Qred_correct|].
    rewrite Elo. apply Qred_correct. }
  destruct (Qle_bool _ (round_magnitude q)); [left; reflexivity|].
  right. eexists. split; [reflexivity|]. rewrite Qred_correct. lra.
Qed.

End Rounding.

(* ===================================================================== *)
(** ** The latency simulator *)
(* ===================================================================== *)

(** C9. For [min <= max] and a draw in [[0, 1)], [simulateLatency(min, max)]
    arms exactly one timer, with a delay in the closed interval
    [[min, max]]; it takes one draw, touches neither the maps nor the call
    log, and resolves with no value. *)
Theorem simulateLatency_within_range (lo hi : Q) (w : world) :
  (lo <= hi)%Q ->
  (0 <= draws w (cursor w))%Q -> (draws w (cursor w) < 1)%Q ->
  exists latency : Q,
    simulateLatency lo hi w = (tt, log_timeout latency (next_draw w))
    /\ timeouts (world_after (simulateLatency lo hi) w) = (timeouts w ++ [latency])%list
    /\ (lo <= latency)%Q /\ (latency <= hi)%Q.
Proof.
  intros Hrange Hnonneg Hbelow.
  exists (draws w (cursor w) * (hi - lo) + lo)%Q.
  split; [reflexivity|]. split; [reflexivity|].
  apply latency_in_range; assumption.
Qed.

Lemma simulateLatency_within_range_witness :
  exists latency : Q,
    simulateLatency 2 15 (fresh_world (constant (1 # 2)) (constant 0))
    = (tt, log_timeout latency (next_draw (fresh_world (constant (1 # 2)) (constant 0))))
    /\ timeouts (world_after (simulateLatency 2 15) (fresh_world (constant (1 # 2)) (constant 0)))
       = ([] ++ [latency])%list
    /\ (2 <= latency)%Q /\ (latency <= 15)%Q.
Proof.
  apply (simulateLatency_within_range 2 15 (fresh_world (constant (1 # 2)) (constant 0)));
    vm_compute; congruence.
Defined.

(* ===================================================================== *)
(** ** The cached tier *)
(* ===================================================================== *)

Lemma has_true (m : gmap string string) (key value : string) :
  m !! key = Some value -> has m key = true.
Proof. intros H. unfold has. apply bool_decide_eq_true. eauto. Qed.

Lemma has_false (m : gmap string string) (key : string) :
  m !! key = None -> has m key = false.
Proof.
  intros H. unfold has. apply bool_decide_eq_false. rewrite H.
  intros [x Hx]. discriminate.
Qed.

Lemma redis_get_hit (key value : string) (w : world) :
  redisCache w !! key = Some value ->
  redis_get key w
  = (Some value,
     log_call (RedisGet key (Some value))
       (world_after (simulateLatency (Range.min (networkJitterMs (simulationConfig w)))
                                     (Range.max (networkJitterMs (simulationConfig w)))) w)).
Proof.
  intros Hhit. unfold redis_get, bind, gets.
  rewrite (has_true _ _ _ Hhit). cbn. rewrite Hhit. reflexivity.
Qed.

Lemma redis_get_miss (key : string) (w : world) :
  redisCache w !! key = None ->
  redis_get key w
  = (redisStore w !! key,
     log_call (RedisGet key (redisStore w !! key))
       (world_after (simulateLatency (Range.min (redisLatencyMs (simulationConfig w)))
                                     (Range.max (redisLatencyMs (simulationConfig w)))) w)).
Proof.
  intros Hmiss. unfold redis_get, bind, gets.
  rewrite (has_false _ _ Hmiss). reflexivity.
Qed.

(** C5. A [redis.get] of a key of the hot cache arms one timer, in the
    jitter range, and returns the value of the hot cache; a [redis.get] of
    any other key arms one timer, in the latency range of the cached tier,
    and returns the entry of the backing store, [null] when it has none.
    Neither changes a map. *)
Theorem redis_get_hit_or_miss (key : string) (w : world) :
  draws_in_unit_interval w ->
  well_formed (networkJitterMs (simulationConfig w)) ->
  well_formed (redisLatencyMs (simulationConfig w)) ->
  let w' := world_after (redis_get key) w in
  (forall value, redisCache w !! key = Some value ->
     result_of (redis_get key) w = Some value
     /\ exists latency, timeouts w' = (timeouts w ++ [latency])%list
                        /\ within (networkJitterMs (simulationConfig w)) latency)
  /\ (redisCache w !! key = None ->
     result_of (redis_get key) w = redisStore w !! key
     /\ exists latency, timeouts w' = (timeouts w ++ [latency])%list
                        /\ within (redisLatencyMs (simulationConfig w)) latency)
  /\ redisCache w' = redisCache w /\ redisStore w' = redisStore w /\ dbStore w' = dbStore w.
Proof.
  intros Hdraws Hjitter Hlatency w'. subst w'.
  destruct (Hdraws (cursor w)) as [Hnonneg Hbelow].
  split; [|split].
  - intros value Hhit. unfold result_of, world_after.
    rewrite (redis_get_hit _ _ _ Hhit). split; [reflexivity|].
    eexists. split; [reflexivity|]. apply latency_in_range; assumption.
  - intros Hmiss. unfold result_of, world_after.
    rewrite (redis_get_miss _ _ Hmiss). split; [reflexivity|].
    eexists. split; [reflexivity|]. apply latency_in_range; assumption.
  - unfold world_after. destruct (redisCache w !! key) as [value|] eqn:Hlookup.
    + rewrite (redis_get_hit _ _ _ Hlookup). repeat split.
    + rewrite (redis_get_miss _ _ Hlookup). repeat split.
Qed.

Lemma redis_get_hit_or_miss_witness :
  result_of (redis_get "k") cached_world = Some "v"
  /\ exists latency,
       timeouts (world_after (redis_get "k") cached_world)
       = (timeouts cached_world ++ [latency])%list
       /\ within (networkJitterMs (simulationConfig cached_world)) latency.
Proof.
  assert (draws_in_unit_interval cached_world) as Hdraws.
  { intros n. vm_compute. split; [discriminate|reflexivity]. }
  destruct (redis_get_hit_or_miss "k" cached_world Hdraws)
    as (Hhit & _ & _); [vm_compute; discriminate|vm_compute; discriminate|].
  apply (Hhit "v"). vm_compute. reflexivity.
Defined.

Lemma redis_set_world (key value : string) (cached : bool) (w : world) :
  let w1 := world_after (simulateLatency (Range.min (redisLatencyMs (simulationConfig w)))
                                         (Range.max (redisLatencyMs (simulationConfig w)))) w in
  world_after (redis_set key value cached) w
  = log_call (RedisSet key value cached)
      (with_redisCache (if cached then insert key value else delete key)
         (with_redisStore (insert key value) w1)).
Proof.
  unfold world_after, redis_set, bind, gets, modify, ret. cbn.
  destruct cached; cbn; [reflexivity|].
  destruct (has (redisCache w) key) eqn:Hpresent; cbn; [reflexivity|].
  unfold has in Hpresent. apply bool_decide_eq_false in Hpresent.
  unfold with_redisCache, log_call. cbn.
  rewrite delete_id; [reflexivity|].
  destruct (redisCache w !! key) eqn:Hlookup; [|reflexivity].
  exfalso. apply Hpresent. eauto.
Qed.

Lemma redis_set_redisStore (key value : string) (cached : bool) (w : world) :
  redisStore (world_after (redis_set key value cached) w) = <[key:=value]> (redisStore w).
Proof. rewrite redis_set_world. reflexivity. Qed.

Lemma redis_set_redisCache (key value : string) (cached : bool) (w : world) :
  redisCache (world_after (redis_set key value cached) w)
  = if cached then <[key:=value]> (redisCache w) else delete key (redisCache w).
Proof. rewrite redis_set_world. destruct cached; reflexivity. Qed.

Lemma redis_get_maps (key : string) (w : world) :
  redisStore (world_after (redis_get key) w) = redisStore w
  /\ redisCache (world_after (redis_get key) w) = redisCache w.
Proof.
  unfold world_after. destruct (redisCache w !! key) as [value|] eqn:Hlookup.
  - rewrite (redis_get_hit _ _ _ Hlookup). split; reflexivity.
  - rewrite (redis_get_miss _ _ Hlookup). split; reflexivity.
Qed.

Lemma redis_del_maps (key : string) (w : world) :
  redisStore (world_after (redis_del key) w) = delete key (redisStore w)
  /\ redisCache (world_after (redis_del key) w) = delete key (redisCache w).
Proof. split; reflexivity. Qed.

Lemma redis_flushAll_maps (w : world) :
  redisStore (world_after redis_flushAll w) = ∅
  /\ redisCache (world_after redis_flushAll w) = ∅.
Proof. split; reflexivity. Qed.

Lemma redis_setCached_maps (key : string) (cached : bool) (w : world) :
  redisStore (world_after (redis_setCached key cached) w) = redisStore w
  /\ redisCache (world_after (redis_setCached key cached) w)
     = match redisStore w !! key with
       | None => redisCache w
       | Some value => if cached then <[key:=value]> (redisCache w)
                       else delete key (redisCache w)
       end.
Proof.
  unfold world_after, redis_setCached, bind, gets, jitter_latency. cbn.
  destruct (redisStore w !! key) as [value|]; [destruct cached|]; split; reflexivity.
Qed.

Lemma redis_exists_maps (key : string) (w : world) :
  redisStore (world_after (redis_exists key) w) = redisStore w
  /\ redisCache (world_after (redis_exists key) w) = redisCache w.
Proof. split; reflexivity. Qed.

Lemma redis_getCachedStatus_maps (key : string) (w : world) :
  redisStore (world_after (redis_getCachedStatus key) w) = redisStore w
  /\ redisCache (world_after (redis_getCachedStatus key) w) = redisCache w.
Proof.
  unfold world_after, redis_getCachedStatus, bind, gets, jitter_latency. cbn.
  destruct (has (redisStore w) key); split; reflexivity.
Qed.

Lemma cache_included_insert (key value : string) (store cache : gmap string string) :
  (forall k v, cache !! k = Some v -> store !! k = Some v) ->
  forall k v, <[key:=value]> cache !! k = Some v -> <[key:=value]> store !! k = Some v.
Proof.
  intros Hincl k v. rewrite !lookup_insert. case_decide; [tauto|]. apply Hincl.
Qed.

Lemma cache_included_delete_insert (key value : string) (store cache : gmap string string) :
  (forall k v, cache !! k = Some v -> store !! k = Some v) ->
  forall k v, delete key cache !! k = Some v -> <[key:=value]> store !! k = Some v.
Proof.
  intros Hincl k v. rewrite lookup_delete, lookup_insert.
  case_decide; [discriminate|]. apply Hincl.
Qed.

Lemma cache_included_delete (key : string) (store cache : gmap string string) :
  (forall k v, cache !! k = Some v -> store !! k = Some v) ->
  forall k v, delete key cache !! k = Some v -> delete key store !! k = Some v.
Proof.
  intros Hincl k v. rewrite !lookup_delete. case_decide; [discriminate|]. apply Hincl.
Qed.

Lemma world_after_then_ret {A} (m : M A) (w : world) :
  world_after (run m then ret tt) w = world_after m w.
Proof. rewrite world_after_bind. reflexivity. Qed.

Lemma perform_keeps_cache_included (op : redis_op) (w : world) :
  cache_included w -> cache_included (world_after (perform op) w).
Proof.
  unfold cache_included. intros Hincl.
  destruct op as [key value cached|key|key|key|key cached|key|]; cbn [perform];
    rewrite world_after_then_ret.
  - rewrite redis_set_redisStore, redis_set_redisCache. destruct cached.
    + apply cache_included_insert, Hincl.
    + apply cache_included_delete_insert, Hincl.
  - destruct (redis_get_maps key w) as [-> ->]. exact Hincl.
  - destruct (redis_exists_maps key w) as [-> ->]. exact Hincl.
  - destruct (redis_del_maps key w) as [-> ->]. apply cache_included_delete, Hincl.
  - destruct (redis_setCached_maps key cached w) as [-> ->].
    destruct (redisStore w !! key) as [value|] eqn:Hstored; [|exact Hincl].
    destruct cached.
    + intros k v. rewrite lookup_insert. case_decide; [|apply Hincl].
      subst k. intros [= <-]. exact Hstored.
    + intros k v. rewrite lookup_delete. case_decide; [discriminate|apply Hincl].
  - destruct (redis_getCachedStatus_maps key w) as [-> ->]. exact Hincl.
  - destruct (redis_flushAll_maps w) as [-> ->]. intros k v. rewrite lookup_empty. discriminate.
Qed.

Lemma perform_all_keeps_cache_included (ops : list redis_op) :
  forall w, cache_included w -> cache_included (world_after (perform_all ops) w).
Proof.
  induction ops as [|op rest IH]; intros w Hincl; [exact Hincl|].
  cbn [perform_all]. rewrite world_after_bind. apply IH.
  apply perform_keeps_cache_included, Hincl.
Qed.

(** C10. From the empty maps of a freshly loaded module, after any sequence
    of operations of the cached tier, every key of the hot cache is a key
    of the backing store with the same value.  Moreover a [set] that is not
    cacheable leaves its key out of the hot cache, and [del] and [flushAll]
    remove from both maps. *)
Theorem hot_cache_included_in_backing_store :
  (forall (rnd clk : nat -> Q) (ops : list redis_op),
     cache_included (world_after (perform_all ops) (fresh_world rnd clk)))
  /\ (forall key value w,
        redisCache (world_after (redis_set key value false) w) !! key = None)
  /\ (forall key w,
        redisStore (world_after (redis_del key) w) !! key = None
        /\ redisCache (world_after (redis_del key) w) !! key = None)
  /\ (forall w,
        redisStore (world_after redis_flushAll w) = ∅
        /\ redisCache (world_after redis_flushAll w) = ∅).
Proof.
  split; [|split; [|split]].
  - intros rnd clk ops. apply perform_all_keeps_cache_included.
    intros key value. cbn. rewrite lookup_empty. discriminate.
  - intros key value w. rewrite redis_set_redisCache. apply lookup_delete_eq.
  - intros key w. destruct (redis_del_maps key w) as [-> ->].
    split; apply lookup_delete_eq.
  - intros w. apply redis_flushAll_maps.
Qed.

(* ===================================================================== *)
(** ** What an operation leaves unchanged *)
(* ===================================================================== *)

Lemma unchanged_ret {X A} (f : world -> X) (a : A) : unchanged f (ret a).
Proof. intros w. reflexivity. Qed.

Lemma unchanged_bind {X A B} (f : world -> X) (m : M A) (k : A -> M B) :
  unchanged f m -> (forall a, unchanged f (k a)) -> unchanged f (bind m k).
Proof.
  intros Hm Hk w. rewrite world_after_bind, Hk. apply Hm.
Qed.

Lemma unchanged_gets {X A} (f : world -> X) (g : world -> A) : unchanged f (gets g).
Proof. intros w. reflexivity. Qed.

Lemma unchanged_for_loop {X} (f : world -> X) (body : nat -> M unit) :
  (forall i, unchanged f (body i)) ->
  forall trips start, unchanged f (for_loop trips start body).
Proof.
  intros Hbody trips. induction trips as [|n IH]; intros start; cbn [for_loop].
  - apply unchanged_ret.
  - apply unchanged_bind; [apply Hbody|]. intros _. apply IH.
Qed.

Lemma ambient_draw_blind {X} (f : world -> X) : ambient f -> draw_blind f.
Proof. intros (_ & _ & _ & Hdraw & _). exact Hdraw. Qed.

Lemma unchanged_Math_random {X} (f : world -> X) : draw_blind f -> unchanged f Math_random.
Proof. intros H w. apply H. Qed.

Lemma unchanged_generateValue_from {X} (f : world -> X) :
  draw_blind f -> forall trips result, unchanged f (generateValue_from trips result).
Proof.
  intros H trips. induction trips as [|n IH]; intros result; cbn [generateValue_from].
  - apply unchanged_ret.
  - apply unchanged_bind; [apply unchanged_Math_random, H|]. intros r. apply IH.
Qed.

Lemma unchanged_generateValue {X} (f : world -> X) (size : Z) :
  draw_blind f -> unchanged f (generateValue size).
Proof. intros H. apply unchanged_generateValue_from, H. Qed.

Lemma unchanged_mixed_key {X} (f : world -> X) (requests : Z) :
  draw_blind f -> unchanged f (mixed_key requests).
Proof.
  intros H. apply unchanged_bind; [apply unchanged_Math_random, H|].
  intros r. apply unchanged_ret.
Qed.

Lemma unchanged_simulateLatency {X} (f : world -> X) (lo hi : Q) :
  ambient f -> unchanged f (simulateLatency lo hi).
Proof.
  intros (_ & _ & _ & Hdraw & Htimeout & _) w.
  rewrite simulateLatency_world, Htimeout. apply Hdraw.
Qed.

Lemma unchanged_redis_set {X} (f : world -> X) (key value : string) (cached : bool) :
  ambient f -> unchanged f (redis_set key value cached).
Proof.
  intros Hf w. rewrite redis_set_world. cbv zeta.
  destruct Hf as (Hstore & Hdb & Hcache & Hdraw & Htimeout & Hcall).
  rewrite Hcall, Hcache, Hstore, simulateLatency_world, Htimeout. apply Hdraw.
Qed.

Lemma unchanged_redis_get {X} (f : world -> X) (key : string) :
  ambient f -> unchanged f (redis_get key).
Proof.
  intros Hf w. pose proof Hf as (Hstore & Hdb & Hcache & Hdraw & Htimeout & Hcall).
  unfold world_after. destruct (redisCache w !! key) as [value|] eqn:Hlookup.
  - rewrite (redis_get_hit _ _ _ Hlookup). cbn [snd]. rewrite Hcall.
    apply unchanged_simulateLatency, Hf.
  - rewrite (redis_get_miss _ _ Hlookup). cbn [snd]. rewrite Hcall.
    apply unchanged_simulateLatency, Hf.
Qed.

Lemma db_set_world (key value : string) (w : world) :
  world_after (db_set key value) w
  = log_call (DbSet key value)
      (with_dbStore (insert key value)
         (world_after (simulateLatency (Range.min (dbLatencyMs (simulationConfig w)))
                                       (Range.max (dbLatencyMs (simulationConfig w)))) w)).
Proof. reflexivity. Qed.

Lemma db_get_run (key : string) (w : world) :
  db_get key w
  = (dbStore w !! key,
     log_call (DbGet key (dbStore w !! key))
       (world_after (simulateLatency (Range.min (dbLatencyMs (simulationConfig w)))
                                     (Range.max (dbLatencyMs (simulationConfig w)))) w)).
Proof. reflexivity. Qed.

Lemma unchanged_db_set {X} (f : world -> X) (key value : string) :
  ambient f -> unchanged f (db_set key value).
Proof.
  intros Hf w. rewrite db_set_world.
  pose proof Hf as (Hstore & Hdb & Hcache & Hdraw & Htimeout & Hcall).
  rewrite Hcall, Hdb. apply unchanged_simulateLatency, Hf.
Qed.

Lemma unchanged_db_get {X} (f : world -> X) (key : string) :
  ambient f -> unchanged f (db_get key).
Proof.
  intros Hf w. unfold world_after. rewrite db_get_run. cbn [snd].
  pose proof Hf as (Hstore & Hdb & Hcache & Hdraw & Htimeout & Hcall).
  rewrite Hcall. apply unchanged_simulateLatency, Hf.
Qed.

Lemma unchanged_storage_write {X} (f : world -> X) storage p key value :
  ambient f -> unchanged f (storage_write storage p key value).
Proof.
  intros Hf. unfold storage_write. destruct (is_redis storage).
  - apply unchanged_bind; [apply unchanged_Math_random, ambient_draw_blind, Hf|].
    intros r. apply unchanged_bind; [apply unchanged_redis_set, Hf|].
    intros _. apply unchanged_ret.
  - apply unchanged_bind; [apply unchanged_db_set, Hf|]. intros _. apply unchanged_ret.
Qed.

Lemma unchanged_storage_read {X} (f : world -> X) storage key :
  ambient f -> unchanged f (storage_read storage key).
Proof.
  intros Hf. unfold storage_read. destruct (is_redis storage).
  - apply unchanged_bind; [apply unchanged_redis_get, Hf|]. intros _. apply unchanged_ret.
  - apply unchanged_bind; [apply unchanged_db_get, Hf|]. intros _. apply unchanged_ret.
Qed.

Lemma unchanged_write_trip {X} (f : world -> X) prefix storage p size i :
  ambient f ->
  unchanged f (let* value := generateValue size in
               storage_write storage p (prefix ++ template_nat i) value).
Proof.
  intros Hf. apply unchanged_bind.
  - apply unchanged_generateValue, ambient_draw_blind, Hf.
  - intros value. apply unchanged_storage_write, Hf.
Qed.

Lemma unchanged_isSetOp_of {X} (f : world -> X) setOps getOps share setCount getCount :
  draw_blind f -> unchanged f (isSetOp_of setOps getOps share setCount getCount).
Proof.
  intros Hf. unfold isSetOp_of.
  destruct (js_lt _ setOps); [|apply unchanged_ret].
  destruct (js_ge _ getOps); [apply unchanged_ret|].
  apply unchanged_bind; [apply unchanged_Math_random, Hf|]. intros r. apply unchanged_ret.
Qed.

Lemma unchanged_mixed_trip {X} (f : world -> X) storage p requests size
    setOps getOps share counts :
  ambient f ->
  unchanged f (mixed_trip storage p requests size setOps getOps share counts).
Proof.
  intros Hf. pose proof (ambient_draw_blind f Hf) as Hblind.
  unfold mixed_trip. destruct counts as [setCount getCount].
  apply unchanged_bind; [apply unchanged_isSetOp_of, Hblind|]. intros [|].
  - apply unchanged_bind; [apply unchanged_mixed_key, Hblind|]. intros key.
    apply unchanged_bind; [apply unchanged_generateValue, Hblind|]. intros value.
    apply unchanged_bind; [apply unchanged_storage_write, Hf|]. intros _.
    apply unchanged_ret.
  - apply unchanged_bind; [apply unchanged_mixed_key, Hblind|]. intros key.
    apply unchanged_bind; [apply unchanged_storage_read, Hf|]. intros _.
    apply unchanged_ret.
Qed.

Lemma unchanged_mixed_loop {X} (f : world -> X) storage p requests size setOps getOps share :
  ambient f ->
  forall trips counts,
    unchanged f (mixed_loop trips storage p requests size setOps getOps share counts).
Proof.
  intros Hf trips. induction trips as [|n IH]; intros counts; cbn [mixed_loop].
  - apply unchanged_ret.
  - apply unchanged_bind; [apply unchanged_mixed_trip, Hf|]. intros counts'. apply IH.
Qed.

Lemma unchanged_run_operations {X} (f : world -> X) type storage requests size
    setRatio getRatio p :
  ambient f ->
  unchanged f (run_operations type storage requests size setRatio getRatio p).
Proof.
  intros Hf. unfold run_operations.
  destruct (String.eqb type "set").
  { apply unchanged_for_loop. intros i. apply (unchanged_write_trip f "benchmark:"), Hf. }
  destruct (String.eqb type "get").
  { apply unchanged_bind.
    - apply unchanged_for_loop. intros i. apply (unchanged_write_trip f "benchmark:get:"), Hf.
    - intros _. apply unchanged_for_loop. intros i. apply unchanged_storage_read, Hf. }
  destruct (String.eqb type "mixed"); [|apply unchanged_ret].
  apply unchanged_bind.
  - apply unchanged_for_loop. intros i.
    apply (unchanged_write_trip f "benchmark:mixed:"), Hf.
  - intros _. apply unchanged_bind; [apply unchanged_mixed_loop, Hf|].
    intros counts. apply unchanged_ret.
Qed.

Lemma ambient_timeline : ambient timeline.
Proof. repeat split. Qed.

Lemma ambient_ticks : ambient ticks.
Proof. repeat split. Qed.

Lemma ambient_draws : ambient draws.
Proof. repeat split. Qed.

Lemma ambient_simulationConfig : ambient simulationConfig.
Proof. repeat split. Qed.

(* ===================================================================== *)
(** ** The shape of a run *)
(* ===================================================================== *)

Lemma runBenchmark_world (config : Config.t) (w : world) :
  world_after (runBenchmark config) w
  = next_draw (next_tick (world_after (operations_of config) (next_tick w))).
Proof.
  unfold world_after, runBenchmark, operations_of, type_of, storage_of, requests_of,
    size_of, ratio_of, cachedRatio_of.
  destruct (parse_ratio (default "1:1" (Config.ratio config))) as [setRatio getRatio].
  unfold bind, performance_now, Math_random, ret. cbn [fst snd].
  destruct (run_operations _ _ _ _ _ _ _ (next_tick w)) as [[] w1]. reflexivity.
Qed.

Lemma operations_of_clock (config : Config.t) (w : world) :
  timeline (world_after (operations_of config) w) = timeline w
  /\ ticks (world_after (operations_of config) w) = ticks w.
Proof.
  split.
  - apply (unchanged_run_operations timeline), ambient_timeline.
  - apply (unchanged_run_operations ticks), ambient_ticks.
Qed.

Lemma runBenchmark_result (config : Config.t) (w : world) :
  exists idDraw,
    result_of (runBenchmark config) w
    = Fulfilled
        {| Result.id := idDraw;
           Result.name := name_of config;
           Result.type := type_of config;
           Result.storage := storage_of config;
           Result.requests := requests_of config;
           Result.size := size_of config;
           Result.ratio := ratio_of config;
           Result.cachedRatio :=
             if is_redis (storage_of config) then cachedRatio_of config else "0:1";
           Result.opsPerSecond :=
             js_div (Fin (inject_Z (requests_of config)))
                    (Fin ((endTime_in w - startTime_in w) / 1000));
           Result.duration := Fin ((endTime_in w - startTime_in w) / 1000) |}.
Proof.
  destruct (operations_of_clock config (next_tick w)) as [Htimeline Hticks].
  revert Htimeline Hticks.
  unfold result_of, world_after, runBenchmark, operations_of, type_of, storage_of,
    requests_of, size_of, ratio_of, cachedRatio_of, name_of, endTime_in, startTime_in.
  destruct (parse_ratio (default "1:1" (Config.ratio config))) as [setRatio getRatio].
  unfold bind, performance_now, Math_random, ret. cbn [fst snd].
  destruct (run_operations _ _ _ _ _ _ _ (next_tick w)) as [[] w1]. cbn [fst snd].
  intros -> ->. eexists. reflexivity.
Qed.

Lemma is_redis_true (storage : string) : is_redis storage = true <-> storage = "redis".
Proof. apply String.eqb_eq. Qed.

Lemma is_redis_false (storage : string) : is_redis storage = false <-> storage <> "redis".
Proof. apply String.eqb_neq. Qed.

(** C8. The record a run returns repeats the request count and the payload
    size of its configuration, together with its name, type, storage and
    ratio; its [cachedRatio] is the one of the configuration on the cached
    tier and ['0:1'] on any other storage. *)
Theorem result_echoes_configuration (config : Config.t) (w : world) (n s : Z) :
  Config.requests config = Some n ->
  Config.size config = Some s ->
  exists r,
    result_of (runBenchmark config) w = Fulfilled r
    /\ Result.requests r = n
    /\ Result.size r = s
    /\ Result.name r = name_of config
    /\ Result.type r = type_of config
    /\ Result.storage r = storage_of config
    /\ Result.ratio r = ratio_of config
    /\ (storage_of config <> "redis" -> Result.cachedRatio r = "0:1")
    /\ (storage_of config = "redis" -> Result.cachedRatio r = cachedRatio_of config).
Proof.
  intros Hrequests Hsize.
  destruct (runBenchmark_result config w) as [idDraw Hresult].
  eexists. split; [exact Hresult|]. cbn.
  unfold requests_of, size_of. rewrite Hrequests, Hsize. cbn.
  repeat split.
  - intros Hother. apply is_redis_false in Hother. rewrite Hother. reflexivity.
  - intros Hredis. apply is_redis_true in Hredis. rewrite Hredis. reflexivity.
Qed.

Lemma result_echoes_configuration_witness :
  exists r,
    result_of (runBenchmark (configuration "get" "db" 100 3 "1:1" "1:0")) sample_world
    = Fulfilled r
    /\ Result.requests r = 100
    /\ Result.size r = 3
    /\ Result.cachedRatio r = "0:1".
Proof.
  destruct (result_echoes_configuration
              (configuration "get" "db" 100 3 "1:1" "1:0") sample_world 100 3
              eq_refl eq_refl)
    as (r & Hr & Hrequests & Hsize & _ & _ & _ & _ & Hforced & _).
  exists r. repeat split; try assumption.
  apply Hforced. vm_compute. discriminate.
Defined.

(* ===================================================================== *)
(** ** Throughput *)
(* ===================================================================== *)

Lemma valid_positive_requests (config : Config.t) :
  valid config -> (0 < inject_Z (requests_of config))%Q.
Proof.
  intros (_ & _ & Hrequests & _).
  change 0%Q with (inject_Z 0). rewrite <- Zlt_Qlt. exact Hrequests.
Qed.

(** C2, as the code has it.  For a valid configuration the reported
    [opsPerSecond] is the request count divided by the measured duration
    in seconds, a finite positive number, whenever the second clock reading
    is later than the first; when the two readings coincide nothing is
    clamped and [opsPerSecond] is [Infinity]. *)
Theorem opsPerSecond_of_measured_duration (config : Config.t) (w : world) :
  valid config ->
  exists r,
    result_of (runBenchmark config) w = Fulfilled r
    /\ Result.duration r = Fin ((endTime_in w - startTime_in w) / 1000)
    /\ ((startTime_in w < endTime_in w)%Q ->
        exists q, Result.opsPerSecond r = Fin q
                  /\ (q == inject_Z (requests_of config)
                           / ((endTime_in w - startTime_in w) / 1000))%Q
                  /\ (0 < q)%Q)
    /\ ((startTime_in w == endTime_in w)%Q -> Result.opsPerSecond r = PosInf).
Proof.
  intros Hvalid. pose proof (valid_positive_requests config Hvalid) as Hrequests.
  destruct (runBenchmark_result config w) as [idDraw Hresult].
  eexists. split; [exact Hresult|]. cbn [Result.duration Result.opsPerSecond].
  split; [reflexivity|]. unfold js_div.
  set (seconds := ((endTime_in w - startTime_in w) / 1000)%Q).
  split.
  - intros Hlater.
    assert (0 < seconds)%Q as Hseconds.
    { unfold seconds. apply Qlt_shift_div_l; [reflexivity|]. lra. }
    destruct (Qeqb seconds 0) eqn:Hzero.
    + apply Qeqb_eq in Hzero. lra.
    + eexists. split; [reflexivity|]. split; [reflexivity|].
      apply Qlt_shift_div_l; [exact Hseconds|]. lra.
  - intros Hsame.
    assert (seconds == 0)%Q as Hseconds.
    { unfold seconds. rewrite Hsame. field. }
    apply Qeqb_eq in Hseconds. rewrite Hseconds.
    unfold js_scale_inf.
    destruct (Qeqb (inject_Z (requests_of config)) 0) eqn:Hnone.
    + apply Qeqb_eq in Hnone. lra.
    + apply Qltb_lt in Hrequests. rewrite Hrequests. reflexivity.
Qed.

Lemma valid_set_on_redis : valid (configuration "set" "redis" 1 3 "1:1" "1:1").
Proof.
  unfold valid, known_type. cbn.
  repeat split; try reflexivity; try discriminate; try lia; auto.
Qed.

Lemma opsPerSecond_of_measured_duration_witness :
  exists r,
    result_of (runBenchmark (configuration "set" "redis" 1 3 "1:1" "1:1")) sample_world
    = Fulfilled r
    /\ exists q, Result.opsPerSecond r = Fin q /\ (0 < q)%Q.
Proof.
  destruct (opsPerSecond_of_measured_duration
              (configuration "set" "redis" 1 3 "1:1" "1:1") sample_world
              valid_set_on_redis)
    as (r & Hr & _ & Hpositive & _).
  exists r. split; [exact Hr|].
  destruct Hpositive as (q & Hq & _ & Hpos); [reflexivity|].
  exists q. split; assumption.
Defined.

(** C2, as the specification states it, fails: a valid one-request run
    whose two clock readings coincide has a measured duration of zero, which
    is not negative, and reports [Infinity]. *)
Lemma opsPerSecond_not_clamped :
  valid (configuration "set" "redis" 1 3 "1:1" "1:1")
  /\ (startTime_in frozen_world <= endTime_in frozen_world)%Q
  /\ exists r,
       result_of (runBenchmark (configuration "set" "redis" 1 3 "1:1" "1:1")) frozen_world
       = Fulfilled r
       /\ Result.opsPerSecond r = PosInf
       /\ ~ finite_nonneg (Result.opsPerSecond r).
Proof.
  split; [exact valid_set_on_redis|]. split; [vm_compute; discriminate|].
  eexists. split; [vm_compute; reflexivity|]. cbn. split; [reflexivity|tauto].
Qed.

(* ===================================================================== *)
(** ** Configurations the specification calls invalid *)
(* ===================================================================== *)

Lemma half_as_number (requests : Z) :
  js_div (Fin (inject_Z requests)) (Fin 2) = Fin (inject_Z requests / 2).
Proof. reflexivity. Qed.

Lemma prepopulate_bound_not_PosInf (setRatio getRatio : jsnum) (requests : Z) :
  prepopulate_bound setRatio getRatio requests <> PosInf.
Proof.
  unfold prepopulate_bound. rewrite half_as_number.
  destruct (getOps_of setRatio getRatio requests) as [x| | |]; cbn; try discriminate.
  destruct (Qle_bool x (inject_Z requests / 2)); discriminate.
Qed.

Lemma loop_trips_nonpositive (x : Q) : (x <= 0)%Q -> loop_trips (Fin x) = O.
Proof.
  intros Hx. cbn. apply Qceiling_resp_le in Hx.
  change 0%Q with (inject_Z 0) in Hx. rewrite Qceiling_Z in Hx. lia.
Qed.

Lemma no_prepopulation_without_requests (setRatio getRatio : jsnum) (requests : Z) :
  requests <= 0 -> loop_trips (prepopulate_bound setRatio getRatio requests) = O.
Proof.
  intros Hrequests. unfold prepopulate_bound. rewrite half_as_number.
  assert (inject_Z requests / 2 <= 0)%Q as Hhalf.
  { apply Qle_shift_div_r; [reflexivity|]. rewrite Qmult_0_l.
    change 0%Q with (inject_Z 0). rewrite <- Zle_Qle. exact Hrequests. }
  destruct (getOps_of setRatio getRatio requests) as [x| | |]; cbn [Math_min];
    try reflexivity; [|apply loop_trips_nonpositive, Hhalf].
  destruct (Qle_bool x (inject_Z requests / 2)) eqn:Hle.
  - apply Qle_bool_iff in Hle. apply loop_trips_nonpositive. lra.
  - apply loop_trips_nonpositive, Hhalf.
Qed.

Lemma run_operations_unknown_type type storage requests size setRatio getRatio p :
  ~ known_type type ->
  run_operations type storage requests size setRatio getRatio p = ret tt.
Proof.
  intros Hunknown. unfold run_operations.
  destruct (String.eqb type "set") eqn:Hset.
  { apply String.eqb_eq in Hset. exfalso. apply Hunknown. right. left. exact Hset. }
  destruct (String.eqb type "get") eqn:Hget.
  { apply String.eqb_eq in Hget. exfalso. apply Hunknown. left. exact Hget. }
  destruct (String.eqb type "mixed") eqn:Hmixed; [|reflexivity].
  apply String.eqb_eq in Hmixed. exfalso. apply Hunknown. right. right. exact Hmixed.
Qed.

Lemma run_operations_without_requests type storage requests size setRatio getRatio p w :
  requests <= 0 ->
  run_operations type storage requests size setRatio getRatio p w = (tt, w).
Proof.
  intros Hrequests. unfold run_operations.
  rewrite (no_prepopulation_without_requests _ _ _ Hrequests).
  replace (Z.to_nat requests) with O by lia.
  destruct (String.eqb type "set"); [reflexivity|].
  destruct (String.eqb type "get"); [reflexivity|].
  destruct (String.eqb type "mixed"); reflexivity.
Qed.

Lemma generateValue_without_size (size : Z) (w : world) :
  size <= 0 -> generateValue size w = (EmptyString, w).
Proof.
  intros Hsize. unfold generateValue. replace (Z.to_nat size) with O by lia. reflexivity.
Qed.

Lemma cachedProbability_both_zero (cachedRatio : string) :
  both_zero (parse_ratio cachedRatio) ->
  exists q, cachedProbability_of cachedRatio = Fin q /\ (q == 0)%Q.
Proof.
  unfold cachedProbability_of.
  destruct (parse_ratio cachedRatio) as [[a| | |] [b| | |]]; cbn [both_zero]; try tauto.
  intros [Ha Hb]. unfold add64, div64. cbn [js_add binary64].
  rewrite (round64_zero (a + b)) by lra. unfold js_or, js_truthy.
  replace (Qeqb 0 0) with true by reflexivity. cbn [negb js_div].
  replace (Qeqb 1 0) with false by reflexivity. cbn [binary64].
  rewrite (round64_zero (a / 1)) by (rewrite Ha; reflexivity).
  eexists. split; reflexivity.
Qed.

Lemma set_share_both_zero (setRatio getRatio : jsnum) :
  both_zero (setRatio, getRatio) -> set_share setRatio getRatio = NaN.
Proof.
  destruct setRatio as [a| | |], getRatio as [b| | |]; cbn [both_zero]; try tauto.
  intros [Ha Hb]. unfold set_share, add64, div64. cbn [js_add binary64].
  rewrite (round64_zero (a + b)) by lra. cbn [js_div].
  replace (Qeqb 0 0) with true by reflexivity. unfold js_scale_inf.
  apply Qeqb_eq in Ha. rewrite Ha. reflexivity.
Qed.

(** C1, as the code has it.  [runBenchmark] validates nothing: on every
    configuration its promise is fulfilled with a result record.  When the
    type is none of ['get'], ['set'], ['mixed'], or the request count is not
    positive, no tier receives a call and the three maps are unchanged.  A
    payload size that is not positive makes every generated value the
    empty string; a both-zero [cachedRatio] gives the cache probability 0;
    a both-zero [ratio] gives the share [NaN], hence [NaN] quotas and no
    pre-population. *)
Theorem runBenchmark_validates_nothing (config : Config.t) (w : world) :
  let w' := world_after (runBenchmark config) w in
  (exists r, result_of (runBenchmark config) w = Fulfilled r)
  /\ (~ known_type (type_of config) \/ requests_of config <= 0 ->
      calls w' = calls w /\ same_maps w w')
  /\ (size_of config <= 0 ->
      forall w0, generateValue (size_of config) w0 = (EmptyString, w0))
  /\ (both_zero (parse_ratio (cachedRatio_of config)) ->
      exists q, cachedProbability_of (cachedRatio_of config) = Fin q /\ (q == 0)%Q)
  /\ (both_zero (parse_ratio (ratio_of config)) ->
      let (setRatio, getRatio) := parse_ratio (ratio_of config) in
      setOps_of setRatio getRatio (requests_of config) = NaN
      /\ getOps_of setRatio getRatio (requests_of config) = NaN
      /\ loop_trips (prepopulate_bound setRatio getRatio (requests_of config)) = O).
Proof.
  intros w'. subst w'. split; [|split; [|split; [|split]]].
  - destruct (runBenchmark_result config w) as [idDraw Hresult]. eauto.
  - intros Hnothing. rewrite runBenchmark_world.
    assert (world_after (operations_of config) (next_tick w) = next_tick w) as ->.
    { unfold world_after, operations_of. destruct Hnothing as [Hunknown|Hrequests].
      - rewrite (run_operations_unknown_type _ _ _ _ _ _ _ Hunknown). reflexivity.
      - rewrite (run_operations_without_requests _ _ _ _ _ _ _ _ Hrequests). reflexivity. }
    repeat split.
  - intros Hsize w0. apply generateValue_without_size, Hsize.
  - apply cachedProbability_both_zero.
  - destruct (parse_ratio (ratio_of config)) as [setRatio getRatio]. intros Hzero.
    unfold prepopulate_bound, getOps_of, setOps_of.
    rewrite (set_share_both_zero _ _ Hzero). repeat split.
Qed.

Lemma runBenchmark_validates_nothing_witness :
  (exists r,
     result_of (runBenchmark (configuration "delete" "redis" 10 3 "1:1" "0:0")) sample_world
     = Fulfilled r)
  /\ calls (world_after (runBenchmark (configuration "delete" "redis" 10 3 "1:1" "0:0"))
              sample_world) = []
  /\ exists q, cachedProbability_of "0:0" = Fin q /\ (q == 0)%Q.
Proof.
  destruct (runBenchmark_validates_nothing
              (configuration "delete" "redis" 10 3 "1:1" "0:0") sample_world)
    as (Hfulfilled & Hnothing & _ & Hcached & _).
  split; [exact Hfulfilled|]. split.
  - apply Hnothing. left. unfold known_type. vm_compute. intuition discriminate.
  - apply Hcached. vm_compute. split; reflexivity.
Defined.

(** C1, as the specification states it, fails: a [set] run with a payload
    size of zero is not rejected; it is fulfilled with a result record after
    writing the empty string under ["benchmark:0"]. *)
Lemma invalid_configuration_not_rejected :
  invalid (configuration "set" "redis" 1 0 "1:1" "1:1")
  /\ (exists r,
        result_of (runBenchmark (configuration "set" "redis" 1 0 "1:1" "1:1")) sample_world
        = Fulfilled r)
  /\ calls (world_after (runBenchmark (configuration "set" "redis" 1 0 "1:1" "1:1"))
              sample_world) = [RedisSet "benchmark:0" "" false]
  /\ ~ fails_fast (configuration "set" "redis" 1 0 "1:1" "1:1") sample_world.
Proof.
  assert (exists r,
            result_of (runBenchmark (configuration "set" "redis" 1 0 "1:1" "1:1"))
              sample_world = Fulfilled r) as Hfulfilled.
  { eexists. vm_compute. reflexivity. }
  split; [right; right; left; vm_compute; discriminate|].
  split; [exact Hfulfilled|]. split; [vm_compute; reflexivity|].
  intros [[reason Hrejected] _]. destruct Hfulfilled as [r Hr]. congruence.
Qed.

(* ===================================================================== *)
(** ** The calls a run issues *)
(* ===================================================================== *)

Lemma set_trip_keyed : set_trip = keyed_write "benchmark:".
Proof. reflexivity. Qed.

Lemma populate_trip_keyed : populate_trip = keyed_write "benchmark:get:".
Proof. reflexivity. Qed.

Lemma prepopulate_trip_keyed : prepopulate_trip = keyed_write "benchmark:mixed:".
Proof. reflexivity. Qed.

Lemma storage_write_calls storage p key value (w : world) :
  calls (world_after (storage_write storage p key value) w)
  = (calls w
     ++ [if is_redis storage
         then RedisSet key value (js_lt (Fin (draws w (cursor w))) p)
         else DbSet key value])%list.
Proof.
  unfold storage_write. destruct (is_redis storage).
  - rewrite world_after_bind, world_after_then_ret, redis_set_world. reflexivity.
  - rewrite world_after_then_ret, db_set_world. reflexivity.
Qed.

Lemma storage_write_tier_store storage p key value (w : world) :
  tier_store storage (world_after (storage_write storage p key value) w)
  = <[key:=value]> (tier_store storage w).
Proof.
  unfold storage_write, tier_store. destruct (is_redis storage).
  - rewrite world_after_bind, world_after_then_ret, redis_set_redisStore. reflexivity.
  - rewrite world_after_then_ret, db_set_world. reflexivity.
Qed.

Lemma draw_blind_calls : draw_blind calls.
Proof. intros w. reflexivity. Qed.

Lemma draw_blind_tier_store (storage : string) : draw_blind (tier_store storage).
Proof. intros w. unfold tier_store. destruct (is_redis storage); reflexivity. Qed.

Lemma keyed_write_calls prefix storage p size i (w : world) :
  exists c,
    calls (world_after (keyed_write prefix storage p size i) w) = (calls w ++ [c])%list
    /\ is_set c = true
    /\ call_key c = prefix ++ template_nat i
    /\ (is_redis storage = true ->
        exists value r, c = RedisSet (prefix ++ template_nat i) value (js_lt (Fin r) p)
                        /\ exists n, r = draws w n).
Proof.
  unfold keyed_write. rewrite world_after_bind, storage_write_calls.
  rewrite (unchanged_generateValue calls size draw_blind_calls).
  rewrite (unchanged_generateValue draws size (ambient_draw_blind _ ambient_draws)).
  eexists. split; [reflexivity|].
  destruct (is_redis storage); repeat split; try discriminate.
  intros _. eauto.
Qed.

Lemma keyed_write_tier_store prefix storage p size i (w : world) :
  exists value,
    tier_store storage (world_after (keyed_write prefix storage p size i) w)
    = <[prefix ++ template_nat i := value]> (tier_store storage w).
Proof.
  unfold keyed_write. rewrite world_after_bind, storage_write_tier_store.
  rewrite (unchanged_generateValue (tier_store storage) size (draw_blind_tier_store storage)).
  eauto.
Qed.

Lemma keyed_write_loop_calls prefix storage p size :
  forall trips start w,
    let w' := world_after (for_loop trips start (keyed_write prefix storage p size)) w in
    exists sets,
      calls w' = (calls w ++ sets)%list
      /\ map call_key sets = keys_from prefix start trips
      /\ Forall (fun c => is_set c = true) sets
      /\ (forall key, is_Some (tier_store storage w !! key) ->
                      is_Some (tier_store storage w' !! key))
      /\ (forall key, In key (keys_from prefix start trips) ->
                      is_Some (tier_store storage w' !! key)).
Proof.
  induction trips as [|n IH]; intros start w; cbn zeta.
  - exists []. cbn. rewrite app_nil_r. repeat split; auto. intros key [].
  - cbn [for_loop]. rewrite world_after_bind.
    set (w1 := world_after (keyed_write prefix storage p size start) w).
    destruct (keyed_write_calls prefix storage p size start w) as (c & Hc & Hset & Hkey & _).
    destruct (keyed_write_tier_store prefix storage p size start w) as (value & Hstore).
    fold w1 in Hc, Hstore.
    destruct (IH (S start) w1) as (sets & Hcalls & Hkeys & Hsets & Hkept & Hnew).
    exists (c :: sets). split; [|split; [|split; [|split]]].
    + rewrite Hcalls, Hc, <- app_assoc. reflexivity.
    + unfold keys_from in *. cbn. rewrite Hkey, Hkeys. reflexivity.
    + constructor; assumption.
    + intros key Hsome. apply Hkept. rewrite Hstore.
      apply lookup_insert_is_Some. destruct (decide (prefix ++ template_nat start = key)); auto.
    + intros key [Hhere|Hlater].
      * apply Hkept. rewrite Hstore, <- Hhere. rewrite lookup_insert_eq. eauto.
      * apply Hnew. exact Hlater.
Qed.

Lemma redis_get_found (key : string) (w : world) :
  is_Some (redisStore w !! key) ->
  exists value, result_of (redis_get key) w = Some value.
Proof.
  intros [stored Hstored]. unfold result_of.
  destruct (redisCache w !! key) as [value|] eqn:Hlookup.
  - rewrite (redis_get_hit _ _ _ Hlookup). eauto.
  - rewrite (redis_get_miss _ _ Hlookup). eauto.
Qed.

Lemma redis_get_calls (key : string) (w : world) :
  calls (world_after (redis_get key) w)
  = (calls w ++ [RedisGet key (result_of (redis_get key) w)])%list.
Proof.
  unfold result_of, world_after.
  destruct (redisCache w !! key) as [value|] eqn:Hlookup.
  - rewrite (redis_get_hit _ _ _ Hlookup). reflexivity.
  - rewrite (redis_get_miss _ _ Hlookup). reflexivity.
Qed.

Lemma storage_read_calls storage key (w : world) :
  exists c,
    calls (world_after (storage_read storage key) w) = (calls w ++ [c])%list
    /\ is_get c = true
    /\ call_key c = key
    /\ (is_Some (tier_store storage w !! key) -> is_found_get c = true).
Proof.
  unfold storage_read, tier_store. destruct (is_redis storage).
  - rewrite world_after_then_ret, redis_get_calls. eexists. split; [reflexivity|].
    repeat split. intros Hstored.
    destruct (redis_get_found key w Hstored) as [value ->]. reflexivity.
  - rewrite world_after_then_ret. unfold world_after. rewrite db_get_run. cbn [snd].
    eexists. split; [reflexivity|]. repeat split.
    intros [value ->]. reflexivity.
Qed.

Lemma storage_read_tier_store storage key (w : world) :
  tier_store storage (world_after (storage_read storage key) w) = tier_store storage w.
Proof.
  unfold storage_read, tier_store. destruct (is_redis storage); rewrite world_after_then_ret.
  - apply redis_get_maps.
  - reflexivity.
Qed.

Lemma read_loop_calls storage :
  forall trips start w,
    let w' := world_after (for_loop trips start (read_trip storage)) w in
    exists gets,
      calls w' = (calls w ++ gets)%list
      /\ map call_key gets = keys_from "benchmark:get:" start trips
      /\ Forall (fun c => is_get c = true) gets
      /\ ((forall key, In key (keys_from "benchmark:get:" start trips) ->
                       is_Some (tier_store storage w !! key)) ->
          Forall (fun c => is_found_get c = true) gets).
Proof.
  induction trips as [|n IH]; intros start w; cbn zeta.
  - exists []. cbn. rewrite app_nil_r. repeat split; auto.
  - cbn [for_loop]. rewrite world_after_bind.
    set (w1 := world_after (read_trip storage start) w).
    destruct (storage_read_calls storage ("benchmark:get:" ++ template_nat start) w)
      as (c & Hc & Hget & Hkey & Hfound).
    pose proof (storage_read_tier_store storage ("benchmark:get:" ++ template_nat start) w)
      as Hstore.
    change (world_after (storage_read storage ("benchmark:get:" ++ template_nat start)) w)
      with w1 in Hc, Hstore.
    destruct (IH (S start) w1) as (gets & Hcalls & Hkeys & Hgets & Hall).
    exists (c :: gets). split; [|split; [|split]].
    + rewrite Hcalls, Hc, <- app_assoc. reflexivity.
    + unfold keys_from in *. cbn. rewrite Hkey, Hkeys. reflexivity.
    + constructor; assumption.
    + intros Hstored. constructor.
      * apply Hfound, Hstored. left. reflexivity.
      * apply Hall. intros key Hin. rewrite Hstore. apply Hstored. right. exact Hin.
Qed.

Lemma keys_from_length prefix start trips : length (keys_from prefix start trips) = trips.
Proof. unfold keys_from. rewrite length_map, length_seq. reflexivity. Qed.

Lemma runBenchmark_calls (config : Config.t) (w : world) :
  calls (world_after (runBenchmark config) w)
  = calls (world_after (operations_of config) (next_tick w)).
Proof. rewrite runBenchmark_world. reflexivity. Qed.

Lemma set_run_calls (config : Config.t) (w : world) :
  type_of config = "set" ->
  exists sets,
    calls (world_after (runBenchmark config) w) = (calls w ++ sets)%list
    /\ map call_key sets = keys_from "benchmark:" 0 (Z.to_nat (requests_of config))
    /\ Forall (fun c => is_set c = true) sets.
Proof.
  intros Htype. rewrite runBenchmark_calls. unfold operations_of, run_operations.
  rewrite Htype. cbn [String.eqb Ascii.eqb Bool.eqb].
  destruct (keyed_write_loop_calls "benchmark:" (storage_of config)
              (cachedProbability_of (cachedRatio_of config)) (size_of config)
              (Z.to_nat (requests_of config)) O (next_tick w))
    as (sets & Hcalls & Hkeys & Hsets & _).
  exists sets. repeat split; assumption.
Qed.

Lemma get_run_calls (config : Config.t) (w : world) :
  type_of config = "get" ->
  exists sets gets,
    calls (world_after (runBenchmark config) w) = (calls w ++ sets ++ gets)%list
    /\ map call_key sets = keys_from "benchmark:get:" 0 (Z.to_nat (requests_of config))
    /\ Forall (fun c => is_set c = true) sets
    /\ map call_key gets = keys_from "benchmark:get:" 0 (Z.to_nat (requests_of config))
    /\ Forall (fun c => is_get c = true) gets
    /\ Forall (fun c => is_found_get c = true) gets.
Proof.
  intros Htype. rewrite runBenchmark_calls. unfold operations_of, run_operations.
  rewrite Htype. cbn [String.eqb Ascii.eqb Bool.eqb]. rewrite world_after_bind.
  destruct (keyed_write_loop_calls "benchmark:get:" (storage_of config)
              (cachedProbability_of (cachedRatio_of config)) (size_of config)
              (Z.to_nat (requests_of config)) O (next_tick w))
    as (sets & Hcalls & Hkeys & Hsets & _ & Hstored).
  cbv zeta in Hcalls, Hstored.
  change (keyed_write "benchmark:get:" (storage_of config)
            (cachedProbability_of (cachedRatio_of config)) (size_of config))
    with (populate_trip (storage_of config)
            (cachedProbability_of (cachedRatio_of config)) (size_of config))
    in Hcalls, Hstored.
  set (w1 := world_after (for_loop (Z.to_nat (requests_of config)) 0
                            (populate_trip (storage_of config)
                               (cachedProbability_of (cachedRatio_of config))
                               (size_of config))) (next_tick w)) in *.
  destruct (read_loop_calls (storage_of config) (Z.to_nat (requests_of config)) O w1)
    as (gets & Hcalls' & Hkeys' & Hgets & Hfound).
  exists sets, gets. split; [|repeat split; auto].
  cbv zeta in Hcalls'. rewrite Hcalls', Hcalls, <- app_assoc. reflexivity.
Qed.

(** C4. A ['get'] run with request count [N] issues, in this order, [N]
    writes and then [N] reads and nothing else; the reads go through the
    keys of the writes in the same order, and every read comes back with a
    value, none with [null]. *)
Theorem get_run_populates_then_reads (config : Config.t) (w : world) :
  type_of config = "get" ->
  exists sets gets,
    calls (world_after (runBenchmark config) w) = (calls w ++ sets ++ gets)%list
    /\ length sets = Z.to_nat (requests_of config)
    /\ length gets = Z.to_nat (requests_of config)
    /\ Forall (fun c => is_set c = true) sets
    /\ Forall (fun c => is_get c = true) gets
    /\ map call_key gets = map call_key sets
    /\ Forall (fun c => is_found_get c = true) gets.
Proof.
  intros Htype.
  destruct (get_run_calls config w Htype)
    as (sets & gets & Hcalls & Hwritten & Hsets & Hread & Hgets & Hfound).
  exists sets, gets. split; [exact Hcalls|].
  split. { rewrite <- (length_map call_key), Hwritten. apply keys_from_length. }
  split. { rewrite <- (length_map call_key), Hread. apply keys_from_length. }
  repeat split; try assumption. congruence.
Qed.

Lemma get_run_populates_then_reads_witness :
  exists sets gets,
    calls (world_after (runBenchmark (configuration "get" "redis" 100 3 "1:1" "1:0"))
             sample_world) = ([] ++ sets ++ gets)%list
    /\ length sets = 100%nat
    /\ length gets = 100%nat
    /\ map call_key gets = map call_key sets
    /\ Forall (fun c => is_found_get c = true) gets.
Proof.
  destruct (get_run_populates_then_reads
              (configuration "get" "redis" 100 3 "1:1" "1:0") sample_world eq_refl)
    as (sets & gets & Hcalls & Hsets & Hgets & _ & _ & Hkeys & Hfound).
  exists sets, gets. repeat split; assumption.
Defined.

(** C7, as the code has it.  A ['set'] run with request count [N] writes
    under the keys ["benchmark:0"], ..., ["benchmark:N-1"], in this order;
    the population phase of a ['get'] run writes under the keys
    ["benchmark:get:0"], ..., ["benchmark:get:N-1"], in this order. *)
Theorem benchmark_key_schemes (config : Config.t) (w : world) :
  (type_of config = "set" ->
   exists sets,
     calls (world_after (runBenchmark config) w) = (calls w ++ sets)%list
     /\ Forall (fun c => is_set c = true) sets
     /\ map call_key sets
        = map (fun i => "benchmark:" ++ template_nat i)
              (seq 0 (Z.to_nat (requests_of config))))
  /\ (type_of config = "get" ->
      exists sets gets,
        calls (world_after (runBenchmark config) w) = (calls w ++ sets ++ gets)%list
        /\ Forall (fun c => is_set c = true) sets
        /\ Forall (fun c => is_get c = true) gets
        /\ map call_key sets
           = map (fun i => "benchmark:get:" ++ template_nat i)
                 (seq 0 (Z.to_nat (requests_of config)))).
Proof.
  split; intros Htype.
  - destruct (set_run_calls config w Htype) as (sets & Hcalls & Hkeys & Hsets).
    exists sets. repeat split; assumption.
  - destruct (get_run_calls config w Htype)
      as (sets & gets & Hcalls & Hwritten & Hsets & _ & Hgets & _).
    exists sets, gets. repeat split; assumption.
Qed.

Lemma benchmark_key_schemes_witness :
  exists sets,
    calls (world_after (runBenchmark (configuration "set" "db" 3 3 "1:1" "1:0"))
             sample_world) = ([] ++ sets)%list
    /\ map call_key sets = ["benchmark:0"; "benchmark:1"; "benchmark:2"].
Proof.
  destruct (benchmark_key_schemes (configuration "set" "db" 3 3 "1:1" "1:0") sample_world)
    as [Hset _].
  destruct (Hset eq_refl) as (sets & Hcalls & _ & Hkeys).
  exists sets. split; [exact Hcalls|]. rewrite Hkeys. vm_compute. reflexivity.
Defined.

(** C7, as the specification states it, fails: the first write of a ['get']
    run goes to ["benchmark:get:0"], not to the key ["benchmark:0"] of the
    first write of a ['set'] run. *)
Lemma get_population_has_its_own_keys :
  exists c rest,
    calls (world_after (runBenchmark (configuration "get" "db" 1 3 "1:1" "1:0"))
             sample_world) = c :: rest
    /\ is_set c = true
    /\ call_key c = "benchmark:get:0"
    /\ call_key c <> "benchmark:" ++ template_nat 0.
Proof.
  eexists. eexists. split; [vm_compute; reflexivity|].
  split; [reflexivity|]. split; [reflexivity|]. vm_compute. discriminate.
Qed.

(* ===================================================================== *)
(** ** Cacheability of the writes *)
(* ===================================================================== *)

Lemma draws_in_unit_interval_transport (w w' : world) :
  draws w' = draws w -> draws_in_unit_interval w -> draws_in_unit_interval w'.
Proof. unfold draws_in_unit_interval. intros ->. auto. Qed.

Lemma emits_only_ret {A} (P : call -> Prop) (a : A) : emits_only P (ret a).
Proof.
  intros w _. split; [reflexivity|]. exists []. split; [|constructor].
  cbn. rewrite app_nil_r. reflexivity.
Qed.

Lemma emits_only_bind {A B} (P : call -> Prop) (m : M A) (k : A -> M B) :
  emits_only P m -> (forall a, emits_only P (k a)) -> emits_only P (bind m k).
Proof.
  intros Hm Hk w Hw. rewrite world_after_bind.
  destruct (Hm w Hw) as (Hdraws & log & Hlog & HP).
  destruct (Hk (result_of m w) (world_after m w)
              (draws_in_unit_interval_transport _ _ Hdraws Hw))
    as (Hdraws' & log' & Hlog' & HP').
  split; [congruence|]. exists (log ++ log')%list.
  split; [rewrite Hlog', Hlog, app_assoc; reflexivity|].
  apply Forall_app; split; assumption.
Qed.

Lemma emits_only_silent {A} (P : call -> Prop) (m : M A) :
  unchanged draws m -> unchanged calls m -> emits_only P m.
Proof.
  intros Hdraws Hcalls w _. split; [apply Hdraws|].
  exists []. split; [|constructor]. rewrite Hcalls, app_nil_r. reflexivity.
Qed.

Lemma emits_only_for_loop (P : call -> Prop) (body : nat -> M unit) :
  (forall i, emits_only P (body i)) ->
  forall trips start, emits_only P (for_loop trips start body).
Proof.
  intros Hbody trips. induction trips as [|n IH]; intros start; cbn [for_loop].
  - apply emits_only_ret.
  - apply emits_only_bind; [apply Hbody|]. intros _. apply IH.
Qed.

Lemma emits_only_generateValue (P : call -> Prop) (size : Z) :
  emits_only P (generateValue size).
Proof.
  apply emits_only_silent; apply unchanged_generateValue.
  - apply ambient_draw_blind, ambient_draws.
  - apply draw_blind_calls.
Qed.

Lemma emits_only_mixed_key (P : call -> Prop) (requests : Z) :
  emits_only P (mixed_key requests).
Proof.
  apply emits_only_silent; apply unchanged_mixed_key.
  - apply ambient_draw_blind, ambient_draws.
  - apply draw_blind_calls.
Qed.

Lemma emits_only_isSetOp_of (P : call -> Prop) setOps getOps share setCount getCount :
  emits_only P (isSetOp_of setOps getOps share setCount getCount).
Proof.
  apply emits_only_silent; apply unchanged_isSetOp_of.
  - apply ambient_draw_blind, ambient_draws.
  - apply draw_blind_calls.
Qed.

Lemma emits_only_storage_read (P : call -> Prop) storage key :
  (forall c, is_get c = true -> P c) -> emits_only P (storage_read storage key).
Proof.
  intros HP w _.
  split; [apply (unchanged_storage_read draws), ambient_draws|].
  destruct (storage_read_calls storage key w) as (c & Hc & Hget & _).
  exists [c]. split; [exact Hc|]. constructor; [apply HP, Hget|constructor].
Qed.

Lemma emits_only_storage_write (P : call -> Prop) (p : jsnum) storage key value :
  (forall r, (0 <= r)%Q -> (r < 1)%Q ->
             P (if is_redis storage then RedisSet key value (js_lt (Fin r) p)
                else DbSet key value)) ->
  emits_only P (storage_write storage p key value).
Proof.
  intros HP w Hw.
  split; [apply (unchanged_storage_write draws), ambient_draws|].
  eexists. split; [apply storage_write_calls|].
  destruct (Hw (cursor w)) as [Hnonneg Hbelow].
  constructor; [apply HP; assumption|constructor].
Qed.

Lemma emits_only_keyed_write (P : call -> Prop) (p : jsnum) prefix storage size i :
  (forall key value r, (0 <= r)%Q -> (r < 1)%Q ->
             P (if is_redis storage then RedisSet key value (js_lt (Fin r) p)
                else DbSet key value)) ->
  emits_only P (keyed_write prefix storage p size i).
Proof.
  intros HP. apply emits_only_bind; [apply emits_only_generateValue|].
  intros value. apply emits_only_storage_write, HP.
Qed.

Lemma emits_only_mixed_loop (P : call -> Prop) (p : jsnum) storage requests size
    setOps getOps share :
  (forall c, is_get c = true -> P c) ->
  (forall key value r, (0 <= r)%Q -> (r < 1)%Q ->
             P (if is_redis storage then RedisSet key value (js_lt (Fin r) p)
                else DbSet key value)) ->
  forall trips counts,
    emits_only P (mixed_loop trips storage p requests size setOps getOps share counts).
Proof.
  intros Hread Hwrite trips.
  induction trips as [|n IH]; intros counts; cbn [mixed_loop].
  - apply emits_only_ret.
  - apply emits_only_bind; [|intros counts'; apply IH].
    unfold mixed_trip. destruct counts as [setCount getCount].
    apply emits_only_bind; [apply emits_only_isSetOp_of|]. intros [|].
    + apply emits_only_bind; [apply emits_only_mixed_key|]. intros key.
      apply emits_only_bind; [apply emits_only_generateValue|]. intros value.
      apply emits_only_bind; [apply emits_only_storage_write, Hwrite|].
      intros _. apply emits_only_ret.
    + apply emits_only_bind; [apply emits_only_mixed_key|]. intros key.
      apply emits_only_bind; [apply emits_only_storage_read, Hread|].
      intros _. apply emits_only_ret.
Qed.

Lemma emits_only_run_operations (P : call -> Prop) (p : jsnum) type storage requests size
    setRatio getRatio :
  (forall c, is_get c = true -> P c) ->
  (forall key value r, (0 <= r)%Q -> (r < 1)%Q ->
             P (if is_redis storage then RedisSet key value (js_lt (Fin r) p)
                else DbSet key value)) ->
  emits_only P (run_operations type storage requests size setRatio getRatio p).
Proof.
  intros Hread Hwrite. unfold run_operations.
  destruct (String.eqb type "set").
  { apply emits_only_for_loop. intros i.
    apply (emits_only_keyed_write P p "benchmark:"), Hwrite. }
  destruct (String.eqb type "get").
  { apply emits_only_bind.
    - apply emits_only_for_loop. intros i.
      apply (emits_only_keyed_write P p "benchmark:get:"), Hwrite.
    - intros _. apply emits_only_for_loop. intros i.
      apply emits_only_storage_read, Hread. }
  destruct (String.eqb type "mixed"); [|apply emits_only_ret].
  apply emits_only_bind.
  - apply emits_only_for_loop. intros i.
    apply (emits_only_keyed_write P p "benchmark:mixed:"), Hwrite.
  - intros _. apply emits_only_bind; [apply emits_only_mixed_loop; assumption|].
    intros counts. apply emits_only_ret.
Qed.

Lemma reads_are_not_writes (flag : bool) (c : call) :
  is_get c = true -> is_set c = true -> marked_cacheable c = Some flag.
Proof. unfold is_get. intros Hget Hset. rewrite Hset in Hget. discriminate. Qed.

Lemma runBenchmark_extends_calls (config : Config.t) (w : world) :
  draws_in_unit_interval w ->
  exists log, calls (world_after (runBenchmark config) w) = (calls w ++ log)%list.
Proof.
  intros Hw. rewrite runBenchmark_calls.
  destruct (emits_only_run_operations (fun _ => True)
              (cachedProbability_of (cachedRatio_of config)) (type_of config)
              (storage_of config) (requests_of config) (size_of config)
              (fst (parse_ratio (ratio_of config))) (snd (parse_ratio (ratio_of config)))
              (fun _ _ => I) (fun _ _ _ _ _ => I) (next_tick w) Hw)
    as (_ & log & Hlog & _).
  exists log. exact Hlog.
Qed.

Lemma always_below_one (r : Q) : (0 <= r)%Q -> (r < 1)%Q -> js_lt (Fin r) (Fin 1) = true.
Proof. intros _ Hbelow. apply Qltb_lt, Hbelow. Qed.

Lemma never_below_zero (r : Q) : (0 <= r)%Q -> (r < 1)%Q -> js_lt (Fin r) (Fin 0) = false.
Proof. intros Hnonneg _. apply Qltb_ge, Hnonneg. Qed.

Lemma run_writes_marked (flag : bool) (config : Config.t) (w : world) (log : list call) :
  storage_of config = "redis" ->
  draws_in_unit_interval w ->
  (forall r, (0 <= r)%Q -> (r < 1)%Q ->
             js_lt (Fin r) (cachedProbability_of (cachedRatio_of config)) = flag) ->
  calls (world_after (runBenchmark config) w) = (calls w ++ log)%list ->
  writes_marked flag log.
Proof.
  intros Hstorage Hw Hflag Hlog. apply is_redis_true in Hstorage.
  rewrite runBenchmark_calls in Hlog.
  destruct (emits_only_run_operations
              (fun c => is_set c = true -> marked_cacheable c = Some flag)
              (cachedProbability_of (cachedRatio_of config)) (type_of config)
              (storage_of config) (requests_of config) (size_of config)
              (fst (parse_ratio (ratio_of config))) (snd (parse_ratio (ratio_of config))))
    with (w := next_tick w) as (_ & log' & Hlog' & Hmarked).
  - apply reads_are_not_writes.
  - intros key value r Hnonneg Hbelow _. rewrite Hstorage. cbn [marked_cacheable].
    rewrite (Hflag r Hnonneg Hbelow). reflexivity.
  - exact Hw.
  - fold (operations_of config) in Hlog'. rewrite Hlog' in Hlog.
    apply app_inv_head in Hlog. subst log'. exact Hmarked.
Qed.

(** C6. On the cached tier, with draws in [[0, 1)]: under the cached ratio
    ['1:0'] the cache probability is 1 and every write of the run is
    issued as cacheable, whatever the draws; under ['0:1'] it is 0 and no
    write of the run is. *)
Theorem cacheability_at_the_extreme_ratios (config : Config.t) (w : world) :
  storage_of config = "redis" ->
  draws_in_unit_interval w ->
  exists log,
    calls (world_after (runBenchmark config) w) = (calls w ++ log)%list
    /\ (cachedRatio_of config = "1:0" ->
        cachedProbability_of (cachedRatio_of config) = Fin 1
        /\ writes_marked true log)
    /\ (cachedRatio_of config = "0:1" ->
        cachedProbability_of (cachedRatio_of config) = Fin 0
        /\ writes_marked false log).
Proof.
  intros Hstorage Hw.
  destruct (runBenchmark_extends_calls config w Hw) as [log Hlog].
  exists log. split; [exact Hlog|]. split; intros Hratio.
  - assert (cachedProbability_of (cachedRatio_of config) = Fin 1) as Hp
      by (rewrite Hratio; reflexivity).
    split; [exact Hp|].
    apply (run_writes_marked true config w log Hstorage Hw); [|exact Hlog].
    rewrite Hp. apply always_below_one.
  - assert (cachedProbability_of (cachedRatio_of config) = Fin 0) as Hp
      by (rewrite Hratio; reflexivity).
    split; [exact Hp|].
    apply (run_writes_marked false config w log Hstorage Hw); [|exact Hlog].
    rewrite Hp. apply never_below_zero.
Qed.

Lemma sample_draws_in_unit_interval : draws_in_unit_interval sample_world.
Proof. intros n. vm_compute. split; [discriminate|reflexivity]. Qed.

Lemma cacheability_at_the_extreme_ratios_witness :
  exists log,
    calls (world_after (runBenchmark (configuration "mixed" "redis" 10 3 "1:1" "1:0"))
             sample_world) = ([] ++ log)%list
    /\ writes_marked true log.
Proof.
  destruct (cacheability_at_the_extreme_ratios
              (configuration "mixed" "redis" 10 3 "1:1" "1:0") sample_world
              eq_refl sample_draws_in_unit_interval)
    as (log & Hlog & Hall & _).
  exists log. split; [exact Hlog|]. apply Hall. reflexivity.
Defined.

(* ===================================================================== *)
(** ** The quotas of a mixed run *)
(* ===================================================================== *)

Lemma Qfloor_between (z : Q) (f : Z) :
  (inject_Z f <= z)%Q -> (z < inject_Z f + 1)%Q -> Qfloor z = f.
Proof.
  intros Hlo Hhi.
  pose proof (Qfloor_le z) as Fle. pose proof (Qlt_floor z) as Flt.
  assert (f < Qfloor z + 1).
  { rewrite Zlt_Qlt. apply Qle_lt_trans with z; assumption. }
  assert (Qfloor z < f + 1); [|lia].
  rewrite Zlt_Qlt, inject_Z_plus. apply Qle_lt_trans with z; assumption.
Qed.

Lemma representable_zero : representable 0.
Proof. apply (representable_Z 0). vm_compute. discriminate. Qed.

Lemma representable_one : representable 1.
Proof. apply (representable_Z 1). vm_compute. discriminate. Qed.

Lemma binary64_representable (v : jsnum) (q : Q) : binary64 v = Fin q -> representable q.
Proof. destruct v; cbn [binary64]; try discriminate. apply round64_is_representable. Qed.

(** Every finite number that [Number] returns is a binary64 number. *)
Lemma Number_representable (s : string) (q : Q) : Number s = Fin q -> representable q.
Proof.
  unfold Number. destruct (trim s) as [|c rest].
  { intros H. apply Fin_inj in H. subst q. exact representable_zero. }
  destruct (StrDecimalLiteral _); [apply binary64_representable|].
  destruct (NonDecimalIntegerLiteral _); [apply binary64_representable|discriminate].
Qed.

Lemma parse_ratio_representable (s : string) (a b : Q) :
  parse_ratio s = (Fin a, Fin b) -> representable a /\ representable b.
Proof.
  unfold parse_ratio. intros H.
  assert (forall i q, nth i (map Number (split_colon s)) NaN = Fin q -> representable q)
    as Hnth.
  { intros i q Hq.
    destruct (nth_in_or_default i (map Number (split_colon s)) NaN) as [Hin|Hdefault];
      [|congruence].
    rewrite Hq in Hin. apply in_map_iff in Hin. destruct Hin as (piece & Hpiece & _).
    apply (Number_representable piece), Hpiece. }
  split; [apply (Hnth 0%nat)|apply (Hnth 1%nat)]; congruence.
Qed.

(** The share that the code computes for two weights lies between 0 and
    1, rounding included. *)
Lemma set_share_range (s g : Q) :
  representable s -> representable g -> (0 <= s)%Q -> (0 <= g)%Q -> (0 < s + g)%Q ->
  exists y, set_share (Fin s) (Fin g) = Fin y /\ (0 <= y)%Q /\ (y <= 1)%Q.
Proof.
  intros Rs Rg Hs Hg Hsum. unfold set_share, add64, div64. cbn [js_add binary64].
  destruct (round64_above (s + g) s Rs Hs ltac:(lra)) as [Hinf|(t & Ht & Hst)].
  - rewrite Hinf. cbn [js_div binary64]. exists 0%Q.
    split; [apply round64_zero; reflexivity|lra].
  - destruct (round64_above (s + g) g Rg Hg ltac:(lra)) as [Hinf|(t' & Ht' & Hgt)];
      [congruence|].
    rewrite Ht in Ht'. apply Fin_inj in Ht'. subst t'.
    assert (0 < t)%Q as Htpos by lra.
    rewrite Ht. cbn [js_div].
    assert (Qeqb t 0 = false) as -> by (apply Qeqb_neq; lra).
    cbn [binary64].
    destruct (round64_between (s / t) 0 1 representable_zero representable_one)
      as (y & Hy & Hy0 & Hy1).
    + lra.
    + apply Qle_shift_div_l; [exact Htpos|lra].
    + apply Qle_shift_div_r; [exact Htpos|lra].
    + exists y. auto.
Qed.

(** The quota [setOps] that the code computes is an integer between 0 and
    [requests], rounding included. *)
Lemma setOps_of_range (s g : Q) (n : Z) :
  representable s -> representable g -> (0 <= s)%Q -> (0 <= g)%Q -> (0 < s + g)%Q ->
  0 <= n <= 2 ^ 53 ->
  exists k, setOps_of (Fin s) (Fin g) n = Fin (inject_Z k) /\ 0 <= k <= n.
Proof.
  intros Rs Rg Hs Hg Hsum Hn. unfold setOps_of.
  destruct (set_share_range s g Rs Rg Hs Hg Hsum) as (y & -> & Hy0 & Hy1).
  unfold mul64. cbn [js_mul binary64].
  assert (0 <= inject_Z n)%Q as Hn0
    by (change 0%Q with (inject_Z 0); rewrite <- Zle_Qle; lia).
  destruct (round64_between (y * inject_Z n) 0 (inject_Z n) representable_zero
              (representable_Z n ltac:(lia)))
    as (z & -> & Hz0 & Hz1).
  - lra.
  - apply Qmult_le_0_compat; assumption.
  - rewrite <- (Qmult_1_l (inject_Z n)) at 2. apply Qmult_le_compat_r; assumption.
  - cbn [Math_floor]. exists (Qfloor z). split; [reflexivity|]. split.
    + change 0 with (Qfloor 0). apply Qfloor_resp_le, Hz0.
    + rewrite <- (Qfloor_Z n). apply Qfloor_resp_le, Hz1.
Qed.

(** Two roundings, each of at most one part in [2^53], move the product
    [E = f + ru] by less than [u]: its floor stays [f] when [E] is at least
    [u] away from the integers, and is [f] or [f - 1] when [E] is [f]. *)
Lemma quota_window (E p z f u ru N : Q) :
  (0 <= E)%Q -> (E <= N)%Q -> (N <= 2251799813685248 * u)%Q -> (0 < u)%Q -> (u <= 1)%Q ->
  (E == f + ru)%Q ->
  (E - E * (1 # 9007199254740992) <= p)%Q -> (p <= E + E * (1 # 9007199254740992))%Q ->
  (p - p * (1 # 9007199254740992) <= z)%Q -> (z <= p + p * (1 # 9007199254740992))%Q ->
  ((ru == 0)%Q -> (f - 1 <= z)%Q /\ (z < f + 1)%Q)
  /\ ((u <= ru)%Q -> (ru <= 1 - u)%Q -> (f <= z)%Q /\ (z < f + 1)%Q).
Proof. intros. split; intros; split; lra. Qed.

(** For weights and request counts of ordinary size the quota of the code
    is the exact [floor (n * sw / (sw + gw))], or one less when that
    quotient is an integer. *)
Lemma setOps_of_near_exact (sw gw n : Z) :
  0 <= sw -> 0 <= gw -> 0 < sw + gw -> 0 <= n ->
  sw + gw <= 2 ^ 20 -> n <= 2 ^ 31 ->
  exists k, setOps_of (Fin (inject_Z sw)) (Fin (inject_Z gw)) n = Fin (inject_Z k)
    /\ (k = n * sw / (sw + gw)
        \/ (k = n * sw / (sw + gw) - 1 /\ (n * sw) mod (sw + gw) = 0)).
Proof.
  intros Hsw Hgw Hsum Hn Hweights Hrequests.
  change (2 ^ 20) with 1048576 in Hweights. change (2 ^ 31) with 2147483648 in Hrequests.
  set (t := sw + gw) in *.
  assert (0 < inject_Z t)%Q as HT
    by (change 0%Q with (inject_Z 0); rewrite <- Zlt_Qlt; exact Hsum).
  assert (inject_Z t <= 1048576)%Q as HTmax
    by (change 1048576%Q with (inject_Z 1048576); rewrite <- Zle_Qle; exact Hweights).
  assert (0 <= inject_Z n)%Q as HN
    by (change 0%Q with (inject_Z 0); rewrite <- Zle_Qle; exact Hn).
  unfold setOps_of, set_share, add64, div64, mul64. cbn [js_add binary64].
  rewrite (round64_Z (inject_Z sw + inject_Z gw) t)
    by (first [rewrite <- inject_Z_plus; reflexivity
              |change (2 ^ 53) with 9007199254740992; lia]).
  cbn [js_div].
  assert (Qeqb (inject_Z t) 0 = false) as -> by (apply Qeqb_neq; lra).
  cbn [binary64].
  destruct (Z.eq_dec sw 0) as [->|Hsw1].
  { rewrite (round64_zero (inject_Z 0 / inject_Z t)) by (unfold Qdiv; apply Qmult_0_l).
    cbn [js_mul binary64]. rewrite (round64_zero (0 * inject_Z n)) by apply Qmult_0_l.
    exists 0. split; [reflexivity|]. left. rewrite Z.mul_0_r. reflexivity. }
  assert (1 <= inject_Z sw)%Q as HS
    by (change 1%Q with (inject_Z 1); rewrite <- Zle_Qle; lia).
  assert (inject_Z sw <= inject_Z t)%Q as HST by (rewrite <- Zle_Qle; unfold t; lia).
  set (x := (inject_Z sw / inject_Z t)%Q).
  assert (0 <= x)%Q as Hx0 by (apply Qle_shift_div_l; [exact HT|lra]).
  assert (x <= 1)%Q as Hx1 by (apply Qle_shift_div_r; [exact HT|lra]).
  assert ((1 # 1048576) <= x)%Q as Hxmin by (apply Qle_shift_div_l; [exact HT|lra]).
  destruct (round64_between x 0 1 representable_zero representable_one
              ltac:(lra) Hx0 Hx1) as (y & Hy & Hy0 & Hy1).
  assert (2 ^ (-1022) <= (1 # 2097152))%Q as Hnormal.
  { change (1 # 2097152)%Q with (2 ^ (-21))%Q. apply pow2_le. lia. }
  destruct (round64_error x y ltac:(lra) Hy) as [Hylo Hyhi].
  change (2 ^ (-53))%Q with (1 # 9007199254740992)%Q in Hylo, Hyhi.
  rewrite Hy. cbn [js_mul binary64].
  destruct (Z.eq_dec n 0) as [->|Hn1].
  { rewrite (round64_zero (y * inject_Z 0)) by apply Qmult_0_r.
    exists 0. split; [reflexivity|]. left. reflexivity. }
  assert (1 <= inject_Z n)%Q as HN1
    by (change 1%Q with (inject_Z 1); rewrite <- Zle_Qle; lia).
  set (p := (y * inject_Z n)%Q).
  assert (0 <= p)%Q as Hp0 by (apply Qmult_le_0_compat; assumption).
  assert (p <= inject_Z n)%Q as Hp1.
  { unfold p. rewrite <- (Qmult_1_l (inject_Z n)) at 2.
    apply Qmult_le_compat_r; assumption. }
  assert (y <= p)%Q as Hyp.
  { unfold p. rewrite <- (Qmult_1_r y) at 1.
    rewrite (Qmult_comm y 1), (Qmult_comm y (inject_Z n)).
    apply Qmult_le_compat_r; assumption. }
  destruct (round64_between p 0 (inject_Z n) representable_zero
              (representable_Z n ltac:(change (2 ^ 53) with 9007199254740992; lia))
              ltac:(lra) Hp0 Hp1) as (z & Hz & Hz0 & Hz1).
  destruct (round64_error p z ltac:(lra) Hz) as [Hzlo Hzhi].
  change (2 ^ (-53))%Q with (1 # 9007199254740992)%Q in Hzlo, Hzhi.
  rewrite Hz. cbn [Math_floor]. exists (Qfloor z). split; [reflexivity|].
  (* the exact product and its distance to the integers *)
  set (E := (x * inject_Z n)%Q).
  set (f := n * sw / t). set (r := (n * sw) mod t).
  assert (n * sw = t * f + r /\ 0 <= r < t) as [Hdiv Hr].
  { unfold f, r. split; [apply Z.div_mod; lia|apply Z.mod_pos_bound; lia]. }
  set (u := (/ inject_Z t)%Q).
  assert (inject_Z t * u == 1)%Q as Htu by (unfold u; apply Qmult_inv_r; lra).
  assert (0 < u)%Q as Hu0 by (unfold u; apply Qinv_lt_0_compat; exact HT).
  assert (1 <= inject_Z t)%Q as HT1
    by (change 1%Q with (inject_Z 1); rewrite <- Zle_Qle; lia).
  assert (u <= 1)%Q as Hu1 by nra.
  assert (E == inject_Z f + inject_Z r * u)%Q as HE.
  { unfold E, x, u.
    assert (inject_Z sw * inject_Z n == inject_Z t * inject_Z f + inject_Z r)%Q as Hq.
    { rewrite <- !inject_Z_mult, <- inject_Z_plus, (Z.mul_comm sw n), Hdiv. reflexivity. }
    unfold Qdiv. rewrite <- Qmult_assoc, (Qmult_comm (/ inject_Z t)), Qmult_assoc, Hq.
    field. lra. }
  assert (0 <= E)%Q as HE0 by (apply Qmult_le_0_compat; assumption).
  assert (E <= inject_Z n)%Q as HE1.
  { unfold E. rewrite <- (Qmult_1_l (inject_Z n)) at 2.
    apply Qmult_le_compat_r; assumption. }
  assert (inject_Z n <= 2251799813685248 * u)%Q as HNu.
  { assert (inject_Z n * inject_Z t <= 2251799813685248)%Q as Hnt.
    { rewrite <- inject_Z_mult. change 2251799813685248%Q with (inject_Z 2251799813685248).
      rewrite <- Zle_Qle. nia. }
    apply (Qmult_le_r _ _ (inject_Z t) HT).
    rewrite <- Qmult_assoc, (Qmult_comm u), Htu. lra. }
  assert (E - E * (1 # 9007199254740992) <= p)%Q as Hplo.
  { unfold E, p.
    setoid_replace (x * inject_Z n - x * inject_Z n * (1 # 9007199254740992))%Q
      with ((x - x * (1 # 9007199254740992)) * inject_Z n)%Q using relation Qeq by ring.
    apply Qmult_le_compat_r; assumption. }
  assert (p <= E + E * (1 # 9007199254740992))%Q as Hphi.
  { unfold E, p.
    setoid_replace (x * inject_Z n + x * inject_Z n * (1 # 9007199254740992))%Q
      with ((x + x * (1 # 9007199254740992)) * inject_Z n)%Q using relation Qeq by ring.
    apply Qmult_le_compat_r; assumption. }
  destruct (quota_window E p z (inject_Z f) u (inject_Z r * u) (inject_Z n)
              HE0 HE1 HNu Hu0 Hu1 HE Hplo Hphi Hzlo Hzhi) as [Hexact Hinexact].
  destruct (Z.eq_dec r 0) as [Hr0|Hr1].
  - destruct Hexact as [Hlo Hhi]; [rewrite Hr0; apply Qmult_0_l|].
    pose proof (Qfloor_le z) as Fle. pose proof (Qlt_floor z) as Flt.
    assert (f - 1 < Qfloor z + 1).
    { rewrite Zlt_Qlt. apply Qle_lt_trans with z; [|exact Flt].
      unfold Zminus. rewrite inject_Z_plus. exact Hlo. }
    assert (Qfloor z < f + 1).
    { rewrite Zlt_Qlt, inject_Z_plus. apply Qle_lt_trans with z; assumption. }
    destruct (Z.eq_dec (Qfloor z) f) as [->|Hne]; [left; reflexivity|].
    right. split; [lia|exact Hr0].
  - left. apply Qfloor_between; apply Hinexact.
    + assert (1 <= inject_Z r)%Q
        by (change 1%Q with (inject_Z 1); rewrite <- Zle_Qle; lia).
      nra.
    + assert (inject_Z r <= inject_Z t - 1)%Q.
      { change 1%Q with (inject_Z 1). unfold Qminus.
        rewrite <- inject_Z_opp, <- inject_Z_plus, <- Zle_Qle. lia. }
      nra.
    + assert (1 <= inject_Z r)%Q
        by (change 1%Q with (inject_Z 1); rewrite <- Zle_Qle; lia).
      nra.
    + assert (inject_Z r <= inject_Z t - 1)%Q.
      { change 1%Q with (inject_Z 1). unfold Qminus.
        rewrite <- inject_Z_opp, <- inject_Z_plus, <- Zle_Qle. lia. }
      nra.
Qed.

Lemma below_quota (count : nat) (quota : Z) :
  js_lt (Fin (inject_Z (Z.of_nat count))) (Fin (inject_Z quota)) = true
  <-> Z.of_nat count < quota.
Proof. cbn [js_lt]. rewrite Qltb_lt, <- Zlt_Qlt. reflexivity. Qed.

Lemma quota_reached (count : nat) (n quota : Z) :
  js_ge (Fin (inject_Z (Z.of_nat count))) (Fin (inject_Z n - inject_Z quota)) = true
  <-> n - quota <= Z.of_nat count.
Proof.
  cbn [js_ge]. rewrite Qle_bool_iff.
  unfold Qminus. rewrite <- inject_Z_opp, <- inject_Z_plus, <- Zle_Qle. lia.
Qed.

Section MixedLoop.

Variables (storage : string) (p share : jsnum) (requests size : Z).
(** The quotas: [setOps = s] and [getOps = n - s]. *)
Variables (n s : Z).
Hypothesis quota_range : 0 <= s <= n.

Local Abbreviation setOps := (Fin (inject_Z s)).
Local Abbreviation getOps := (Fin (inject_Z n - inject_Z s)).

Lemma isSetOp_of_decides (setCount getCount : nat) (w : world) :
  if result_of (isSetOp_of setOps getOps share setCount getCount) w
  then Z.of_nat setCount < s
  else ~ (Z.of_nat setCount < s /\ n - s <= Z.of_nat getCount).
Proof.
  unfold isSetOp_of.
  destruct (js_lt _ (Fin (inject_Z s))) eqn:Hbelow.
  - apply below_quota in Hbelow.
    destruct (js_ge _ _) eqn:Hreached.
    + exact Hbelow.
    + rewrite result_of_bind.
      destruct (result_of _ _); [exact Hbelow|].
      intros [_ Habs]. apply quota_reached in Habs. congruence.
  - cbn. intros [Habs _]. apply below_quota in Habs. congruence.
Qed.

Lemma mixed_trip_step (setCount getCount : nat) (w : world) :
  Z.of_nat setCount <= s ->
  Z.of_nat getCount <= n - s ->
  Z.of_nat setCount + Z.of_nat getCount < n ->
  let m := mixed_trip storage p requests size setOps getOps share (setCount, getCount) in
  exists c,
    calls (world_after m w) = (calls w ++ [c])%list
    /\ ((result_of m w = (S setCount, getCount)
         /\ is_set c = true /\ Z.of_nat setCount < s)
        \/ (result_of m w = (setCount, S getCount)
            /\ is_get c = true /\ Z.of_nat getCount < n - s)).
Proof.
  intros Hset Hget Hroom m. subst m. unfold mixed_trip.
  pose proof (isSetOp_of_decides setCount getCount w) as Hdecides.
  rewrite result_of_bind, world_after_bind.
  pose proof (unchanged_isSetOp_of calls setOps getOps share setCount getCount
                draw_blind_calls w) as Hquiet.
  set (w0 := world_after (isSetOp_of setOps getOps share setCount getCount) w) in *.
  destruct (result_of (isSetOp_of setOps getOps share setCount getCount) w).
  - repeat (rewrite ?result_of_bind, ?world_after_bind; cbv beta).
    rewrite result_of_ret, world_after_ret.
    pose proof (unchanged_mixed_key calls requests draw_blind_calls w0) as Hkey.
    set (w1 := world_after (mixed_key requests) w0) in *.
    set (key := result_of (mixed_key requests) w0).
    pose proof (unchanged_generateValue calls size draw_blind_calls w1) as Hvalue.
    set (w2 := world_after (generateValue size) w1) in *.
    set (value := result_of (generateValue size) w1).
    rewrite storage_write_calls, Hvalue, Hkey, Hquiet.
    eexists. split; [reflexivity|]. left.
    split; [reflexivity|]. split; [destruct (is_redis storage); reflexivity|exact Hdecides].
  - repeat (rewrite ?result_of_bind, ?world_after_bind; cbv beta).
    rewrite result_of_ret, world_after_ret.
    pose proof (unchanged_mixed_key calls requests draw_blind_calls w0) as Hkey.
    set (w1 := world_after (mixed_key requests) w0) in *.
    set (key := result_of (mixed_key requests) w0).
    destruct (storage_read_calls storage key w1) as (c & Hc & Hisget & _).
    exists c. split.
    + rewrite Hc, Hkey, Hquiet. reflexivity.
    + right. split; [reflexivity|]. split; [exact Hisget|lia].
Qed.

Lemma mixed_loop_counts :
  forall trips setCount getCount w,
    Z.of_nat setCount <= s ->
    Z.of_nat getCount <= n - s ->
    Z.of_nat setCount + Z.of_nat getCount + Z.of_nat trips <= n ->
    let m := mixed_loop trips storage p requests size setOps getOps share
               (setCount, getCount) in
    exists setCount' getCount' log,
      result_of m w = (setCount', getCount')
      /\ calls (world_after m w) = (calls w ++ log)%list
      /\ Z.of_nat setCount' <= s
      /\ Z.of_nat getCount' <= n - s
      /\ (setCount' = setCount + count_sets log)%nat
      /\ (getCount' = getCount + count_gets log)%nat
      /\ (count_sets log + count_gets log = trips)%nat
      /\ length log = trips.
Proof.
  induction trips as [|k IH]; intros setCount getCount w Hset Hget Hroom; cbn zeta.
  - exists setCount, getCount, []. cbn. rewrite app_nil_r. repeat split; auto; lia.
  - cbn [mixed_loop]. rewrite result_of_bind, world_after_bind.
    destruct (mixed_trip_step setCount getCount w Hset Hget ltac:(lia))
      as (c & Hc & [(Hcounts & Hisset & Hbelow)|(Hcounts & Hisget & Hbelow)]);
      cbv zeta in Hc, Hcounts; rewrite Hcounts.
    + destruct (IH (S setCount) getCount
                  (world_after (mixed_trip storage p requests size setOps getOps share
                                  (setCount, getCount)) w)
                  ltac:(lia) Hget ltac:(lia))
        as (a & b & log & Hresult & Hcalls & Ha & Hb & Hsets & Hgets & Hsum & Hlen).
      exists a, b, (c :: log). cbv zeta in Hresult, Hcalls.
      split; [exact Hresult|]. split; [rewrite Hcalls, Hc, <- app_assoc; reflexivity|].
      assert (is_get c = false) as Hnotget by (unfold is_get; rewrite Hisset; reflexivity).
      unfold count_sets, count_gets in *. cbn [List.filter].
      rewrite Hisset, Hnotget. cbn [length]. repeat split; try assumption; lia.
    + destruct (IH setCount (S getCount)
                  (world_after (mixed_trip storage p requests size setOps getOps share
                                  (setCount, getCount)) w)
                  Hset ltac:(lia) ltac:(lia))
        as (a & b & log & Hresult & Hcalls & Ha & Hb & Hsets & Hgets & Hsum & Hlen).
      exists a, b, (c :: log). cbv zeta in Hresult, Hcalls.
      split; [exact Hresult|]. split; [rewrite Hcalls, Hc, <- app_assoc; reflexivity|].
      assert (is_set c = false) as Hnotset
        by (unfold is_get in Hisget; destruct (is_set c); [discriminate|reflexivity]).
      unfold count_sets, count_gets in *. cbn [List.filter].
      rewrite Hisget, Hnotset. cbn [length]. repeat split; try assumption; lia.
Qed.

End MixedLoop.

Lemma getOps_of_quota (setRatio getRatio : jsnum) (n k : Z) :
  setOps_of setRatio getRatio n = Fin (inject_Z k) ->
  getOps_of setRatio getRatio n = Fin (inject_Z n - inject_Z k).
Proof. intros H. unfold getOps_of. rewrite H. reflexivity. Qed.

Lemma inject_Z_inj (a b : Z) : Fin (inject_Z a) = Fin (inject_Z b) -> a = b.
Proof. intros H. apply Fin_inj in H. injection H as H. exact H. Qed.

(** The mixed loop of a run against the quota [k] that the code computed. *)
Lemma running_counts_within_quotas (config : Config.t) (w : world) (k : Z) (trips : nat) :
  setOps_of (fst (parse_ratio (ratio_of config))) (snd (parse_ratio (ratio_of config)))
    (requests_of config) = Fin (inject_Z k) ->
  0 <= k <= requests_of config ->
  Z.of_nat trips <= requests_of config ->
  let m := mixed_phase config trips in
  let w1 := after_prepopulation config w in
  exists setCount getCount log,
    result_of m w1 = (setCount, getCount)
    /\ calls (world_after m w1) = (calls w1 ++ log)%list
    /\ Z.of_nat setCount <= k
    /\ Z.of_nat getCount <= requests_of config - k
    /\ setCount = count_sets log
    /\ getCount = count_gets log
    /\ (setCount + getCount = trips)%nat.
Proof.
  intros Hquota Hrange Htrips m w1. subst m.
  unfold mixed_phase. destruct (parse_ratio (ratio_of config)) as [setRatio getRatio].
  cbn [fst snd] in Hquota.
  rewrite (getOps_of_quota _ _ _ _ Hquota), Hquota.
  destruct (mixed_loop_counts (storage_of config) (cachedProbability_of (cachedRatio_of config))
              (set_share setRatio getRatio)
              (requests_of config) (size_of config)
              (requests_of config) k
              trips O O w1 ltac:(lia) ltac:(lia) ltac:(lia))
    as (a & b & log & Hresult & Hcalls & Ha & Hb & Hsets & Hgets & Hcount & _).
  exists a, b, log. cbv zeta in Hresult, Hcalls.
  repeat split; try assumption. lia.
Qed.

(** A mixed run against the quota [k] that the code computed: the running
    counts stay within the quotas, and the finished loop has met both. *)
Lemma mixed_run_against_quota (config : Config.t) (w : world) (k : Z) :
  type_of config = "mixed" ->
  setOps_of (fst (parse_ratio (ratio_of config))) (snd (parse_ratio (ratio_of config)))
    (requests_of config) = Fin (inject_Z k) ->
  0 <= k <= requests_of config ->
  let requests := requests_of config in
  (forall trips, (trips <= Z.to_nat requests)%nat ->
     let (setCount, getCount) := running_counts config trips w in
     Z.of_nat setCount <= k
     /\ Z.of_nat getCount <= requests - k
     /\ (setCount + getCount = trips)%nat)
  /\ running_counts config (Z.to_nat requests) w = (Z.to_nat k, Z.to_nat (requests - k))
  /\ exists log,
       calls (world_after (runBenchmark config) w)
       = (calls (after_prepopulation config w) ++ log)%list
       /\ count_sets log = Z.to_nat k
       /\ count_gets log = Z.to_nat (requests - k).
Proof.
  intros Htype Hquota Hrange requests. split.
  { intros trips Htrips.
    destruct (running_counts_within_quotas config w k trips Hquota Hrange
                ltac:(subst requests; lia))
      as (a & b & log & Hresult & _ & Ha & Hb & _ & _ & Hcount).
    unfold running_counts. cbv zeta in Hresult. rewrite Hresult.
    repeat split; assumption. }
  destruct (running_counts_within_quotas config w k (Z.to_nat requests) Hquota Hrange
              ltac:(subst requests; lia))
    as (a & b & log & Hresult & Hcalls & Ha & Hb & Hsets & Hgets & Hcount).
  cbv zeta in Hresult, Hcalls. fold requests in Hb.
  assert (a = Z.to_nat k /\ b = Z.to_nat (requests - k)) as [Hfinal_a Hfinal_b]
    by (subst requests; lia).
  split.
  { unfold running_counts. rewrite Hresult, Hfinal_a, Hfinal_b. reflexivity. }
  exists log. split; [|split; congruence].
  rewrite runBenchmark_calls, <- Hcalls.
  unfold operations_of, run_operations, mixed_phase, after_prepopulation.
  rewrite Htype. destruct (parse_ratio (ratio_of config)) as [setRatio getRatio].
  cbn [String.eqb Ascii.eqb Bool.eqb fst snd].
  rewrite world_after_bind, world_after_bind, world_after_ret. reflexivity.
Qed.

(** X22. The mixed loop meets the quotas the code computes.  In a
    ['mixed'] run whose ratio parses to the non-negative integer weights
    [(setWeight, getWeight)], not both zero, and whose request count is an
    integer [0 <= requests <= 2^53], the quota [setOps] is what
    [Math.floor((setRatio / (setRatio + getRatio)) * requests)] gives in
    binary64 arithmetic, the quotient and the product rounded one after the
    other: an integer between 0 and [requests] which, for weights that sum
    to at most [2^20] and at most [2^31] requests, is
    [floor (requests * setWeight / (setWeight + getWeight))], or one less
    when that quotient is an integer; [getOps = requests - setOps].
    Whatever the draws: after any number of trips of the mixed loop the
    running [setCount] is at most [setOps], the running [getCount] is at
    most [getOps] and they sum to the number of trips done; after all
    [requests] trips they are exactly [setOps] and [getOps], and the loop
    has issued exactly [setOps] writes and [getOps] reads. *)
Theorem mixed_loop_meets_the_computed_quotas (config : Config.t) (w : world) (setWeight getWeight : Z) :
  type_of config = "mixed" ->
  parse_ratio (ratio_of config) = (Fin (inject_Z setWeight), Fin (inject_Z getWeight)) ->
  0 <= setWeight -> 0 <= getWeight -> 0 < setWeight + getWeight ->
  0 <= requests_of config <= 2 ^ 53 ->
  let requests := requests_of config in
  let exact := requests * setWeight / (setWeight + getWeight) in
  exists setOps : Z,
    let getOps := requests - setOps in
    setOps_of (Fin (inject_Z setWeight)) (Fin (inject_Z getWeight)) requests
    = Fin (inject_Z setOps)
    /\ getOps_of (Fin (inject_Z setWeight)) (Fin (inject_Z getWeight)) requests
       = Fin (inject_Z requests - inject_Z setOps)
    /\ 0 <= setOps <= requests
    /\ (setWeight + getWeight <= 2 ^ 20 -> requests <= 2 ^ 31 ->
        setOps = exact
        \/ (setOps = exact - 1
            /\ (requests * setWeight) mod (setWeight + getWeight) = 0))
    /\ (forall trips, (trips <= Z.to_nat requests)%nat ->
          let (setCount, getCount) := running_counts config trips w in
          Z.of_nat setCount <= setOps
          /\ Z.of_nat getCount <= getOps
          /\ (setCount + getCount = trips)%nat)
    /\ running_counts config (Z.to_nat requests) w = (Z.to_nat setOps, Z.to_nat getOps)
    /\ exists log,
         calls (world_after (runBenchmark config) w)
         = (calls (after_prepopulation config w) ++ log)%list
         /\ count_sets log = Z.to_nat setOps
         /\ count_gets log = Z.to_nat getOps.
Proof.
  intros Htype Hparse Hsw Hgw Hsum Hrequests requests exact.
  destruct (parse_ratio_representable _ _ _ Hparse) as [Rs Rg].
  assert (0 <= inject_Z setWeight)%Q as Qsw
    by (change 0%Q with (inject_Z 0); rewrite <- Zle_Qle; exact Hsw).
  assert (0 <= inject_Z getWeight)%Q as Qgw
    by (change 0%Q with (inject_Z 0); rewrite <- Zle_Qle; exact Hgw).
  assert (0 < inject_Z setWeight + inject_Z getWeight)%Q as Qsum
    by (rewrite <- inject_Z_plus; change 0%Q with (inject_Z 0); rewrite <- Zlt_Qlt;
        exact Hsum).
  destruct (setOps_of_range _ _ requests Rs Rg Qsw Qgw Qsum Hrequests)
    as (setOps & Hquota & Hrange).
  exists setOps. cbv zeta.
  split; [exact Hquota|]. split; [apply getOps_of_quota, Hquota|].
  split; [exact Hrange|]. split.
  { intros Hweights Hcount.
    destruct (setOps_of_near_exact setWeight getWeight requests Hsw Hgw Hsum
                ltac:(lia) Hweights Hcount) as (k & Hk & Hnear).
    rewrite Hquota in Hk. apply inject_Z_inj in Hk. subst k. exact Hnear. }
  apply (mixed_run_against_quota config w setOps Htype); [|exact Hrange].
  rewrite Hparse. exact Hquota.
Qed.

Lemma mixed_loop_meets_the_computed_quotas_witness :
  running_counts (configuration "mixed" "redis" 1000 3 "1:1" "1:0") 1000 sample_world
  = (500%nat, 500%nat)
  /\ exists log,
       calls (world_after (runBenchmark (configuration "mixed" "redis" 1000 3 "1:1" "1:0"))
                sample_world)
       = (calls (after_prepopulation (configuration "mixed" "redis" 1000 3 "1:1" "1:0")
                   sample_world) ++ log)%list
       /\ count_sets log = 500%nat
       /\ count_gets log = 500%nat.
Proof.
  destruct (mixed_loop_meets_the_computed_quotas
              (configuration "mixed" "redis" 1000 3 "1:1" "1:0") sample_world 1 1
              eq_refl eq_refl ltac:(lia) ltac:(lia) ltac:(lia)
              ltac:(vm_compute; split; discriminate))
    as (setOps & Hquota & _ & _ & _ & _ & Hfinal & Hlog).
  assert (setOps = 500) as ->.
  { symmetry. apply inject_Z_inj. rewrite <- Hquota. vm_compute. reflexivity. }
  split; [exact Hfinal|exact Hlog].
Defined.

(** C3, at the input where the code departs from it.  For 100 requests at
    the ratio ["29:71"] the claim gives the quotas
    [floor (100 * 29 / (29 + 71)) = 29] and 71.  The code evaluates
    [Math.floor((29 / (29 + 71)) * 100)]: the quotient rounds to a binary64
    number below [0.29], the product to [28.999999999999996], and the
    quotas are 28 and 72.  Whatever the draws, the mixed loop then does 28
    writes and 72 reads.  The same happens for 49 requests at ["1:48"]: no
    write and 49 reads, where the claim gives 1 and 48. *)
Theorem quota_below_the_exact_floor (w : world) :
  let config := configuration "mixed" "redis" 100 3 "29:71" "1:0" in
  let config' := configuration "mixed" "redis" 49 3 "1:48" "1:0" in
  100 * 29 / (29 + 71) = 29
  /\ parse_ratio (ratio_of config) = (Fin 29, Fin 71)
  /\ div64 (Fin 29) (add64 (Fin 29) (Fin 71))
     = Fin (5224175567749775 # 18014398509481984)
  /\ setOps_of (Fin 29) (Fin 71) 100 = Fin 28
  /\ getOps_of (Fin 29) (Fin 71) 100 = Fin (100 - 28)
  /\ running_counts config 100 w = (28%nat, 72%nat)
  /\ (exists log,
        calls (world_after (runBenchmark config) w)
        = (calls (after_prepopulation config w) ++ log)%list
        /\ count_sets log = 28%nat
        /\ count_gets log = 72%nat)
  /\ 49 * 1 / (1 + 48) = 1
  /\ setOps_of (Fin 1) (Fin 48) 49 = Fin 0
  /\ running_counts config' 49 w = (0%nat, 49%nat).
Proof.
  cbv zeta.
  destruct (mixed_run_against_quota
              (configuration "mixed" "redis" 100 3 "29:71" "1:0") w 28
              eq_refl ltac:(vm_compute; reflexivity) ltac:(vm_compute; split; discriminate))
    as (_ & Hfinal & Hlog).
  destruct (mixed_run_against_quota
              (configuration "mixed" "redis" 49 3 "1:48" "1:0") w 0
              eq_refl ltac:(vm_compute; reflexivity) ltac:(vm_compute; split; discriminate))
    as (_ & Hfinal' & _).
  split; [reflexivity|]. split; [vm_compute; reflexivity|].
  split; [vm_compute; reflexivity|]. split; [vm_compute; reflexivity|].
  split; [vm_compute; reflexivity|]. split; [exact Hfinal|]. split; [exact Hlog|].
  split; [reflexivity|]. split; [vm_compute; reflexivity|exact Hfinal'].
Qed.

(* ===================================================================== *)
(** ** Reading back from the cached tier *)
(* ===================================================================== *)

Lemma has_is_Some (m : gmap string string) (key : string) :
  has m key = true <-> is_Some (m !! key).
Proof. unfold has. apply bool_decide_eq_true. Qed.

Lemma has_None (m : gmap string string) (key : string) :
  has m key = false <-> m !! key = None.
Proof.
  split; [|apply has_false]. intros Hhas.
  destruct (m !! key) as [value|] eqn:Hlookup; [|reflexivity].
  rewrite (has_true _ _ _ Hlookup) in Hhas. discriminate.
Qed.

Lemma redis_get_result (key : string) (w : world) :
  result_of (redis_get key) w
  = match redisCache w !! key with
    | Some value => Some value
    | None => redisStore w !! key
    end.
Proof.
  unfold result_of. destruct (redisCache w !! key) as [value|] eqn:Hlookup.
  - rewrite (redis_get_hit _ _ _ Hlookup). reflexivity.
  - rewrite (redis_get_miss _ _ Hlookup). reflexivity.
Qed.

Lemma redis_exists_result (key : string) (w : world) :
  result_of (redis_exists key) w = has (redisStore w) key.
Proof. reflexivity. Qed.

Lemma redis_getCachedStatus_result (key : string) (w : world) :
  result_of (redis_getCachedStatus key) w
  = if has (redisStore w) key then Some (has (redisCache w) key) else None.
Proof.
  unfold result_of, redis_getCachedStatus, bind, gets, jitter_latency. cbn.
  destruct (has (redisStore w) key); reflexivity.
Qed.

Lemma redis_del_result (key : string) (w : world) :
  result_of (redis_del key) w = has (redisStore w) key.
Proof. reflexivity. Qed.

Lemma redis_setCached_result (key : string) (cached : bool) (w : world) :
  result_of (redis_setCached key cached) w = has (redisStore w) key.
Proof.
  unfold result_of, redis_setCached, bind, gets, jitter_latency. cbn.
  destruct (redisStore w !! key) as [value|] eqn:Hstored.
  - rewrite (has_true _ _ _ Hstored). destruct cached; reflexivity.
  - rewrite (has_false _ _ Hstored). reflexivity.
Qed.

(** X1. What [redis.set] stores, [redis.get] returns, cacheable or not and
    whatever the maps held before; [exists] then answers [true] and
    [getCachedStatus] the flag of the write.  A read of any other key is
    not affected by the write. *)
Theorem redis_set_then_read (key value : string) (cached : bool) (w : world) :
  let w' := world_after (redis_set key value cached) w in
  result_of (redis_get key) w' = Some value
  /\ result_of (redis_exists key) w' = true
  /\ result_of (redis_getCachedStatus key) w' = Some cached
  /\ forall other, other <> key ->
       result_of (redis_get other) w' = result_of (redis_get other) w
       /\ result_of (redis_exists other) w' = result_of (redis_exists other) w
       /\ result_of (redis_getCachedStatus other) w'
          = result_of (redis_getCachedStatus other) w.
Proof.
  intros w'. subst w'.
  rewrite !redis_get_result, !redis_exists_result, !redis_getCachedStatus_result.
  rewrite redis_set_redisStore, redis_set_redisCache.
  assert (has (<[key:=value]> (redisStore w)) key = true) as Hstored
    by (apply (has_true _ _ value), lookup_insert_eq).
  rewrite Hstored. split; [|split; [reflexivity|split]].
  - destruct cached.
    + rewrite lookup_insert_eq. reflexivity.
    + rewrite lookup_delete_eq. apply lookup_insert_eq.
  - destruct cached.
    + rewrite (has_true _ _ value) by apply lookup_insert_eq. reflexivity.
    + rewrite has_false by apply lookup_delete_eq. reflexivity.
  - intros other Hother.
    rewrite !redis_get_result, !redis_exists_result, !redis_getCachedStatus_result.
    rewrite ?redis_set_redisStore, ?redis_set_redisCache. unfold has.
    assert (<[key:=value]> (redisStore w) !! other = redisStore w !! other) as ->
      by (apply lookup_insert_ne; congruence).
    assert ((if cached then <[key:=value]> (redisCache w) else delete key (redisCache w))
              !! other = redisCache w !! other) as ->.
    { destruct cached; [apply lookup_insert_ne|apply lookup_delete_ne]; congruence. }
    repeat split.
Qed.

Lemma redis_set_then_read_witness :
  result_of (redis_get "a") (world_after (redis_set "b" "2" false) cached_world)
  = result_of (redis_get "a") cached_world.
Proof.
  destruct (redis_set_then_read "b" "2" false cached_world) as (_ & _ & _ & Hother).
  apply (Hother "a"). discriminate.
Defined.

(** X2. [redis.del] answers whether the backing store held the key.
    Afterwards the key is gone for every reader: [get] and
    [getCachedStatus] return [null] and [exists] returns [false], also when
    the key sat in the hot cache.  Reads of other keys are not affected. *)
Theorem redis_del_removes_the_key (key : string) (w : world) :
  let w' := world_after (redis_del key) w in
  (result_of (redis_del key) w = true <-> is_Some (redisStore w !! key))
  /\ result_of (redis_get key) w' = None
  /\ result_of (redis_exists key) w' = false
  /\ result_of (redis_getCachedStatus key) w' = None
  /\ forall other, other <> key ->
       result_of (redis_get other) w' = result_of (redis_get other) w
       /\ result_of (redis_exists other) w' = result_of (redis_exists other) w.
Proof.
  intros w'. subst w'.
  rewrite redis_del_result, !redis_get_result, !redis_exists_result,
    !redis_getCachedStatus_result.
  destruct (redis_del_maps key w) as [Hstore Hcache]. rewrite Hstore, Hcache.
  split; [apply has_is_Some|].
  rewrite !lookup_delete_eq.
  rewrite (has_false (delete key (redisStore w)) key) by apply lookup_delete_eq.
  repeat split.
  - rewrite !redis_get_result, Hstore, Hcache.
    rewrite !lookup_delete_ne by congruence. reflexivity.
  - rewrite !redis_exists_result, Hstore. unfold has.
    rewrite lookup_delete_ne by congruence. reflexivity.
Qed.

Lemma redis_del_removes_the_key_witness :
  result_of (redis_del "k") cached_world = true
  /\ result_of (redis_get "k") (world_after (redis_del "k") cached_world) = None.
Proof.
  destruct (redis_del_removes_the_key "k" cached_world) as (Hhad & Hgone & _).
  split; [|exact Hgone]. apply Hhad. vm_compute. eauto.
Defined.

(** X3. [redis.setCached] on a key the backing store does not hold answers
    [false] and changes neither map.  On a key it holds, it answers [true];
    afterwards [getCachedStatus] reports the requested flag and [get]
    returns the value of the backing store, even if the hot cache held
    another value before. *)
Theorem redis_setCached_follows_the_store (key : string) (cached : bool) (w : world) :
  let w' := world_after (redis_setCached key cached) w in
  (redisStore w !! key = None ->
     result_of (redis_setCached key cached) w = false
     /\ redisStore w' = redisStore w /\ redisCache w' = redisCache w)
  /\ (forall value, redisStore w !! key = Some value ->
        result_of (redis_setCached key cached) w = true
        /\ result_of (redis_getCachedStatus key) w' = Some cached
        /\ result_of (redis_get key) w' = Some value
        /\ redisStore w' = redisStore w).
Proof.
  intros w'. subst w'.
  destruct (redis_setCached_maps key cached w) as [Hstore Hcache].
  rewrite redis_setCached_result, redis_getCachedStatus_result, redis_get_result.
  rewrite Hstore, Hcache. split.
  - intros Hmissing. rewrite Hmissing, (has_false _ _ Hmissing). repeat split.
  - intros value Hstored. rewrite Hstored, (has_true _ _ _ Hstored).
    split; [reflexivity|]. destruct cached.
    + rewrite (has_true _ _ value) by apply lookup_insert_eq.
      rewrite lookup_insert_eq. repeat split.
    + rewrite has_false by apply lookup_delete_eq.
      rewrite lookup_delete_eq. repeat split.
Qed.

Lemma redis_setCached_follows_the_store_witness :
  result_of (redis_setCached "k" false) cached_world = true
  /\ result_of (redis_getCachedStatus "k")
       (world_after (redis_setCached "k" false) cached_world) = Some false
  /\ result_of (redis_get "k") (world_after (redis_setCached "k" false) cached_world)
     = Some "v".
Proof.
  destruct (redis_setCached_follows_the_store "k" false cached_world) as [_ Hheld].
  destruct (Hheld "v") as (Hanswer & Hstatus & Hget & _); [vm_compute; reflexivity|].
  repeat split; assumption.
Defined.

(** X4. After [redis.flushAll] nothing is left in the cached tier: for every
    key [get] and [getCachedStatus] return [null] and [exists] returns
    [false]; the uncached tier keeps its map. *)
Theorem redis_flushAll_forgets_everything (key : string) (w : world) :
  let w' := world_after redis_flushAll w in
  result_of (redis_get key) w' = None
  /\ result_of (redis_exists key) w' = false
  /\ result_of (redis_getCachedStatus key) w' = None
  /\ dbStore w' = dbStore w.
Proof.
  intros w'. subst w'.
  rewrite redis_get_result, redis_exists_result, redis_getCachedStatus_result.
  destruct (redis_flushAll_maps w) as [-> ->].
  rewrite !lookup_empty, (has_false ∅ key) by apply lookup_empty.
  repeat split.
Qed.

(* ===================================================================== *)
(** ** The delay of each operation *)
(* ===================================================================== *)

Lemma simulateLatency_one_timer (lo hi : Q) (w : world) :
  (lo <= hi)%Q -> draws_in_unit_interval w ->
  one_timer_within lo hi (simulateLatency lo hi) w.
Proof.
  intros Hrange Hw. destruct (Hw (cursor w)) as [Hnonneg Hbelow].
  split; [reflexivity|]. eexists. split; [reflexivity|].
  apply latency_in_range; assumption.
Qed.

Lemma one_timer_within_same {A B} (lo hi : Q) (m : M A) (m' : M B) (w : world) :
  cursor (world_after m w) = cursor (world_after m' w) ->
  timeouts (world_after m w) = timeouts (world_after m' w) ->
  one_timer_within lo hi m' w -> one_timer_within lo hi m w.
Proof. unfold one_timer_within. intros -> ->. auto. Qed.

Lemma double_range (r : Range.t) :
  well_formed r -> (Range.min r * 2 <= Range.max r * 2)%Q.
Proof. unfold well_formed. intros H. lra. Qed.

Lemma half_range (r : Range.t) :
  well_formed r -> (Range.min r / 2 <= Range.max r / 2)%Q.
Proof.
  unfold well_formed. intros H.
  apply Qle_shift_div_l; [reflexivity|].
  assert (Range.min r / 2 * 2 == Range.min r)%Q as -> by field. exact H.
Qed.

(** X5. On the cached tier every operation takes exactly one draw and arms
    exactly one timer.  For [set] and [del] the delay lies in the range
    [redisLatencyMs]; for [exists], [setCached] and [getCachedStatus] it
    lies in the range [networkJitterMs]; for [flushAll] it lies between
    twice the minimum and twice the maximum of [redisLatencyMs]. *)
Theorem redis_operation_delays (key value : string) (cached : bool) (w : world) :
  draws_in_unit_interval w ->
  well_formed (redisLatencyMs (simulationConfig w)) ->
  well_formed (networkJitterMs (simulationConfig w)) ->
  let latency := redisLatencyMs (simulationConfig w) in
  let jitter := networkJitterMs (simulationConfig w) in
  one_timer_within (Range.min latency) (Range.max latency) (redis_set key value cached) w
  /\ one_timer_within (Range.min latency) (Range.max latency) (redis_del key) w
  /\ one_timer_within (Range.min jitter) (Range.max jitter) (redis_exists key) w
  /\ one_timer_within (Range.min jitter) (Range.max jitter) (redis_setCached key cached) w
  /\ one_timer_within (Range.min jitter) (Range.max jitter) (redis_getCachedStatus key) w
  /\ one_timer_within (Range.min latency * 2) (Range.max latency * 2) redis_flushAll w.
Proof.
  intros Hw Hlatency Hjitter latency jitter. subst latency jitter.
  pose proof (simulateLatency_one_timer _ _ w Hlatency Hw) as Hslow.
  pose proof (simulateLatency_one_timer _ _ w Hjitter Hw) as Hfast.
  pose proof (simulateLatency_one_timer _ _ w (double_range _ Hlatency) Hw) as Hbulk.
  split; [|split; [|split; [|split; [|split]]]].
  - eapply one_timer_within_same; [| |exact Hslow]; rewrite redis_set_world; reflexivity.
  - eapply one_timer_within_same; [| |exact Hslow]; reflexivity.
  - eapply one_timer_within_same; [| |exact Hfast]; reflexivity.
  - eapply one_timer_within_same; [| |exact Hfast];
      unfold world_after, redis_setCached, bind, gets, jitter_latency; cbn;
      destruct (redisStore w !! key); try destruct cached; reflexivity.
  - eapply one_timer_within_same; [| |exact Hfast];
      unfold world_after, redis_getCachedStatus, bind, gets, jitter_latency; cbn;
      destruct (has (redisStore w) key); reflexivity.
  - eapply one_timer_within_same; [| |exact Hbulk]; reflexivity.
Qed.

Lemma redis_operation_delays_witness :
  one_timer_within 2 15 (redis_set "a" "1" true) sample_world
  /\ one_timer_within (2 * 2) (15 * 2) redis_flushAll sample_world.
Proof.
  destruct (redis_operation_delays "a" "1" true sample_world
              sample_draws_in_unit_interval)
    as (Hset & _ & _ & _ & _ & Hflush);
    [vm_compute; discriminate|vm_compute; discriminate|].
  split; [exact Hset|exact Hflush].
Defined.

(** X6. On the uncached tier every operation takes exactly one draw and arms
    exactly one timer.  For [set], [get] and [del] the delay lies in the
    range [dbLatencyMs]; for [exists] it lies between half its minimum and
    half its maximum; for [clear] between twice its minimum and twice its
    maximum. *)
Theorem db_operation_delays (key value : string) (w : world) :
  draws_in_unit_interval w ->
  well_formed (dbLatencyMs (simulationConfig w)) ->
  let latency := dbLatencyMs (simulationConfig w) in
  one_timer_within (Range.min latency) (Range.max latency) (db_set key value) w
  /\ one_timer_within (Range.min latency) (Range.max latency) (db_get key) w
  /\ one_timer_within (Range.min latency) (Range.max latency) (db_del key) w
  /\ one_timer_within (Range.min latency / 2) (Range.max latency / 2) (db_exists key) w
  /\ one_timer_within (Range.min latency * 2) (Range.max latency * 2) db_clear w.
Proof.
  intros Hw Hlatency latency. subst latency.
  pose proof (simulateLatency_one_timer _ _ w Hlatency Hw) as Hslow.
  pose proof (simulateLatency_one_timer _ _ w (half_range _ Hlatency) Hw) as Hprobe.
  pose proof (simulateLatency_one_timer _ _ w (double_range _ Hlatency) Hw) as Hbulk.
  split; [|split; [|split; [|split]]].
  - eapply one_timer_within_same; [| |exact Hslow]; reflexivity.
  - eapply one_timer_within_same; [| |exact Hslow]; reflexivity.
  - eapply one_timer_within_same; [| |exact Hslow]; reflexivity.
  - eapply one_timer_within_same; [| |exact Hprobe]; reflexivity.
  - eapply one_timer_within_same; [| |exact Hbulk]; reflexivity.
Qed.

Lemma db_operation_delays_witness :
  one_timer_within 30 200 (db_get "a") sample_world
  /\ one_timer_within (30 / 2) (200 / 2) (db_exists "a") sample_world.
Proof.
  destruct (db_operation_delays "a" "1" sample_world sample_draws_in_unit_interval)
    as (_ & Hget & _ & Hexists & _); [vm_compute; discriminate|].
  split; [exact Hget|exact Hexists].
Defined.

(* ===================================================================== *)
(** ** The uncached tier *)
(* ===================================================================== *)

Lemma db_get_result (key : string) (w : world) :
  result_of (db_get key) w = dbStore w !! key.
Proof. reflexivity. Qed.

Lemma db_exists_result (key : string) (w : world) :
  result_of (db_exists key) w = has (dbStore w) key.
Proof. reflexivity. Qed.

Lemma db_del_result (key : string) (w : world) :
  result_of (db_del key) w = has (dbStore w) key.
Proof. reflexivity. Qed.

Lemma db_set_dbStore (key value : string) (w : world) :
  dbStore (world_after (db_set key value) w) = <[key:=value]> (dbStore w).
Proof. reflexivity. Qed.

Lemma db_del_dbStore (key : string) (w : world) :
  dbStore (world_after (db_del key) w) = delete key (dbStore w).
Proof. reflexivity. Qed.

Lemma db_clear_dbStore (w : world) : dbStore (world_after db_clear w) = ∅.
Proof. reflexivity. Qed.

(** X7. What [db.set] stores, [db.get] returns, and [db.exists] then
    answers [true]; reads of any other key are not affected.  [db.get]
    returns [null] exactly when [db.exists] answers [false]. *)
Theorem db_set_then_read (key value : string) (w : world) :
  let w' := world_after (db_set key value) w in
  result_of (db_get key) w' = Some value
  /\ result_of (db_exists key) w' = true
  /\ (forall other, other <> key ->
        result_of (db_get other) w' = result_of (db_get other) w
        /\ result_of (db_exists other) w' = result_of (db_exists other) w)
  /\ (forall any, result_of (db_get any) w = None <-> result_of (db_exists any) w = false).
Proof.
  intros w'. subst w'.
  rewrite db_get_result, db_exists_result, db_set_dbStore.
  split; [apply lookup_insert_eq|].
  split; [apply (has_true _ _ value), lookup_insert_eq|]. split.
  - intros other Hother.
    rewrite !db_get_result, !db_exists_result, db_set_dbStore. unfold has.
    rewrite lookup_insert_ne by congruence. split; reflexivity.
  - intros any. rewrite db_get_result, db_exists_result. symmetry. apply has_None.
Qed.

(** X8. [db.del] answers whether the key was stored; afterwards [db.get]
    of the key returns [null] and [db.exists] answers [false], while reads
    of other keys are not affected.  After [db.clear] this holds of every
    key. *)
Theorem db_del_and_clear (key : string) (w : world) :
  let w' := world_after (db_del key) w in
  (result_of (db_del key) w = true <-> is_Some (dbStore w !! key))
  /\ result_of (db_get key) w' = None
  /\ result_of (db_exists key) w' = false
  /\ (forall other, other <> key ->
        result_of (db_get other) w' = result_of (db_get other) w)
  /\ result_of (db_get key) (world_after db_clear w) = None
  /\ result_of (db_exists key) (world_after db_clear w) = false.
Proof.
  intros w'. subst w'.
  rewrite db_del_result, !db_get_result, !db_exists_result, db_del_dbStore,
    db_clear_dbStore.
  split; [apply has_is_Some|]. split; [apply lookup_delete_eq|].
  split; [apply has_false, lookup_delete_eq|]. split.
  - intros other Hother. rewrite !db_get_result, db_del_dbStore.
    apply lookup_delete_ne. congruence.
  - split; [apply lookup_empty|apply has_false, lookup_empty].
Qed.

(* ===================================================================== *)
(** ** Properties that every step of a run keeps *)
(* ===================================================================== *)

Lemma preserves_ret {A} (I : world -> Prop) (a : A) : preserves I (ret a).
Proof. intros w Hw. exact Hw. Qed.

Lemma preserves_bind {A B} (I : world -> Prop) (m : M A) (k : A -> M B) :
  preserves I m -> (forall a, preserves I (k a)) -> preserves I (bind m k).
Proof. intros Hm Hk w Hw. rewrite world_after_bind. apply Hk, Hm, Hw. Qed.

Lemma preserves_for_loop (I : world -> Prop) (body : nat -> M unit) :
  (forall i, preserves I (body i)) ->
  forall trips start, preserves I (for_loop trips start body).
Proof.
  intros Hbody trips. induction trips as [|n IH]; intros start; cbn [for_loop].
  - apply preserves_ret.
  - apply preserves_bind; [apply Hbody|]. intros _. apply IH.
Qed.

Lemma preserves_Math_random (I : world -> Prop) :
  (forall w, I w -> I (next_draw w)) -> preserves I Math_random.
Proof. intros Hdraw w Hw. apply Hdraw, Hw. Qed.

Lemma preserves_generateValue (I : world -> Prop) (size : Z) :
  (forall w, I w -> I (next_draw w)) -> preserves I (generateValue size).
Proof.
  intros Hdraw. unfold generateValue. generalize EmptyString.
  induction (Z.to_nat size) as [|n IH]; intros result; cbn [generateValue_from].
  - apply preserves_ret.
  - apply preserves_bind; [apply preserves_Math_random, Hdraw|]. intros r. apply IH.
Qed.

Lemma preserves_mixed_key (I : world -> Prop) (requests : Z) :
  (forall w, I w -> I (next_draw w)) -> preserves I (mixed_key requests).
Proof.
  intros Hdraw. apply preserves_bind; [apply preserves_Math_random, Hdraw|].
  intros r. apply preserves_ret.
Qed.

Lemma preserves_isSetOp_of (I : world -> Prop) setOps getOps share setCount getCount :
  (forall w, I w -> I (next_draw w)) ->
  preserves I (isSetOp_of setOps getOps share setCount getCount).
Proof.
  intros Hdraw. unfold isSetOp_of.
  destruct (js_lt _ setOps); [|apply preserves_ret].
  destruct (js_ge _ getOps); [apply preserves_ret|].
  apply preserves_bind; [apply preserves_Math_random, Hdraw|]. intros r. apply preserves_ret.
Qed.

Lemma preserves_keyed_write (I : world -> Prop) prefix storage p size i :
  (forall w, I w -> I (next_draw w)) ->
  (forall key value, preserves I (storage_write storage p key value)) ->
  preserves I (keyed_write prefix storage p size i).
Proof.
  intros Hdraw Hwrite. apply preserves_bind; [apply preserves_generateValue, Hdraw|].
  intros value. apply Hwrite.
Qed.

Lemma preserves_mixed_loop (I : world -> Prop) storage p requests size setOps getOps share :
  (forall w, I w -> I (next_draw w)) ->
  (forall key value, preserves I (storage_write storage p key value)) ->
  (forall key, preserves I (storage_read storage key)) ->
  forall trips counts,
    preserves I (mixed_loop trips storage p requests size setOps getOps share counts).
Proof.
  intros Hdraw Hwrite Hread trips.
  induction trips as [|n IH]; intros counts; cbn [mixed_loop].
  - apply preserves_ret.
  - apply preserves_bind; [|intros counts'; apply IH].
    unfold mixed_trip. destruct counts as [setCount getCount].
    apply preserves_bind; [apply preserves_isSetOp_of, Hdraw|]. intros [|].
    + apply preserves_bind; [apply preserves_mixed_key, Hdraw|]. intros key.
      apply preserves_bind; [apply preserves_generateValue, Hdraw|]. intros value.
      apply preserves_bind; [apply Hwrite|]. intros _. apply preserves_ret.
    + apply preserves_bind; [apply preserves_mixed_key, Hdraw|]. intros key.
      apply preserves_bind; [apply Hread|]. intros _. apply preserves_ret.
Qed.

Lemma preserves_run_operations (I : world -> Prop) type storage requests size
    setRatio getRatio p :
  (forall w, I w -> I (next_draw w)) ->
  (forall key value, preserves I (storage_write storage p key value)) ->
  (forall key, preserves I (storage_read storage key)) ->
  preserves I (run_operations type storage requests size setRatio getRatio p).
Proof.
  intros Hdraw Hwrite Hread. unfold run_operations.
  destruct (String.eqb type "set").
  { apply preserves_for_loop. intros i.
    apply (preserves_keyed_write I "benchmark:"); assumption. }
  destruct (String.eqb type "get").
  { apply preserves_bind.
    - apply preserves_for_loop. intros i.
      apply (preserves_keyed_write I "benchmark:get:"); assumption.
    - intros _. apply preserves_for_loop. intros i. apply Hread. }
  destruct (String.eqb type "mixed"); [|apply preserves_ret].
  apply preserves_bind.
  - apply preserves_for_loop. intros i.
    apply (preserves_keyed_write I "benchmark:mixed:"); assumption.
  - intros _. apply preserves_bind; [apply preserves_mixed_loop; assumption|].
    intros counts. apply preserves_ret.
Qed.

Lemma preserves_runBenchmark (I : world -> Prop) (config : Config.t) :
  (forall w, I w -> I (next_draw w)) ->
  (forall w, I w -> I (next_tick w)) ->
  (forall p key value, preserves I (storage_write (storage_of config) p key value)) ->
  (forall key, preserves I (storage_read (storage_of config) key)) ->
  preserves I (runBenchmark config).
Proof.
  intros Hdraw Htick Hwrite Hread w Hw. rewrite runBenchmark_world.
  apply Hdraw, Htick. unfold operations_of.
  apply preserves_run_operations; auto.
Qed.

Lemma storage_write_maps storage p key value (w : world) :
  let w' := world_after (storage_write storage p key value) w in
  if is_redis storage
  then dbStore w' = dbStore w
       /\ redisStore w' = <[key:=value]> (redisStore w)
       /\ redisCache w'
          = (if js_lt (Fin (draws w (cursor w))) p
             then <[key:=value]> (redisCache w) else delete key (redisCache w))
  else dbStore w' = <[key:=value]> (dbStore w)
       /\ redisStore w' = redisStore w /\ redisCache w' = redisCache w.
Proof.
  cbv zeta. unfold storage_write. destruct (is_redis storage).
  - rewrite world_after_bind, world_after_then_ret.
    rewrite redis_set_redisStore, redis_set_redisCache, redis_set_world.
    repeat split.
  - rewrite world_after_then_ret. repeat split.
Qed.

Lemma redis_get_dbStore (key : string) (w : world) :
  dbStore (world_after (redis_get key) w) = dbStore w.
Proof.
  unfold world_after. destruct (redisCache w !! key) as [value|] eqn:Hlookup.
  - rewrite (redis_get_hit _ _ _ Hlookup). reflexivity.
  - rewrite (redis_get_miss _ _ Hlookup). reflexivity.
Qed.

Lemma storage_read_maps storage key (w : world) :
  same_maps w (world_after (storage_read storage key) w).
Proof.
  unfold storage_read, same_maps. destruct (is_redis storage); rewrite world_after_then_ret.
  - destruct (redis_get_maps key w) as [Hstore Hcache].
    split; [exact Hstore|]. split; [|exact Hcache]. apply redis_get_dbStore.
  - repeat split.
Qed.

(* ===================================================================== *)
(** ** Sessions: the two tiers side by side *)
(* ===================================================================== *)

Lemma perform_dbStore (op : redis_op) (w : world) :
  dbStore (world_after (perform op) w) = dbStore w.
Proof.
  destruct op as [key value cached|key|key|key|key cached|key|]; cbn [perform];
    rewrite world_after_then_ret.
  - rewrite redis_set_world. reflexivity.
  - apply redis_get_dbStore.
  - reflexivity.
  - reflexivity.
  - unfold world_after, redis_setCached, bind, gets, jitter_latency. cbn.
    destruct (redisStore w !! key); [destruct cached|]; reflexivity.
  - unfold world_after, redis_getCachedStatus, bind, gets, jitter_latency. cbn.
    destruct (has (redisStore w) key); reflexivity.
  - reflexivity.
Qed.

Lemma db_perform_redis_maps (op : db_op) (w : world) :
  redisStore (world_after (db_perform op) w) = redisStore w
  /\ redisCache (world_after (db_perform op) w) = redisCache w.
Proof. destruct op; split; reflexivity. Qed.

Lemma updateSimulationConfig_maps (params : simulation_params) (w : world) :
  same_maps w (world_after (updateSimulationConfig params) w).
Proof. repeat split. Qed.

Lemma preserves_run_on_tier (I : world -> Prop) (config : Config.t) :
  (forall w, I w -> I (next_draw w)) ->
  (forall w, I w -> I (next_tick w)) ->
  (forall p key value, preserves I (storage_write (storage_of config) p key value)) ->
  (forall key, preserves I (storage_read (storage_of config) key)) ->
  preserves I (run runBenchmark config then ret tt).
Proof.
  intros Hdraw Htick Hwrite Hread w Hw. rewrite world_after_then_ret.
  apply preserves_runBenchmark; assumption.
Qed.

Lemma run_off_redis (config : Config.t) (store cache : gmap string string) :
  storage_of config <> "redis" ->
  preserves (fun w => redisStore w = store /\ redisCache w = cache) (runBenchmark config).
Proof.
  intros Hoff. apply is_redis_false in Hoff.
  apply preserves_runBenchmark; try (intros w Hw; exact Hw).
  - intros p key value w [Hstore Hcache].
    pose proof (storage_write_maps (storage_of config) p key value w) as Hmaps.
    cbv zeta in Hmaps. rewrite Hoff in Hmaps. destruct Hmaps as (_ & -> & ->). auto.
  - intros key w [Hstore Hcache].
    destruct (storage_read_maps (storage_of config) key w) as (-> & _ & ->). auto.
Qed.

Lemma run_off_db (config : Config.t) (store : gmap string string) :
  storage_of config = "redis" ->
  preserves (fun w => dbStore w = store) (runBenchmark config).
Proof.
  intros Hon. apply is_redis_true in Hon.
  apply preserves_runBenchmark; try (intros w Hw; exact Hw).
  - intros p key value w Hstore.
    pose proof (storage_write_maps (storage_of config) p key value w) as Hmaps.
    cbv zeta in Hmaps. rewrite Hon in Hmaps. destruct Hmaps as (-> & _). exact Hstore.
  - intros key w Hstore.
    destruct (storage_read_maps (storage_of config) key w) as (_ & -> & _). exact Hstore.
Qed.

(** X9. The two tiers never touch each other's maps.  A session made of
    operations of the uncached tier, updates of the simulation parameters
    and runs on a storage other than ['redis'] leaves the backing store and
    the hot cache of the cached tier as they were; a session made of
    operations of the cached tier, updates and runs on ['redis'] leaves the
    map of the uncached tier as it was. *)
Theorem tiers_are_isolated (activities : list activity) (w : world) :
  (Forall off_redis activities ->
   redisStore (world_after (session activities) w) = redisStore w
   /\ redisCache (world_after (session activities) w) = redisCache w)
  /\ (Forall off_db activities ->
      dbStore (world_after (session activities) w) = dbStore w).
Proof.
  split.
  - intros Hoff. revert w. induction Hoff as [|a rest Ha _ IH]; intros w; [auto|].
    cbn [session]. rewrite world_after_bind.
    destruct (IH (world_after (act a) w)) as [-> ->]. clear IH.
    destruct a as [op|op|params|config]; cbn [act off_redis] in *.
    + contradiction.
    + apply db_perform_redis_maps.
    + auto.
    + rewrite world_after_then_ret.
      apply (run_off_redis config (redisStore w) (redisCache w) Ha). auto.
  - intros Hoff. revert w. induction Hoff as [|a rest Ha _ IH]; intros w; [auto|].
    cbn [session]. rewrite world_after_bind, IH. clear IH.
    destruct a as [op|op|params|config]; cbn [act off_db] in *.
    + apply perform_dbStore.
    + contradiction.
    + auto.
    + rewrite world_after_then_ret. apply (run_off_db config (dbStore w) Ha). auto.
Qed.

Lemma tiers_are_isolated_witness :
  dbStore (world_after (session [OnRedis (OpSet "a" "1" true);
                                 Benchmark (configuration "mixed" "redis" 4 2 "1:1" "1:1");
                                 OnRedis OpFlushAll]) sample_world)
  = dbStore sample_world.
Proof.
  apply tiers_are_isolated. repeat constructor.
Defined.

Lemma storage_write_keeps_cache_included storage p key value :
  preserves cache_included (storage_write storage p key value).
Proof.
  intros w Hincl. unfold cache_included.
  pose proof (storage_write_maps storage p key value w) as Hmaps. cbv zeta in Hmaps.
  destruct (is_redis storage).
  - destruct Hmaps as (_ & -> & ->). destruct (js_lt _ p).
    + apply cache_included_insert, Hincl.
    + apply cache_included_delete_insert, Hincl.
  - destruct Hmaps as (_ & -> & ->). exact Hincl.
Qed.

Lemma storage_read_keeps_cache_included storage key :
  preserves cache_included (storage_read storage key).
Proof.
  intros w Hincl. unfold cache_included.
  destruct (storage_read_maps storage key w) as (-> & _ & ->). exact Hincl.
Qed.

Lemma act_keeps_cache_included (a : activity) : preserves cache_included (act a).
Proof.
  destruct a as [op|op|params|config]; cbn [act]; intros w Hincl.
  - apply perform_keeps_cache_included, Hincl.
  - unfold cache_included. destruct (db_perform_redis_maps op w) as [-> ->]. exact Hincl.
  - exact Hincl.
  - revert w Hincl. apply preserves_run_on_tier; try (intros w Hw; exact Hw).
    + intros p key value. apply storage_write_keeps_cache_included.
    + intros key. apply storage_read_keeps_cache_included.
Qed.

Lemma session_keeps_cache_included (activities : list activity) :
  preserves cache_included (session activities).
Proof.
  induction activities as [|a rest IH]; intros w Hincl; [exact Hincl|].
  cbn [session]. rewrite world_after_bind. apply IH, act_keeps_cache_included, Hincl.
Qed.

(** X10. Benchmark runs keep the inclusion of the hot cache in the backing
    store: from the freshly loaded module, after any session of client
    operations on both tiers, updates of the simulation parameters and
    benchmark runs, every key of the hot cache is in the backing store with
    the same value; so [redis.get] returns the entry of the backing store,
    never a stale or orphan value of the hot cache, and it returns [null]
    exactly when [redis.exists] answers [false]. *)
Theorem sessions_keep_the_cache_fresh (rnd clk : nat -> Q) (activities : list activity)
    (key : string) :
  let w := world_after (session activities) (fresh_world rnd clk) in
  cache_included w
  /\ result_of (redis_get key) w = redisStore w !! key
  /\ (result_of (redis_get key) w = None <-> result_of (redis_exists key) w = false).
Proof.
  intros w.
  assert (cache_included w) as Hincl.
  { apply session_keeps_cache_included. intros k v. cbn.
    rewrite lookup_empty. discriminate. }
  assert (result_of (redis_get key) w = redisStore w !! key) as Hget.
  { rewrite redis_get_result.
    destruct (redisCache w !! key) as [value|] eqn:Hcached; [|reflexivity].
    symmetry. apply Hincl, Hcached. }
  split; [exact Hincl|]. split; [exact Hget|].
  rewrite Hget, redis_exists_result. symmetry. apply has_None.
Qed.

(* ===================================================================== *)
(** ** Updating the simulation parameters *)
(* ===================================================================== *)

(** X11. [updateSimulationConfig] touches no map, applying the same update
    twice is applying it once, and a range the argument does not carry
    ([networkJitterMs] here) is kept.  The operations that follow use the new
    ranges: after an update that carries [redisLatencyMs] and
    [dbLatencyMs], the timer of a [redis.set] lies in the new cached-tier
    range and the timer of a [db.get] in the new uncached-tier range. *)
Theorem updateSimulationConfig_takes_effect (params : simulation_params) (w : world) :
  let w' := world_after (updateSimulationConfig params) w in
  world_after (updateSimulationConfig params) w' = w'
  /\ same_maps w w'
  /\ (new_networkJitterMs params = None ->
      networkJitterMs (simulationConfig w') = networkJitterMs (simulationConfig w))
  /\ (forall fast slow key value cached,
        new_redisLatencyMs params = Some fast ->
        new_dbLatencyMs params = Some slow ->
        well_formed fast -> well_formed slow ->
        draws_in_unit_interval w ->
        one_timer_within (Range.min fast) (Range.max fast) (redis_set key value cached) w'
        /\ one_timer_within (Range.min slow) (Range.max slow) (db_get key) w').
Proof.
  intros w'. subst w'. split; [|split; [|split]].
  - unfold world_after, updateSimulationConfig, modify, with_simulationConfig. cbn.
    destruct (new_redisLatencyMs params), (new_dbLatencyMs params),
      (new_networkJitterMs params); reflexivity.
  - repeat split.
  - intros Hnone. cbn. rewrite Hnone. reflexivity.
  - intros fast slow key value cached Hfast Hslow Hwf_fast Hwf_slow Hw.
    set (w' := world_after (updateSimulationConfig params) w).
    assert (draws_in_unit_interval w') as Hw' by exact Hw.
    assert (redisLatencyMs (simulationConfig w') = fast) as Hredis
      by (cbn; rewrite Hfast; reflexivity).
    assert (dbLatencyMs (simulationConfig w') = slow) as Hdb
      by (cbn; rewrite Hslow; reflexivity).
    split.
    + eapply one_timer_within_same;
        [| |apply (simulateLatency_one_timer (Range.min fast) (Range.max fast) w'
                     Hwf_fast Hw')];
        rewrite redis_set_world, Hredis; reflexivity.
    + eapply one_timer_within_same;
        [| |apply (simulateLatency_one_timer (Range.min slow) (Range.max slow) w'
                     Hwf_slow Hw')];
        unfold world_after; rewrite db_get_run, Hdb; reflexivity.
Qed.

Lemma updateSimulationConfig_takes_effect_witness :
  one_timer_within 0 1
    (redis_set "a" "1" false)
    (world_after
       (updateSimulationConfig
          {| new_redisLatencyMs := Some {| Range.min := 0; Range.max := 1 |};
             new_dbLatencyMs := Some {| Range.min := 5; Range.max := 6 |};
             new_networkJitterMs := None |}) sample_world).
Proof.
  destruct (updateSimulationConfig_takes_effect
              {| new_redisLatencyMs := Some {| Range.min := 0; Range.max := 1 |};
                 new_dbLatencyMs := Some {| Range.min := 5; Range.max := 6 |};
                 new_networkJitterMs := None |} sample_world)
    as (_ & _ & _ & Huse).
  apply (Huse {| Range.min := 0; Range.max := 1 |} {| Range.min := 5; Range.max := 6 |}
           "a" "1" false eq_refl eq_refl).
  - vm_compute. discriminate.
  - vm_compute. discriminate.
  - exact sample_draws_in_unit_interval.
Defined.

(* ===================================================================== *)
(** ** The generated payloads *)
(* ===================================================================== *)

Lemma length_append (s t : string) :
  String.length (s ++ t) = (String.length s + String.length t)%nat.
Proof. induction s as [|c s IH]; simpl; [reflexivity|]. rewrite IH. reflexivity. Qed.

Lemma list_ascii_of_append (s t : string) :
  list_ascii_of_string (s ++ t)
  = (list_ascii_of_string s ++ list_ascii_of_string t)%list.
Proof. induction s as [|c s IH]; simpl; [reflexivity|]. rewrite IH. reflexivity. Qed.

Lemma get_within (s : string) :
  forall n, (n < String.length s)%nat ->
    exists c, String.get n s = Some c /\ In c (list_ascii_of_string s).
Proof.
  induction s as [|a s IH]; intros n Hn; cbn in Hn; [lia|].
  destruct n as [|n]; cbn.
  - exists a. split; [reflexivity|left; reflexivity].
  - destruct (IH n ltac:(lia)) as (c & Hget & Hin). exists c. split; [exact Hget|right].
    exact Hin.
Qed.

Lemma floor_of_scaled_draw (r : Q) (n : Z) :
  (0 <= r)%Q -> (r < 1)%Q -> 0 < n ->
  0 <= Qfloor (r * inject_Z n) < n.
Proof.
  intros Hnonneg Hbelow Hn.
  assert (0 < inject_Z n)%Q as Hn' by (change 0%Q with (inject_Z 0); rewrite <- Zlt_Qlt; lia).
  split.
  - change 0 with (Qfloor (inject_Z 0)). apply Qfloor_resp_le.
    change (inject_Z 0) with 0%Q. nra.
  - pose proof (Qfloor_le (r * inject_Z n)) as Hfloor.
    rewrite Zlt_Qlt. apply (Qle_lt_trans _ _ _ Hfloor). nra.
Qed.

Lemma chars_are_alphanumeric :
  forall c, In c (list_ascii_of_string chars) -> alphanumeric c = true.
Proof.
  apply forallb_forall. vm_compute. reflexivity.
Qed.

Lemma picked_char (r : Q) :
  (0 <= r)%Q -> (r < 1)%Q ->
  exists c, charAt chars (Qfloor (r * inject_Z (Z.of_nat (String.length chars))))
            = String c EmptyString
            /\ alphanumeric c = true.
Proof.
  intros Hnonneg Hbelow.
  destruct (floor_of_scaled_draw r (Z.of_nat (String.length chars)) Hnonneg Hbelow
              ltac:(cbn; lia)) as [Hlo Hhi].
  unfold charAt. destruct (Z.ltb_spec (Qfloor (r * inject_Z (Z.of_nat (String.length chars)))) 0)
    as [Hneg|_]; [lia|].
  destruct (get_within chars (Z.to_nat (Qfloor (r * inject_Z (Z.of_nat (String.length chars))))))
    as (c & Hget & Hin); [lia|].
  rewrite Hget. exists c. split; [reflexivity|]. apply chars_are_alphanumeric, Hin.
Qed.

Lemma generateValue_from_spec :
  forall trips result w,
    draws_in_unit_interval w ->
    let value := result_of (generateValue_from trips result) w in
    String.length value = (String.length result + trips)%nat
    /\ (Forall (fun c => alphanumeric c = true) (list_ascii_of_string result) ->
        Forall (fun c => alphanumeric c = true) (list_ascii_of_string value))
    /\ cursor (world_after (generateValue_from trips result) w) = (cursor w + trips)%nat.
Proof.
  induction trips as [|n IH]; intros result w Hw; cbn zeta.
  - cbn. repeat split; auto; lia.
  - cbn [generateValue_from]. rewrite result_of_bind, world_after_bind.
    change (result_of Math_random w) with (draws w (cursor w)).
    change (world_after Math_random w) with (next_draw w).
    destruct (Hw (cursor w)) as [Hnonneg Hbelow].
    destruct (picked_char _ Hnonneg Hbelow) as (c & -> & Hc).
    destruct (IH (result ++ String c EmptyString) (next_draw w) Hw)
      as (Hlen & Hall & Hcursor).
    cbv zeta in Hlen, Hall, Hcursor. rewrite Hlen, Hcursor, length_append. cbn.
    split; [lia|]. split; [|lia].
    intros Hresult. apply Hall. rewrite list_ascii_of_append. apply Forall_app.
    split; [exact Hresult|]. cbn. repeat constructor. exact Hc.
Qed.

(** X12. With draws in [[0, 1)], [generateValue(size)] returns a string of
    exactly [size] characters (none when [size] is not positive), each of
    them a letter or a digit; it takes one draw per character and touches
    neither the maps nor the call log. *)
Theorem generateValue_is_alphanumeric (size : Z) (w : world) :
  draws_in_unit_interval w ->
  let value := result_of (generateValue size) w in
  let w' := world_after (generateValue size) w in
  String.length value = Z.to_nat size
  /\ Forall (fun c => alphanumeric c = true) (list_ascii_of_string value)
  /\ cursor w' = (cursor w + Z.to_nat size)%nat
  /\ calls w' = calls w
  /\ same_maps w w'.
Proof.
  intros Hw value w'. subst value w'.
  destruct (generateValue_from_spec (Z.to_nat size) EmptyString w Hw)
    as (Hlen & Hall & Hcursor).
  split; [exact Hlen|]. split; [apply Hall; constructor|]. split; [exact Hcursor|].
  split; [apply (unchanged_generateValue calls), draw_blind_calls|].
  repeat split; apply unchanged_generateValue; intros w0; reflexivity.
Qed.

Lemma generateValue_is_alphanumeric_witness :
  String.length (result_of (generateValue 8) sample_world) = 8%nat
  /\ Forall (fun c => alphanumeric c = true)
       (list_ascii_of_string (result_of (generateValue 8) sample_world)).
Proof.
  destruct (generateValue_is_alphanumeric 8 sample_world sample_draws_in_unit_interval)
    as (Hlen & Hall & _).
  split; [exact Hlen|exact Hall].
Defined.

(* ===================================================================== *)
(** ** What the reads of a ['get'] run return *)
(* ===================================================================== *)

Lemma append_inv_head (prefix s t : string) : prefix ++ s = prefix ++ t -> s = t.
Proof.
  induction prefix as [|c prefix IH]; simpl; [auto|]. intros [= H]. apply IH, H.
Qed.

Lemma keyed_name_inj (prefix : string) (i j : nat) :
  prefix ++ template_nat i = prefix ++ template_nat j -> i = j.
Proof. intros H. apply append_inv_head in H. apply (inj pretty) in H. exact H. Qed.

Lemma not_in_later_keys (prefix : string) (start trips : nat) :
  ~ In (prefix ++ template_nat start) (keys_from prefix (S start) trips).
Proof.
  unfold keys_from. rewrite in_map_iff. intros (j & Hname & Hj).
  apply keyed_name_inj in Hname. apply in_seq in Hj. lia.
Qed.

Lemma tier_read_same_maps storage (w w' : world) (key : string) :
  same_maps w w' -> tier_read storage w' key = tier_read storage w key.
Proof. unfold tier_read. intros (-> & -> & ->). reflexivity. Qed.

Lemma storage_write_tier_read storage p key value (w : world) (k : string) :
  tier_read storage (world_after (storage_write storage p key value) w) k
  = if decide (k = key) then Some value else tier_read storage w k.
Proof.
  pose proof (storage_write_maps storage p key value w) as Hmaps. cbv zeta in Hmaps.
  unfold tier_read. destruct (is_redis storage).
  - destruct Hmaps as (_ & -> & ->). case_decide as Hk.
    + subst k. destruct (js_lt _ p).
      * rewrite lookup_insert_eq. reflexivity.
      * rewrite lookup_delete_eq. apply lookup_insert_eq.
    + rewrite lookup_insert_ne by congruence.
      destruct (js_lt _ p); [rewrite lookup_insert_ne|rewrite lookup_delete_ne];
        congruence.
  - destruct Hmaps as (-> & _). case_decide as Hk.
    + subst k. apply lookup_insert_eq.
    + apply lookup_insert_ne. congruence.
Qed.

Lemma generateValue_same_maps (size : Z) (w : world) :
  same_maps w (world_after (generateValue size) w).
Proof. repeat split; apply unchanged_generateValue; intros w0; reflexivity. Qed.

Lemma keyed_write_written prefix storage p size i (w : world) :
  let w' := world_after (keyed_write prefix storage p size i) w in
  exists c,
    calls w' = (calls w ++ [c])%list
    /\ is_set c = true
    /\ call_key c = prefix ++ template_nat i
    /\ forall k, tier_read storage w' k
                 = if decide (k = prefix ++ template_nat i) then call_value c
                   else tier_read storage w k.
Proof.
  cbv zeta. unfold keyed_write. rewrite world_after_bind.
  set (w1 := world_after (generateValue size) w).
  set (value := result_of (generateValue size) w).
  exists (if is_redis storage
          then RedisSet (prefix ++ template_nat i) value
                 (js_lt (Fin (draws w1 (cursor w1))) p)
          else DbSet (prefix ++ template_nat i) value).
  split.
  { rewrite storage_write_calls. unfold w1.
    rewrite (unchanged_generateValue calls size draw_blind_calls). reflexivity. }
  split; [destruct (is_redis storage); reflexivity|].
  split; [destruct (is_redis storage); reflexivity|].
  intros k. rewrite storage_write_tier_read.
  rewrite (tier_read_same_maps storage w w1 k (generateValue_same_maps size w)).
  destruct (is_redis storage); reflexivity.
Qed.

Lemma keyed_write_loop_written prefix storage p size :
  forall trips start w,
    let w' := world_after (for_loop trips start (keyed_write prefix storage p size)) w in
    exists sets,
      calls w' = (calls w ++ sets)%list
      /\ map call_key sets = keys_from prefix start trips
      /\ (forall c, In c sets -> tier_read storage w' (call_key c) = call_value c)
      /\ (forall k, ~ In k (keys_from prefix start trips) ->
                    tier_read storage w' k = tier_read storage w k).
Proof.
  induction trips as [|n IH]; intros start w; cbn zeta.
  - exists []. cbn. rewrite app_nil_r. repeat split; auto. intros c [].
  - cbn [for_loop]. rewrite world_after_bind.
    destruct (keyed_write_written prefix storage p size start w)
      as (c & Hc & _ & Hkey & Hread).
    cbv zeta in Hc, Hread.
    set (w1 := world_after (keyed_write prefix storage p size start) w) in *.
    destruct (IH (S start) w1) as (sets & Hcalls & Hkeys & Hwritten & Hframe).
    cbv zeta in Hcalls, Hwritten, Hframe.
    exists (c :: sets). split; [|split; [|split]].
    + rewrite Hcalls, Hc, <- app_assoc. reflexivity.
    + unfold keys_from in *. cbn. rewrite Hkey, Hkeys. reflexivity.
    + intros c' [<-|Hin]; [|apply Hwritten, Hin].
      rewrite Hframe by (rewrite Hkey; apply not_in_later_keys).
      rewrite Hread, Hkey. rewrite decide_True by reflexivity. reflexivity.
    + intros k Hk. unfold keys_from in Hk. cbn in Hk.
      rewrite Hframe by (intros Hin; apply Hk; right; exact Hin).
      rewrite Hread. rewrite decide_False; [reflexivity|].
      intros ->. apply Hk. left. reflexivity.
Qed.

Lemma storage_read_found storage key (w : world) :
  exists c,
    calls (world_after (storage_read storage key) w) = (calls w ++ [c])%list
    /\ call_key c = key
    /\ call_value c = tier_read storage w key.
Proof.
  unfold storage_read, tier_read. destruct (is_redis storage).
  - rewrite world_after_then_ret, redis_get_calls, redis_get_result.
    eexists. split; [reflexivity|]. split; reflexivity.
  - rewrite world_after_then_ret. unfold world_after. rewrite db_get_run. cbn [snd].
    eexists. split; [reflexivity|]. split; reflexivity.
Qed.

Lemma read_loop_found storage :
  forall trips start w,
    let w' := world_after (for_loop trips start (read_trip storage)) w in
    exists gets,
      calls w' = (calls w ++ gets)%list
      /\ map call_value gets
         = map (tier_read storage w) (keys_from "benchmark:get:" start trips).
Proof.
  induction trips as [|n IH]; intros start w; cbn zeta.
  - exists []. cbn. rewrite app_nil_r. split; reflexivity.
  - cbn [for_loop]. rewrite world_after_bind.
    destruct (storage_read_found storage ("benchmark:get:" ++ template_nat start) w)
      as (c & Hc & _ & Hvalue).
    change (world_after (read_trip storage start) w)
      with (world_after (storage_read storage ("benchmark:get:" ++ template_nat start)) w).
    set (w1 := world_after (storage_read storage ("benchmark:get:" ++ template_nat start)) w)
      in *.
    destruct (IH (S start) w1) as (gets & Hcalls & Hvalues). cbv zeta in Hcalls.
    exists (c :: gets). split.
    + rewrite Hcalls, Hc, <- app_assoc. reflexivity.
    + unfold keys_from in *. cbn. rewrite Hvalue, Hvalues. f_equal.
      apply map_ext. intros key. apply tier_read_same_maps, storage_read_maps.
Qed.

(** X13. In a ['get'] run, on either tier and whatever the maps held
    before, every read returns the value that the population phase wrote
    under its key: read by read, the values read are the values written. *)
Theorem get_run_reads_what_it_wrote (config : Config.t) (w : world) :
  type_of config = "get" ->
  exists sets gets,
    calls (world_after (runBenchmark config) w) = (calls w ++ sets ++ gets)%list
    /\ length sets = Z.to_nat (requests_of config)
    /\ map call_key gets = map call_key sets
    /\ map call_value gets = map call_value sets.
Proof.
  intros Htype. rewrite runBenchmark_calls. unfold operations_of, run_operations.
  rewrite Htype. cbn [String.eqb Ascii.eqb Bool.eqb]. rewrite world_after_bind.
  destruct (keyed_write_loop_written "benchmark:get:" (storage_of config)
              (cachedProbability_of (cachedRatio_of config)) (size_of config)
              (Z.to_nat (requests_of config)) O (next_tick w))
    as (sets & Hcalls & Hkeys & Hwritten & _).
  cbv zeta in Hcalls, Hwritten.
  change (keyed_write "benchmark:get:" (storage_of config)
            (cachedProbability_of (cachedRatio_of config)) (size_of config))
    with (populate_trip (storage_of config)
            (cachedProbability_of (cachedRatio_of config)) (size_of config))
    in Hcalls, Hwritten.
  set (w1 := world_after (for_loop (Z.to_nat (requests_of config)) 0
                            (populate_trip (storage_of config)
                               (cachedProbability_of (cachedRatio_of config))
                               (size_of config))) (next_tick w)) in *.
  destruct (read_loop_found (storage_of config) (Z.to_nat (requests_of config)) O w1)
    as (gets & Hcalls' & Hvalues).
  destruct (read_loop_calls (storage_of config) (Z.to_nat (requests_of config)) O w1)
    as (gets' & Hcalls'' & Hread & _).
  cbv zeta in Hcalls', Hcalls''. rewrite Hcalls' in Hcalls''.
  apply app_inv_head in Hcalls''. subst gets'.
  exists sets, gets. split; [|split; [|split]].
  - rewrite Hcalls', Hcalls, <- app_assoc. reflexivity.
  - rewrite <- (length_map call_key), Hkeys. apply keys_from_length.
  - congruence.
  - rewrite Hvalues, <- Hkeys, map_map. apply map_ext_in. exact Hwritten.
Qed.

Lemma get_run_reads_what_it_wrote_witness :
  exists sets gets,
    calls (world_after (runBenchmark (configuration "get" "db" 50 4 "1:1" "0:1"))
             sample_world) = ([] ++ sets ++ gets)%list
    /\ length sets = 50%nat
    /\ map call_value gets = map call_value sets.
Proof.
  destruct (get_run_reads_what_it_wrote
              (configuration "get" "db" 50 4 "1:1" "0:1") sample_world eq_refl)
    as (sets & gets & Hcalls & Hlen & _ & Hvalues).
  exists sets, gets. repeat split; assumption.
Defined.

(* ===================================================================== *)
(** ** Hits and misses of a ['get'] run on the cached tier *)
(* ===================================================================== *)

Lemma redis_set_timer (key value : string) (cached : bool) (w : world) :
  draws_in_unit_interval w ->
  well_formed (redisLatencyMs (simulationConfig w)) ->
  exists latency,
    timeouts (world_after (redis_set key value cached) w) = (timeouts w ++ [latency])%list
    /\ within (redisLatencyMs (simulationConfig w)) latency.
Proof.
  intros Hw Hwf. destruct (Hw (cursor w)) as [Hnonneg Hbelow].
  rewrite redis_set_world. eexists. split; [reflexivity|].
  apply latency_in_range; assumption.
Qed.

Lemma redis_get_timer (hit : bool) (key : string) (w : world) :
  draws_in_unit_interval w ->
  well_formed (read_range hit (simulationConfig w)) ->
  cached_state hit w key ->
  exists latency,
    timeouts (world_after (redis_get key) w) = (timeouts w ++ [latency])%list
    /\ within (read_range hit (simulationConfig w)) latency.
Proof.
  intros Hw Hwf Hstate. destruct (Hw (cursor w)) as [Hnonneg Hbelow].
  unfold world_after. destruct hit; cbn [cached_state read_range] in *.
  - destruct Hstate as [value Hvalue]. rewrite (redis_get_hit _ _ _ Hvalue).
    eexists. split; [reflexivity|]. apply latency_in_range; assumption.
  - rewrite (redis_get_miss _ _ Hstate).
    eexists. split; [reflexivity|]. apply latency_in_range; assumption.
Qed.

Section RedisGetRun.

Variables (p : jsnum) (flag : bool) (storage : string) (size : Z).
Hypothesis on_redis : is_redis storage = true.
Hypothesis decided : forall r, (0 <= r)%Q -> (r < 1)%Q -> js_lt (Fin r) p = flag.

Lemma redis_write_effect (key value : string) (w : world) :
  draws_in_unit_interval w ->
  well_formed (redisLatencyMs (simulationConfig w)) ->
  let w' := world_after (storage_write storage p key value) w in
  simulationConfig w' = simulationConfig w
  /\ draws w' = draws w
  /\ redisCache w'
     = (if flag then <[key:=value]> (redisCache w) else delete key (redisCache w))
  /\ exists latency,
       timeouts w' = (timeouts w ++ [latency])%list
       /\ within (redisLatencyMs (simulationConfig w)) latency.
Proof.
  intros Hw Hwf. cbv zeta.
  split; [apply (unchanged_storage_write simulationConfig), ambient_simulationConfig|].
  split; [apply (unchanged_storage_write draws), ambient_draws|].
  split.
  - pose proof (storage_write_maps storage p key value w) as Hmaps. cbv zeta in Hmaps.
    rewrite on_redis in Hmaps. destruct Hmaps as (_ & _ & ->).
    destruct (Hw (cursor w)) as [Hnonneg Hbelow]. rewrite (decided _ Hnonneg Hbelow).
    reflexivity.
  - unfold storage_write. rewrite on_redis, world_after_bind, world_after_then_ret.
    apply (redis_set_timer key value _ (next_draw w)); assumption.
Qed.

Lemma redis_keyed_write_effect prefix i (w : world) :
  draws_in_unit_interval w ->
  well_formed (redisLatencyMs (simulationConfig w)) ->
  let w' := world_after (keyed_write prefix storage p size i) w in
  simulationConfig w' = simulationConfig w
  /\ draws w' = draws w
  /\ cached_state flag w' (prefix ++ template_nat i)
  /\ (forall k, cached_state flag w k -> cached_state flag w' k)
  /\ exists latency,
       timeouts w' = (timeouts w ++ [latency])%list
       /\ within (redisLatencyMs (simulationConfig w)) latency.
Proof.
  intros Hw Hwf. cbv zeta. unfold keyed_write. rewrite world_after_bind.
  set (w1 := world_after (generateValue size) w).
  assert (simulationConfig w1 = simulationConfig w) as Hcfg
    by (apply unchanged_generateValue; intros w0; reflexivity).
  assert (draws w1 = draws w) as Hdraws
    by (apply unchanged_generateValue; intros w0; reflexivity).
  assert (redisCache w1 = redisCache w) as Hcache
    by (apply unchanged_generateValue; intros w0; reflexivity).
  assert (timeouts w1 = timeouts w) as Htimeouts
    by (apply unchanged_generateValue; intros w0; reflexivity).
  destruct (redis_write_effect (prefix ++ template_nat i)
              (result_of (generateValue size) w) w1)
    as (Hcfg' & Hdraws' & Hcache' & latency & Htimer & Hwithin).
  { exact (draws_in_unit_interval_transport _ _ Hdraws Hw). }
  { rewrite Hcfg. exact Hwf. }
  cbv zeta in Hcfg', Hdraws', Hcache', Htimer.
  split; [congruence|]. split; [congruence|].
  unfold cached_state. rewrite Hcache', Hcache. split; [|split].
  - destruct flag; [rewrite lookup_insert_eq; eauto|apply lookup_delete_eq].
  - intros k. destruct flag.
    + intros Hk. apply lookup_insert_is_Some.
      destruct (decide (prefix ++ template_nat i = k)); auto.
    + intros Hk. rewrite lookup_delete. case_decide; [reflexivity|exact Hk].
  - exists latency. rewrite Htimer, Htimeouts, <- Hcfg. auto.
Qed.

Lemma redis_population_effect prefix :
  forall trips start w,
    draws_in_unit_interval w ->
    well_formed (redisLatencyMs (simulationConfig w)) ->
    let w' := world_after (for_loop trips start (keyed_write prefix storage p size)) w in
    simulationConfig w' = simulationConfig w
    /\ draws w' = draws w
    /\ (forall k, In k (keys_from prefix start trips) -> cached_state flag w' k)
    /\ (forall k, cached_state flag w k -> cached_state flag w' k)
    /\ exists delays,
         timeouts w' = (timeouts w ++ delays)%list
         /\ length delays = trips
         /\ Forall (within (redisLatencyMs (simulationConfig w))) delays.
Proof.
  induction trips as [|n IH]; intros start w Hw Hwf; cbn zeta.
  - cbn. repeat split; auto; [intros k []|].
    exists []. rewrite app_nil_r. repeat split. constructor.
  - cbn [for_loop]. rewrite world_after_bind.
    destruct (redis_keyed_write_effect prefix start w Hw Hwf)
      as (Hcfg & Hdraws & Hhere & Hkept & latency & Htimer & Hwithin).
    cbv zeta in Hcfg, Hdraws, Hhere, Hkept, Htimer.
    set (w1 := world_after (keyed_write prefix storage p size start) w) in *.
    destruct (IH (S start) w1)
      as (Hcfg' & Hdraws' & Hkeys & Hkept' & delays & Htimers & Hlen & Hall).
    { exact (draws_in_unit_interval_transport _ _ Hdraws Hw). }
    { rewrite Hcfg. exact Hwf. }
    cbv zeta in Hcfg', Hdraws', Hkeys, Hkept', Htimers.
    split; [congruence|]. split; [congruence|]. split; [|split].
    + intros k [<-|Hlater]; [apply Hkept', Hhere|apply Hkeys, Hlater].
    + intros k Hk. apply Hkept', Hkept, Hk.
    + exists (latency :: delays). split; [|split].
      * rewrite Htimers, Htimer, <- app_assoc. reflexivity.
      * cbn. rewrite Hlen. reflexivity.
      * constructor; [exact Hwithin|]. rewrite <- Hcfg. exact Hall.
Qed.

Lemma redis_read_loop_effect :
  forall trips start w,
    draws_in_unit_interval w ->
    well_formed (read_range flag (simulationConfig w)) ->
    (forall k, In k (keys_from "benchmark:get:" start trips) -> cached_state flag w k) ->
    let w' := world_after (for_loop trips start (read_trip storage)) w in
    exists delays,
      timeouts w' = (timeouts w ++ delays)%list
      /\ length delays = trips
      /\ Forall (within (read_range flag (simulationConfig w))) delays.
Proof.
  induction trips as [|n IH]; intros start w Hw Hwf Hkeys; cbn zeta.
  - exists []. cbn. rewrite app_nil_r. repeat split. constructor.
  - cbn [for_loop]. rewrite world_after_bind.
    change (world_after (read_trip storage start) w)
      with (world_after (storage_read storage ("benchmark:get:" ++ template_nat start)) w).
    set (key := "benchmark:get:" ++ template_nat start) in *.
    set (w1 := world_after (storage_read storage key) w).
    assert (w1 = world_after (redis_get key) w) as Hw1.
    { unfold w1, storage_read. rewrite on_redis. apply world_after_then_ret. }
    destruct (redis_get_timer flag key w Hw Hwf) as (latency & Htimer & Hwithin).
    { apply Hkeys. left. reflexivity. }
    rewrite <- Hw1 in Htimer.
    assert (simulationConfig w1 = simulationConfig w) as Hcfg
      by (apply (unchanged_storage_read simulationConfig), ambient_simulationConfig).
    assert (draws w1 = draws w) as Hdraws
      by (apply (unchanged_storage_read draws), ambient_draws).
    assert (redisCache w1 = redisCache w) as Hcache
      by (apply (storage_read_maps storage key w)).
    destruct (IH (S start) w1) as (delays & Htimers & Hlen & Hall).
    { exact (draws_in_unit_interval_transport _ _ Hdraws Hw). }
    { rewrite Hcfg. exact Hwf. }
    { intros k Hk. unfold cached_state. rewrite Hcache. apply Hkeys. right. exact Hk. }
    cbv zeta in Htimers. exists (latency :: delays). split; [|split].
    + rewrite Htimers, Htimer, <- app_assoc. reflexivity.
    + cbn. rewrite Hlen. reflexivity.
    + constructor; [exact Hwithin|]. rewrite <- Hcfg. exact Hall.
Qed.

End RedisGetRun.

Lemma redis_get_run_delays (flag : bool) (config : Config.t) (w : world) :
  type_of config = "get" ->
  storage_of config = "redis" ->
  (forall r, (0 <= r)%Q -> (r < 1)%Q ->
             js_lt (Fin r) (cachedProbability_of (cachedRatio_of config)) = flag) ->
  draws_in_unit_interval w ->
  well_formed (redisLatencyMs (simulationConfig w)) ->
  well_formed (read_range flag (simulationConfig w)) ->
  exists population reads,
    timeouts (world_after (runBenchmark config) w) = (timeouts w ++ population ++ reads)%list
    /\ length population = Z.to_nat (requests_of config)
    /\ length reads = Z.to_nat (requests_of config)
    /\ Forall (within (redisLatencyMs (simulationConfig w))) population
    /\ Forall (within (read_range flag (simulationConfig w))) reads.
Proof.
  intros Htype Hstorage Hflag Hw Hwf Hwf'. apply is_redis_true in Hstorage.
  rewrite runBenchmark_world.
  change (timeouts (next_draw (next_tick ?x))) with (timeouts x).
  unfold operations_of, run_operations.
  rewrite Htype. cbn [String.eqb Ascii.eqb Bool.eqb]. rewrite world_after_bind.
  destruct (redis_population_effect (cachedProbability_of (cachedRatio_of config)) flag
              (storage_of config) (size_of config) Hstorage Hflag "benchmark:get:"
              (Z.to_nat (requests_of config)) O (next_tick w) Hw Hwf)
    as (Hcfg & Hdraws & Hkeys & _ & population & Htimers & Hlen & Hall).
  cbv zeta in Hcfg, Hdraws, Hkeys, Htimers.
  change (keyed_write "benchmark:get:" (storage_of config)
            (cachedProbability_of (cachedRatio_of config)) (size_of config))
    with (populate_trip (storage_of config)
            (cachedProbability_of (cachedRatio_of config)) (size_of config))
    in Hcfg, Hdraws, Hkeys, Htimers.
  set (w1 := world_after (for_loop (Z.to_nat (requests_of config)) 0
                            (populate_trip (storage_of config)
                               (cachedProbability_of (cachedRatio_of config))
                               (size_of config))) (next_tick w)) in *.
  destruct (redis_read_loop_effect flag (storage_of config) Hstorage
              (Z.to_nat (requests_of config)) O w1)
    as (reads & Htimers' & Hlen' & Hall').
  { exact (draws_in_unit_interval_transport _ _ Hdraws Hw). }
  { rewrite Hcfg. exact Hwf'. }
  { exact Hkeys. }
  cbv zeta in Htimers'. exists population, reads. split; [|repeat split; auto].
  - rewrite Htimers', Htimers, <- app_assoc. reflexivity.
  - rewrite Hcfg in Hall'. exact Hall'.
Qed.

(** X14. In a ['get'] run on the cached tier, with draws in [[0, 1)], the
    timers are those of the [N] population writes, each in the range
    [redisLatencyMs], followed by those of the [N] reads.  Under the cached
    ratio ['1:0'] every read is a hit on the hot cache: each read timer
    lies in the range [networkJitterMs].  Under ['0:1'] every read is a
    miss, also for keys that were in the hot cache before the run: each
    read timer lies in the range [redisLatencyMs]. *)
Theorem get_run_hits_and_misses (config : Config.t) (w : world) :
  type_of config = "get" ->
  storage_of config = "redis" ->
  draws_in_unit_interval w ->
  well_formed (redisLatencyMs (simulationConfig w)) ->
  well_formed (networkJitterMs (simulationConfig w)) ->
  (cachedRatio_of config = "1:0" ->
   exists population reads,
     timeouts (world_after (runBenchmark config) w)
     = (timeouts w ++ population ++ reads)%list
     /\ length population = Z.to_nat (requests_of config)
     /\ length reads = Z.to_nat (requests_of config)
     /\ Forall (within (redisLatencyMs (simulationConfig w))) population
     /\ Forall (within (networkJitterMs (simulationConfig w))) reads)
  /\ (cachedRatio_of config = "0:1" ->
      exists population reads,
        timeouts (world_after (runBenchmark config) w)
        = (timeouts w ++ population ++ reads)%list
        /\ length population = Z.to_nat (requests_of config)
        /\ length reads = Z.to_nat (requests_of config)
        /\ Forall (within (redisLatencyMs (simulationConfig w))) population
        /\ Forall (within (redisLatencyMs (simulationConfig w))) reads).
Proof.
  intros Htype Hstorage Hw Hlatency Hjitter. split; intros Hratio.
  - apply (redis_get_run_delays true config w Htype Hstorage); try assumption.
    rewrite Hratio. apply always_below_one.
  - apply (redis_get_run_delays false config w Htype Hstorage); try assumption.
    rewrite Hratio. apply never_below_zero.
Qed.

Lemma get_run_hits_and_misses_witness :
  exists population reads,
    timeouts (world_after (runBenchmark (configuration "get" "redis" 100 3 "1:1" "1:0"))
                sample_world)
    = ([] ++ population ++ reads)%list
    /\ length reads = 100%nat
    /\ Forall (within {| Range.min := 0; Range.max := 5 |}) reads.
Proof.
  destruct (get_run_hits_and_misses
              (configuration "get" "redis" 100 3 "1:1" "1:0") sample_world
              eq_refl eq_refl sample_draws_in_unit_interval)
    as [Hhits _]; [vm_compute; discriminate|vm_compute; discriminate|].
  destruct (Hhits eq_refl) as (population & reads & Htimers & _ & Hlen & _ & Hall).
  exists population, reads. repeat split; assumption.
Defined.

(* ===================================================================== *)
(** ** Which tier and which keys a run addresses *)
(* ===================================================================== *)

Lemma logged_since_start (P : call -> Prop) (w : world) : logged_since (calls w) P w.
Proof. exists []. rewrite app_nil_r. split; [reflexivity|constructor]. Qed.

Lemma logged_since_one (base : list call) (P : call -> Prop) (c : call) (w w' : world) :
  calls w' = (calls w ++ [c])%list -> P c ->
  logged_since base P w -> logged_since base P w'.
Proof.
  intros Hcalls Hc (log & Hlog & Hall). exists (log ++ [c])%list. split.
  - rewrite Hcalls, Hlog, app_assoc. reflexivity.
  - apply Forall_app. split; [exact Hall|]. constructor; [exact Hc|constructor].
Qed.

Lemma run_stays_on_its_tier (config : Config.t) (base : list call) :
  preserves (logged_since base
               (fun c => on_cached_tier c = is_redis (storage_of config)))
            (runBenchmark config).
Proof.
  apply preserves_runBenchmark; try (intros w Hw; exact Hw).
  - intros p key value w Hlog.
    eapply logged_since_one; [apply storage_write_calls| |exact Hlog].
    destruct (is_redis (storage_of config)); reflexivity.
  - intros key w Hlog.
    assert (exists found,
              calls (world_after (storage_read (storage_of config) key) w)
              = (calls w ++ [if is_redis (storage_of config)
                             then RedisGet key found else DbGet key found])%list)
      as [found Hcalls].
    { unfold storage_read. destruct (is_redis (storage_of config));
        rewrite world_after_then_ret.
      - rewrite redis_get_calls. eauto.
      - unfold world_after. rewrite db_get_run. eauto. }
    eapply logged_since_one; [exact Hcalls| |exact Hlog].
    destruct (is_redis (storage_of config)); reflexivity.
Qed.

(** X15. A run addresses one tier only.  When [storage] is exactly
    ['redis'] every call of the run goes to the cached tier; for any other
    [storage] string, ['db'] or not, every call goes to the uncached
    tier. *)
Theorem run_addresses_one_tier (config : Config.t) (w : world) :
  exists log,
    calls (world_after (runBenchmark config) w) = (calls w ++ log)%list
    /\ (storage_of config = "redis" -> Forall (fun c => on_cached_tier c = true) log)
    /\ (storage_of config <> "redis" -> Forall (fun c => on_cached_tier c = false) log).
Proof.
  destruct (run_stays_on_its_tier config (calls w) w (logged_since_start _ w))
    as (log & Hlog & Hall).
  exists log. split; [exact Hlog|]. split; intros Hstorage.
  - apply is_redis_true in Hstorage. rewrite Hstorage in Hall. exact Hall.
  - apply is_redis_false in Hstorage. rewrite Hstorage in Hall. exact Hall.
Qed.

Lemma run_addresses_one_tier_witness :
  exists log,
    calls (world_after (runBenchmark (configuration "mixed" "Redis" 6 2 "1:2" "1:0"))
             sample_world) = ([] ++ log)%list
    /\ Forall (fun c => on_cached_tier c = false) log.
Proof.
  destruct (run_addresses_one_tier (configuration "mixed" "Redis" 6 2 "1:2" "1:0")
              sample_world) as (log & Hlog & _ & Hoff).
  exists log. split; [exact Hlog|]. apply Hoff. discriminate.
Defined.

Lemma template_Z_of_nat (i : nat) : template_Z (Z.of_nat i) = template_nat i.
Proof. destruct i; reflexivity. Qed.

Lemma prepopulation_below_requests (setRatio getRatio : jsnum) (requests : Z) :
  0 < requests ->
  Z.of_nat (loop_trips (prepopulate_bound setRatio getRatio requests)) <= requests.
Proof.
  intros Hrequests. unfold prepopulate_bound. rewrite half_as_number.
  assert (forall x, (x <= inject_Z requests / 2)%Q ->
                    Z.of_nat (loop_trips (Fin x)) <= requests) as Hbound.
  { intros x Hx. cbn [loop_trips].
    assert (x <= inject_Z requests)%Q as Hx'.
    { apply (Qle_trans _ _ _ Hx). apply Qle_shift_div_r; [reflexivity|].
      assert (0 < inject_Z requests)%Q
        by (change 0%Q with (inject_Z 0); rewrite <- Zlt_Qlt; lia).
      lra. }
    apply Qceiling_resp_le in Hx'. rewrite Qceiling_Z in Hx'. lia. }
  destruct (getOps_of setRatio getRatio requests) as [x| | |]; cbn [Math_min];
    try (cbn; lia); [|apply Hbound, Qle_refl].
  destruct (Qle_bool x (inject_Z requests / 2)) eqn:Hle.
  - apply Qle_bool_iff in Hle. apply Hbound, Hle.
  - apply Hbound, Qle_refl.
Qed.

Lemma mixed_key_in_range (requests : Z) (w : world) :
  0 < requests -> draws_in_unit_interval w ->
  mixed_key_below requests (result_of (mixed_key requests) w).
Proof.
  intros Hrequests Hw. destruct (Hw (cursor w)) as [Hnonneg Hbelow].
  exists (Qfloor (draws w (cursor w) * inject_Z requests)).
  split; [apply floor_of_scaled_draw; assumption|reflexivity].
Qed.

Lemma write_logged_with_key storage p key value (base : list call) (P : call -> Prop) :
  (forall c, call_key c = key -> P c) ->
  preserves (logged_since base P) (storage_write storage p key value).
Proof.
  intros HP w Hlog. eapply logged_since_one; [apply storage_write_calls| |exact Hlog].
  apply HP. destruct (is_redis storage); reflexivity.
Qed.

Lemma read_logged_with_key storage key (base : list call) (P : call -> Prop) :
  (forall c, call_key c = key -> P c) ->
  preserves (logged_since base P) (storage_read storage key).
Proof.
  intros HP w Hlog.
  destruct (storage_read_calls storage key w) as (c & Hc & _ & Hkey & _).
  eapply logged_since_one; [exact Hc|apply HP, Hkey|exact Hlog].
Qed.

Section MixedKeys.

Variables (storage : string) (p share setOps getOps : jsnum) (requests size : Z).
Variable base : list call.
Hypothesis some_requests : 0 < requests.

Local Abbreviation in_range :=
  (fun w => draws_in_unit_interval w
            /\ logged_since base (fun c => mixed_key_below requests (call_key c)) w).

Lemma quiet_step_keeps_in_range {A} (m : M A) :
  unchanged draws m -> unchanged calls m -> preserves in_range m.
Proof.
  intros Hdraws Hcalls w [Hw (log & Hlog & Hall)]. split.
  - exact (draws_in_unit_interval_transport _ _ (Hdraws w) Hw).
  - exists log. rewrite Hcalls. auto.
Qed.

Lemma write_keeps_in_range (key value : string) :
  mixed_key_below requests key ->
  preserves in_range (storage_write storage p key value).
Proof.
  intros Hkey w [Hw Hlog]. split.
  - refine (draws_in_unit_interval_transport _ _ _ Hw).
    apply (unchanged_storage_write draws), ambient_draws.
  - clear Hw. revert w Hlog. apply write_logged_with_key. intros c ->. exact Hkey.
Qed.

Lemma read_keeps_in_range (key : string) :
  mixed_key_below requests key ->
  preserves in_range (storage_read storage key).
Proof.
  intros Hkey w [Hw Hlog]. split.
  - refine (draws_in_unit_interval_transport _ _ _ Hw).
    apply (unchanged_storage_read draws), ambient_draws.
  - clear Hw. revert w Hlog. apply read_logged_with_key. intros c ->. exact Hkey.
Qed.

Lemma mixed_trip_keeps_in_range (counts : nat * nat) :
  preserves in_range (mixed_trip storage p requests size setOps getOps share counts).
Proof.
  intros w Hw. unfold mixed_trip. destruct counts as [setCount getCount].
  rewrite world_after_bind.
  assert (in_range (world_after (isSetOp_of setOps getOps share setCount getCount) w))
    as Hw0.
  { revert w Hw. apply quiet_step_keeps_in_range; apply unchanged_isSetOp_of.
    - apply ambient_draw_blind, ambient_draws.
    - apply draw_blind_calls. }
  set (w0 := world_after (isSetOp_of setOps getOps share setCount getCount) w) in *.
  pose proof (mixed_key_in_range requests w0 some_requests (proj1 Hw0)) as Hkey.
  assert (in_range (world_after (mixed_key requests) w0)) as Hw1.
  { revert Hw0. generalize w0. apply quiet_step_keeps_in_range; apply unchanged_mixed_key.
    - apply ambient_draw_blind, ambient_draws.
    - apply draw_blind_calls. }
  destruct (result_of (isSetOp_of setOps getOps share setCount getCount) w).
  - rewrite !world_after_bind, world_after_ret.
    apply write_keeps_in_range; [exact Hkey|].
    revert Hw1. generalize (world_after (mixed_key requests) w0).
    apply quiet_step_keeps_in_range; apply unchanged_generateValue.
    + apply ambient_draw_blind, ambient_draws.
    + apply draw_blind_calls.
  - rewrite !world_after_bind, world_after_ret.
    apply read_keeps_in_range; [exact Hkey|exact Hw1].
Qed.

Lemma mixed_loop_keeps_in_range :
  forall trips counts,
    preserves in_range
      (mixed_loop trips storage p requests size setOps getOps share counts).
Proof.
  induction trips as [|n IH]; intros counts w Hw; cbn [mixed_loop]; [exact Hw|].
  rewrite world_after_bind. apply IH, mixed_trip_keeps_in_range, Hw.
Qed.

Lemma prepopulation_keeps_in_range :
  forall trips start,
    Z.of_nat (start + trips) <= requests ->
    preserves in_range (for_loop trips start (prepopulate_trip storage p size)).
Proof.
  induction trips as [|n IH]; intros start Hbound w Hw; cbn [for_loop]; [exact Hw|].
  rewrite world_after_bind. apply IH; [lia|].
  change (prepopulate_trip storage p size start)
    with (keyed_write "benchmark:mixed:" storage p size start).
  unfold keyed_write. rewrite world_after_bind. apply write_keeps_in_range.
  - exists (Z.of_nat start). split; [lia|]. rewrite template_Z_of_nat. reflexivity.
  - revert w Hw. apply quiet_step_keeps_in_range; apply unchanged_generateValue.
    + apply ambient_draw_blind, ambient_draws.
    + apply draw_blind_calls.
Qed.

End MixedKeys.

(** X16. With draws in [[0, 1)] and a positive request count, a ['mixed']
    run addresses only the keys ["benchmark:mixed:0"], ...,
    ["benchmark:mixed:<requests - 1>"]: every write and every read of the
    pre-population and of the mixed loop has such a key, whatever the
    ratio. *)
Theorem mixed_run_keys_in_range (config : Config.t) (w : world) :
  type_of config = "mixed" ->
  0 < requests_of config ->
  draws_in_unit_interval w ->
  exists log,
    calls (world_after (runBenchmark config) w) = (calls w ++ log)%list
    /\ Forall (fun c => mixed_key_below (requests_of config) (call_key c)) log.
Proof.
  intros Htype Hrequests Hw. rewrite runBenchmark_calls.
  unfold operations_of, run_operations. rewrite Htype.
  cbn [String.eqb Ascii.eqb Bool.eqb]. rewrite !world_after_bind, world_after_ret.
  apply (mixed_loop_keeps_in_range (storage_of config)
           (cachedProbability_of (cachedRatio_of config)) _ _ _ (requests_of config)
           (size_of config) (calls w) Hrequests).
  apply prepopulation_keeps_in_range.
  - cbn [Nat.add]. apply prepopulation_below_requests, Hrequests.
  - split; [exact Hw|]. apply (logged_since_start _ (next_tick w)).
Qed.

Lemma mixed_run_keys_in_range_witness :
  exists log,
    calls (world_after (runBenchmark (configuration "mixed" "redis" 20 2 "3:1" "1:1"))
             sample_world) = ([] ++ log)%list
    /\ Forall (fun c => mixed_key_below 20 (call_key c)) log.
Proof.
  apply (mixed_run_keys_in_range (configuration "mixed" "redis" 20 2 "3:1" "1:1")
           sample_world eq_refl); [reflexivity|exact sample_draws_in_unit_interval].
Defined.

(* ===================================================================== *)
(** ** How many calls a ['mixed'] run issues *)
(* ===================================================================== *)

Lemma Qceiling_half (n : Z) : Qceiling (inject_Z n / 2) = (n + 1) / 2.
Proof.
  unfold Qceiling.
  assert (- (inject_Z n / 2) == inject_Z (- n) / inject_Z 2)%Q as ->
    by (rewrite inject_Z_opp; field).
  rewrite <- Zdiv_Qdiv. Z.div_mod_to_equations. lia.
Qed.

Lemma prepopulation_trips_of_quota (setRatio getRatio : jsnum) (n k : Z) :
  setOps_of setRatio getRatio n = Fin (inject_Z k) ->
  loop_trips (prepopulate_bound setRatio getRatio n)
  = Z.to_nat (Z.min (n - k) ((n + 1) / 2)).
Proof.
  intros Hquota.
  unfold prepopulate_bound. rewrite (getOps_of_quota _ _ _ _ Hquota), half_as_number.
  cbn [Math_min].
  assert (inject_Z n - inject_Z k == inject_Z (n - k))%Q as Hdiff
    by (unfold Qminus; rewrite <- inject_Z_opp, <- inject_Z_plus; reflexivity).
  destruct (Qle_bool (inject_Z n - inject_Z k) (inject_Z n / 2)) eqn:Hle; cbn [loop_trips].
  - apply Qle_bool_iff in Hle. rewrite (Qceiling_comp _ _ Hdiff), Qceiling_Z.
    rewrite Hdiff in Hle. apply Qceiling_resp_le in Hle.
    rewrite Qceiling_Z, Qceiling_half in Hle. lia.
  - rewrite Qceiling_half.
    assert (~ (inject_Z n - inject_Z k <= inject_Z n / 2)%Q) as Hgt.
    { intros Habs. apply Qle_bool_iff in Habs. congruence. }
    apply Qnot_le_lt in Hgt. rewrite Hdiff in Hgt.
    assert ((n + 1) / 2 <= n - k); [|lia].
    pose proof (Qceiling_lt (inject_Z n / 2)) as Hceil. rewrite Qceiling_half in Hceil.
    assert (inject_Z ((n + 1) / 2 - 1) < inject_Z (n - k))%Q as Hlt
      by (apply (Qlt_trans _ _ _ Hceil Hgt)).
    rewrite <- Zlt_Qlt in Hlt. lia.
Qed.

(** X17. How many calls a ['mixed'] run issues.  With the ratio parsed to
    non-negative integer weights, not both zero, and an integer
    [0 <= requests <= 2^53], let [setOps] be the quota the code computes
    (in binary64 arithmetic) and [getOps = requests - setOps].  The run
    first writes the keys ["benchmark:mixed:0"], ["benchmark:mixed:1"], ...
    in order, as many as the smaller of [getOps] and [requests / 2] rounded
    up, and then issues exactly [requests] calls in the mixed loop.  So it
    issues more storage calls than [requests] exactly when [getOps] is
    positive: none more at ["1:0"], 118 calls for 90 requests at
    ["7:3"]. *)
Theorem mixed_run_call_count (config : Config.t) (w : world) (setWeight getWeight : Z) :
  type_of config = "mixed" ->
  parse_ratio (ratio_of config) = (Fin (inject_Z setWeight), Fin (inject_Z getWeight)) ->
  0 <= setWeight -> 0 <= getWeight -> 0 < setWeight + getWeight ->
  0 <= requests_of config <= 2 ^ 53 ->
  let requests := requests_of config in
  exists (setOps : Z) (seeds log : list call),
    let getOps := requests - setOps in
    let seeded := Z.to_nat (Z.min getOps ((requests + 1) / 2)) in
    setOps_of (Fin (inject_Z setWeight)) (Fin (inject_Z getWeight)) requests
    = Fin (inject_Z setOps)
    /\ 0 <= setOps <= requests
    /\ calls (world_after (runBenchmark config) w) = (calls w ++ seeds ++ log)%list
    /\ map call_key seeds = keys_from "benchmark:mixed:" 0 seeded
    /\ Forall (fun c => is_set c = true) seeds
    /\ length log = Z.to_nat requests
    /\ length (seeds ++ log) = (seeded + Z.to_nat requests)%nat
    /\ ((Z.to_nat requests < length (seeds ++ log))%nat <-> 0 < getOps).
Proof.
  intros Htype Hparse Hsw Hgw Hsum Hrequests requests.
  destruct (parse_ratio_representable _ _ _ Hparse) as [Rs Rg].
  assert (0 <= inject_Z setWeight)%Q as Qsw
    by (change 0%Q with (inject_Z 0); rewrite <- Zle_Qle; exact Hsw).
  assert (0 <= inject_Z getWeight)%Q as Qgw
    by (change 0%Q with (inject_Z 0); rewrite <- Zle_Qle; exact Hgw).
  assert (0 < inject_Z setWeight + inject_Z getWeight)%Q as Qsum
    by (rewrite <- inject_Z_plus; change 0%Q with (inject_Z 0); rewrite <- Zlt_Qlt;
        exact Hsum).
  destruct (setOps_of_range _ _ requests Rs Rg Qsw Qgw Qsum Hrequests)
    as (setOps & Hquota & Hrange).
  set (seeded := Z.to_nat (Z.min (requests - setOps) ((requests + 1) / 2))).
  assert (calls (world_after (runBenchmark config) w)
          = calls (world_after
                     (run for_loop seeded O
                            (prepopulate_trip (storage_of config)
                               (cachedProbability_of (cachedRatio_of config))
                               (size_of config)) then
                      run mixed_loop (Z.to_nat requests) (storage_of config)
                            (cachedProbability_of (cachedRatio_of config))
                            requests (size_of config)
                            (Fin (inject_Z setOps))
                            (Fin (inject_Z requests - inject_Z setOps))
                            (set_share (Fin (inject_Z setWeight)) (Fin (inject_Z getWeight)))
                            (O, O) then
                      ret tt) (next_tick w))) as Hrun.
  { rewrite runBenchmark_calls. unfold operations_of, run_operations.
    rewrite Htype, Hparse. cbn [String.eqb Ascii.eqb Bool.eqb fst snd].
    fold requests.
    rewrite (prepopulation_trips_of_quota _ _ _ _ Hquota).
    rewrite (getOps_of_quota _ _ _ _ Hquota), Hquota. reflexivity. }
  rewrite !world_after_bind, world_after_ret in Hrun.
  destruct (keyed_write_loop_calls "benchmark:mixed:" (storage_of config)
              (cachedProbability_of (cachedRatio_of config)) (size_of config)
              seeded O (next_tick w))
    as (seeds & Hseeds & Hkeys & Hsets & _).
  cbv zeta in Hseeds.
  change (keyed_write "benchmark:mixed:" (storage_of config)
            (cachedProbability_of (cachedRatio_of config)) (size_of config))
    with (prepopulate_trip (storage_of config)
            (cachedProbability_of (cachedRatio_of config)) (size_of config))
    in Hseeds.
  set (w1 := world_after (for_loop seeded 0
                            (prepopulate_trip (storage_of config)
                               (cachedProbability_of (cachedRatio_of config))
                               (size_of config))) (next_tick w)) in *.
  destruct (mixed_loop_counts (storage_of config) (cachedProbability_of (cachedRatio_of config))
              (set_share (Fin (inject_Z setWeight)) (Fin (inject_Z getWeight)))
              requests (size_of config) requests setOps
              (Z.to_nat requests) O O w1 ltac:(lia) ltac:(lia) ltac:(lia))
    as (a & b & log & _ & Hlog & _ & _ & _ & _ & _ & Hlen).
  cbv zeta in Hlog. exists setOps, seeds, log. cbv zeta. fold seeded.
  assert (length (seeds ++ log) = (seeded + Z.to_nat requests)%nat) as Htotal.
  { rewrite length_app, Hlen, <- (length_map call_key seeds), Hkeys, keys_from_length.
    reflexivity. }
  split; [exact Hquota|]. split; [exact Hrange|].
  split; [rewrite Hrun, Hlog, Hseeds, <- app_assoc; reflexivity|].
  split; [exact Hkeys|]. split; [exact Hsets|]. split; [exact Hlen|].
  split; [exact Htotal|].
  rewrite Htotal. unfold seeded.
  assert (0 < requests -> 0 < (requests + 1) / 2) as Hhalf
    by (intros Hpos; apply Z.div_str_pos; lia).
  split; intros Hmore; lia.
Qed.

Lemma mixed_run_call_count_witness :
  exists seeds log,
    calls (world_after (runBenchmark (configuration "mixed" "redis" 90 3 "7:3" "1:0"))
             sample_world) = ([] ++ seeds ++ log)%list
    /\ length seeds = 28%nat
    /\ length (seeds ++ log) = 118%nat.
Proof.
  destruct (mixed_run_call_count
              (configuration "mixed" "redis" 90 3 "7:3" "1:0") sample_world 7 3
              eq_refl eq_refl ltac:(lia) ltac:(lia) ltac:(lia)
              ltac:(vm_compute; split; discriminate))
    as (setOps & seeds & log & Hquota & _ & Hcalls & Hkeys & _ & _ & Hlen & _).
  assert (setOps = 62) as Hops.
  { symmetry. apply inject_Z_inj. rewrite <- Hquota. vm_compute. reflexivity. }
  subst setOps. exists seeds, log. split; [exact Hcalls|]. split; [|exact Hlen].
  rewrite <- (length_map call_key seeds), Hkeys, keys_from_length. reflexivity.
Defined.

(* ===================================================================== *)
(** ** Ratios that do not parse *)
(* ===================================================================== *)

Lemma mixed_loop_all_reads storage p requests size getOps share :
  forall trips counts w,
    let m := mixed_loop trips storage p requests size NaN getOps share counts in
    exists gets,
      calls (world_after m w) = (calls w ++ gets)%list
      /\ length gets = trips
      /\ Forall (fun c => is_get c = true) gets
      /\ result_of m w = (fst counts, (snd counts + trips)%nat).
Proof.
  induction trips as [|n IH]; intros [setCount getCount] w; cbn zeta.
  - exists []. cbn. rewrite app_nil_r, Nat.add_0_r. repeat split. constructor.
  - cbn [mixed_loop]. rewrite result_of_bind, world_after_bind.
    assert (mixed_trip storage p requests size NaN getOps share (setCount, getCount)
            = (let* key := mixed_key requests in
               run storage_read storage key then ret (setCount, S getCount))) as ->
      by reflexivity.
    rewrite !result_of_bind, !world_after_bind, result_of_ret, world_after_ret.
    set (w0 := world_after (mixed_key requests) w).
    destruct (storage_read_calls storage (result_of (mixed_key requests) w) w0)
      as (c & Hc & Hget & _).
    destruct (IH (setCount, S getCount)
                (world_after (storage_read storage (result_of (mixed_key requests) w)) w0))
      as (gets & Hcalls & Hlen & Hall & Hresult).
    cbv zeta in Hcalls, Hresult. exists (c :: gets). split; [|split; [|split]].
    + rewrite Hcalls, Hc. unfold w0.
      rewrite (unchanged_mixed_key calls requests draw_blind_calls), <- app_assoc.
      reflexivity.
    + cbn. rewrite Hlen. reflexivity.
    + constructor; assumption.
    + rewrite Hresult. cbn [fst snd]. f_equal. lia.
Qed.

(** X18. When the share [setRatio / (setRatio + getRatio)] of a ['mixed']
    run is not a number, as for the ratio ['0:0'] and for any ratio one of
    whose first two parts does not parse, the run is not rejected: it
    skips the pre-population and issues [requests] reads and no write. *)
Theorem mixed_run_without_share (config : Config.t) (w : world) :
  type_of config = "mixed" ->
  set_share (fst (parse_ratio (ratio_of config))) (snd (parse_ratio (ratio_of config)))
  = NaN ->
  exists gets,
    calls (world_after (runBenchmark config) w) = (calls w ++ gets)%list
    /\ length gets = Z.to_nat (requests_of config)
    /\ Forall (fun c => is_get c = true) gets.
Proof.
  intros Htype Hshare. rewrite runBenchmark_calls.
  unfold operations_of, run_operations. rewrite Htype.
  cbn [String.eqb Ascii.eqb Bool.eqb].
  unfold prepopulate_bound, getOps_of, setOps_of. rewrite Hshare.
  cbn [js_mul Math_floor js_sub Math_min loop_trips for_loop].
  rewrite !world_after_bind, !world_after_ret.
  destruct (mixed_loop_all_reads (storage_of config)
              (cachedProbability_of (cachedRatio_of config)) (requests_of config)
              (size_of config) NaN NaN (Z.to_nat (requests_of config)) (O, O) (next_tick w))
    as (gets & Hcalls & Hlen & Hall & _).
  exists gets. repeat split; assumption.
Qed.

Lemma mixed_run_without_share_witness :
  exists gets,
    calls (world_after (runBenchmark (configuration "mixed" "db" 10 3 "2" "1:1"))
             sample_world) = ([] ++ gets)%list
    /\ length gets = 10%nat
    /\ Forall (fun c => is_get c = true) gets.
Proof.
  apply (mixed_run_without_share (configuration "mixed" "db" 10 3 "2" "1:1") sample_world);
    reflexivity.
Defined.

Lemma never_below_NaN (r : Q) : (0 <= r)%Q -> (r < 1)%Q -> js_lt (Fin r) NaN = false.
Proof. reflexivity. Qed.

Lemma always_below_at_least_one (c r : Q) :
  (1 <= c)%Q -> (0 <= r)%Q -> (r < 1)%Q -> js_lt (Fin r) (div64 (Fin c) (Fin 1)) = true.
Proof.
  intros Hc _ Hbelow. unfold div64. cbn [js_div].
  replace (Qeqb 1 0) with false by reflexivity. cbn [binary64].
  assert (1 <= c / 1)%Q as Hquotient by (assert (c / 1 == c)%Q as -> by field; exact Hc).
  destruct (round64_above (c / 1) 1 representable_one ltac:(lra) Hquotient)
    as [->|(y & -> & Hy)].
  - reflexivity.
  - apply Qltb_lt. lra.
Qed.

(** X19. A cached ratio that does not parse is not rejected either.  On
    the cached tier, with draws in [[0, 1)]: when its first part is not a
    number no write of the run is cacheable; when its first part is a
    number [c >= 1] and its second part is missing or not a number, the
    sum falls back to 1 and every write of the run is cacheable. *)
Theorem cacheability_of_unparsed_ratios (config : Config.t) (w : world) :
  storage_of config = "redis" ->
  draws_in_unit_interval w ->
  exists log,
    calls (world_after (runBenchmark config) w) = (calls w ++ log)%list
    /\ (fst (parse_ratio (cachedRatio_of config)) = NaN -> writes_marked false log)
    /\ (forall c, parse_ratio (cachedRatio_of config) = (Fin c, NaN) -> (1 <= c)%Q ->
                  writes_marked true log).
Proof.
  intros Hstorage Hw.
  destruct (runBenchmark_extends_calls config w Hw) as [log Hlog].
  exists log. split; [exact Hlog|]. split.
  - intros Hfirst.
    apply (run_writes_marked false config w log Hstorage Hw); [|exact Hlog].
    unfold cachedProbability_of.
    destruct (parse_ratio (cachedRatio_of config)) as [cachedPart uncachedPart].
    cbn in Hfirst. subst cachedPart. intros r _ _. reflexivity.
  - intros c Hparse Hc.
    apply (run_writes_marked true config w log Hstorage Hw); [|exact Hlog].
    unfold cachedProbability_of. rewrite Hparse.
    unfold add64. cbn [js_add binary64]. unfold js_or, js_truthy.
    intros r. apply always_below_at_least_one, Hc.
Qed.

Lemma cacheability_of_unparsed_ratios_witness :
  exists log,
    calls (world_after (runBenchmark (configuration "set" "redis" 5 3 "1:1" "1"))
             sample_world) = ([] ++ log)%list
    /\ writes_marked true log.
Proof.
  destruct (cacheability_of_unparsed_ratios
              (configuration "set" "redis" 5 3 "1:1" "1") sample_world
              eq_refl sample_draws_in_unit_interval)
    as (log & Hlog & _ & Hall).
  exists log. split; [exact Hlog|].
  apply (Hall 1%Q); [reflexivity|]. vm_compute. discriminate.
Defined.

(* ===================================================================== *)
(** ** Parsing a ratio *)
(* ===================================================================== *)

Lemma decimal_digit_facts (c : ascii) :
  is_decimal_digit c = true ->
  is_StrWhiteSpaceChar c = false
  /\ digit_in 10 c = Some (code_unit c - 48)
  /\ Ascii.eqb c "I" = false /\ Ascii.eqb c "+" = false /\ Ascii.eqb c "-" = false
  /\ c <> colon.
Proof.
  intros H. destruct c as [[] [] [] [] [] [] [] []]; vm_compute in H; try discriminate H;
    vm_compute; repeat split; discriminate.
Qed.

Lemma pretty_N_char_decimal (d : N) : is_decimal_digit (pretty_N_char d) = true.
Proof. unfold pretty_N_char. repeat case_match; reflexivity. Qed.

Lemma digit_in_pretty_N_char (d : N) :
  (d < 10)%N -> digit_in 10 (pretty_N_char d) = Some (Z.of_N d).
Proof.
  intros Hd.
  assert (d = 0 \/ d = 1 \/ d = 2 \/ d = 3 \/ d = 4 \/ d = 5 \/ d = 6 \/ d = 7
          \/ d = 8 \/ d = 9)%N as Hcases by lia.
  repeat (destruct Hcases as [->|Hcases]; [reflexivity|]). subst d. reflexivity.
Qed.

Lemma digits_pretty_N_go (x : N) :
  forall acc s, exists acc' k,
    digits 10 acc (pretty_N_go x s)
    = (let '(value, count, follows) := digits 10 acc' s in (value, (k + count)%nat, follows))
    /\ (acc = 0 -> acc' = Z.of_N x)
    /\ (x <> 0%N -> k <> O).
Proof.
  induction (N.lt_wf_0 x) as [x _ IH]. intros acc s.
  destruct (N.eq_dec x 0%N) as [->|Hpos].
  - rewrite pretty_N_go_0. exists acc, O. split; [|split; [auto|congruence]].
    destruct (digits 10 acc s) as [[value count] follows]. reflexivity.
  - rewrite pretty_N_go_step by lia.
    destruct (IH (x `div` 10)%N ltac:(apply N.div_lt; lia) acc
                (String (pretty_N_char (x `mod` 10)) s)) as (acc1 & k1 & Hvalue & Hzero & _).
    exists (10 * acc1 + Z.of_N (x `mod` 10)), (S k1). split; [|split; [|discriminate]].
    + rewrite Hvalue. cbn [digits].
      rewrite digit_in_pretty_N_char by (apply N.mod_lt; lia).
      destruct (digits 10 (10 * acc1 + Z.of_N (x `mod` 10)) s) as [[value count] follows].
      rewrite Nat.add_succ_r. reflexivity.
    + intros Hacc. rewrite (Hzero Hacc).
      rewrite (N.div_mod x 10) at 3 by lia. lia.
Qed.

Lemma decimal_pretty_N_go (x : N) :
  forall s, decimal s -> decimal (pretty_N_go x s).
Proof.
  induction (N.lt_wf_0 x) as [x _ IH]. intros s Hs.
  destruct (N.eq_dec x 0%N) as [->|Hpos]; [rewrite pretty_N_go_0; exact Hs|].
  rewrite pretty_N_go_step by lia. apply IH; [apply N.div_lt; lia|].
  intros c [<-|Hin]; [apply pretty_N_char_decimal|apply Hs, Hin].
Qed.

Lemma decimal_template_nat (n : nat) : decimal (template_nat n).
Proof.
  unfold template_nat, pretty, pretty_nat, pretty, pretty_N. case_decide.
  - intros c [<-|[]]. reflexivity.
  - apply decimal_pretty_N_go. intros c [].
Qed.

Lemma decimal_colon_free (s : string) : decimal s -> colon_free s.
Proof. intros Hs c Hin. apply (decimal_digit_facts c), Hs, Hin. Qed.

Lemma trim_decimal (s : string) : decimal s -> trim s = s.
Proof.
  intros Hs. unfold trim.
  assert (skip_white_space s = s) as ->.
  { destruct s as [|c rest]; [reflexivity|]. cbn [skip_white_space].
    destruct (decimal_digit_facts c (Hs c (or_introl eq_refl))) as (-> & _). reflexivity. }
  induction s as [|c rest IH]; [reflexivity|]. cbn [drop_white_space_at_end].
  rewrite IH by (intros c' Hin; apply Hs; right; exact Hin).
  destruct (decimal_digit_facts c (Hs c (or_introl eq_refl))) as (-> & _).
  destruct rest; reflexivity.
Qed.

(** A run of decimal digits is the literal of its value. *)
Lemma Number_decimal (s : string) (value : Z) (count : nat) :
  decimal s -> digits 10 0 s = (value, S count, EmptyString) ->
  Number s = round64 (inject_Z value).
Proof.
  intros Hs Hdigits. unfold Number. rewrite (trim_decimal s Hs).
  destruct s as [|c rest]; [discriminate Hdigits|].
  destruct (decimal_digit_facts c (Hs c (or_introl eq_refl)))
    as (_ & _ & HI & Hplus & Hminus & _).
  assert (StrDecimalLiteral (String c rest) = StrUnsignedDecimalLiteral (String c rest)) as ->.
  { apply Ascii.eqb_neq in Hplus, Hminus.
    unfold StrDecimalLiteral.
    destruct c as [[] [] [] [] [] [] [] []]; try reflexivity; congruence. }
  unfold StrUnsignedDecimalLiteral.
  assert (String.eqb (String c rest) "Infinity" = false) as ->
    by (cbn [String.eqb]; rewrite HI; reflexivity).
  rewrite Hdigits. cbn [Nat.add ExponentPart binary64].
  apply round64_comp. cbn [Z.of_nat Z.sub Z.opp Z.add]. apply Qmult_1_r.
Qed.

Lemma Number_template_nat (n : nat) :
  Number (template_nat n) = round64 (inject_Z (Z.of_nat n)).
Proof.
  destruct (Nat.eq_dec n O) as [->|Hpos]; [vm_compute; reflexivity|].
  pose proof (decimal_template_nat n) as Hdecimal.
  revert Hdecimal. unfold template_nat, pretty, pretty_nat, pretty, pretty_N.
  case_decide as Hzero; [lia|]. intros Hdecimal.
  destruct (digits_pretty_N_go (N.of_nat n) 0 EmptyString) as (acc' & k & Hvalue & Hacc & Hk).
  rewrite (Hacc eq_refl) in Hvalue. cbn [digits] in Hvalue.
  destruct k as [|k]; [exfalso; apply Hk; [exact Hzero|reflexivity]|].
  rewrite Nat.add_0_r in Hvalue.
  rewrite (Number_decimal _ _ _ Hdecimal Hvalue). f_equal. f_equal. lia.
Qed.

Lemma colon_free_template_nat (n : nat) : colon_free (template_nat n).
Proof. apply decimal_colon_free, decimal_template_nat. Qed.

Lemma split_colon_free (s : string) : colon_free s -> split_colon s = [s].
Proof.
  induction s as [|c s IH]; intros Hfree; [reflexivity|]. cbn [split_colon].
  destruct (Ascii.eqb c colon) eqn:Hc.
  - apply Ascii.eqb_eq in Hc. exfalso. apply (Hfree c); [left; reflexivity|exact Hc].
  - rewrite IH; [reflexivity|]. intros c' Hin. apply Hfree. right. exact Hin.
Qed.

Lemma split_colon_at_first (s t : string) :
  colon_free s -> split_colon (s ++ String colon t) = s :: split_colon t.
Proof.
  induction s as [|c s IH]; intros Hfree; simpl; [reflexivity|].
  destruct (Ascii.eqb c colon) eqn:Hc.
  - apply Ascii.eqb_eq in Hc. exfalso. apply (Hfree c); [left; reflexivity|exact Hc].
  - rewrite IH; [reflexivity|]. intros c' Hin. apply Hfree. right. exact Hin.
Qed.

Lemma parse_ratio_string (a b : nat) :
  parse_ratio (ratio_string a b)
  = (round64 (inject_Z (Z.of_nat a)), round64 (inject_Z (Z.of_nat b))).
Proof.
  unfold parse_ratio, ratio_string.
  rewrite split_colon_at_first by apply colon_free_template_nat.
  rewrite split_colon_free by apply colon_free_template_nat.
  cbn [map nth]. rewrite !Number_template_nat. reflexivity.
Qed.

(** The cache probability of two integer weights whose sum is at most
    [2^53]: [cachedPart / (cachedPart + uncachedPart)], rounded once. *)
Lemma cachedProbability_of_weights (cachedRatio : string) (c u : Z) :
  parse_ratio cachedRatio = (Fin (inject_Z c), Fin (inject_Z u)) ->
  0 <= c -> 0 <= u -> c + u <= 2 ^ 53 ->
  exists p,
    cachedProbability_of cachedRatio = Fin p
    /\ (0 <= p)%Q /\ (p <= 1)%Q
    /\ (c = 0 -> p = 0%Q)
    /\ (0 < c ->
        let exact := (inject_Z c / inject_Z (c + u))%Q in
        (exact - exact * 2 ^ (-53) <= p)%Q /\ (p <= exact + exact * 2 ^ (-53))%Q).
Proof.
  intros Hparse Hc Hu Hsum. unfold cachedProbability_of. rewrite Hparse.
  unfold add64, div64. cbn [js_add binary64].
  rewrite (round64_Z (inject_Z c + inject_Z u) (c + u))
    by (first [rewrite <- inject_Z_plus; reflexivity|lia]).
  unfold js_or, js_truthy.
  destruct (Z.eq_dec (c + u) 0) as [Hzero|Hpos].
  - assert (c = 0) as -> by lia. rewrite Hzero. cbn [negb js_div binary64].
    exists 0%Q. split; [reflexivity|]. split; [lra|]. split; [lra|]. split; [reflexivity|lia].
  - assert (0 < inject_Z (c + u))%Q as HT
      by (change 0%Q with (inject_Z 0); rewrite <- Zlt_Qlt; lia).
    assert (Qeqb (inject_Z (c + u)) 0 = false) as Hne by (apply Qeqb_neq; lra).
    rewrite Hne. cbn [negb js_div]. rewrite Hne. cbn [binary64].
    assert (0 <= inject_Z c)%Q as HC
      by (change 0%Q with (inject_Z 0); rewrite <- Zle_Qle; exact Hc).
    assert (inject_Z c <= inject_Z (c + u))%Q as HCT by (rewrite <- Zle_Qle; lia).
    destruct (round64_between (inject_Z c / inject_Z (c + u)) 0 1
                representable_zero representable_one) as (p & Hp & Hp0 & Hp1).
    + lra.
    + apply Qle_shift_div_l; [exact HT|lra].
    + apply Qle_shift_div_r; [exact HT|lra].
    + exists p. split; [exact Hp|]. split; [exact Hp0|]. split; [exact Hp1|]. split.
      * intros ->. rewrite (round64_zero (inject_Z 0 / inject_Z (0 + u))) in Hp
          by (unfold Qdiv; apply Qmult_0_l).
        apply Fin_inj in Hp. symmetry. exact Hp.
      * intros Hcpos. cbv zeta. apply round64_error; [|exact Hp].
        apply Qle_trans with (2 ^ (-53))%Q; [apply pow2_le; lia|].
        apply Qle_shift_div_l; [exact HT|].
        assert (1 <= inject_Z c)%Q
          by (change 1%Q with (inject_Z 1); rewrite <- Zle_Qle; lia).
        assert (inject_Z (c + u) <= 9007199254740992)%Q
          by (change 9007199254740992%Q with (inject_Z (2 ^ 53)); rewrite <- Zle_Qle;
              exact Hsum).
        change (2 ^ (-53))%Q with (1 # 9007199254740992)%Q. lra.
Qed.

(** X20. Writing two naturals as ["<a>:<b>"] in decimal and parsing the
    string with [split(':').map(Number)] gives the two naturals rounded to
    binary64: the naturals themselves up to [2^53].  For such a cached
    ratio with [a + b <= 2^53] the cache probability is between 0 and 1; it
    is 0 when [a] is zero (both-zero included), and otherwise [a / (a + b)]
    rounded once, at most one part in [2^53] away from it. *)
Theorem ratio_round_trip (a b : nat) :
  parse_ratio (ratio_string a b)
  = (round64 (inject_Z (Z.of_nat a)), round64 (inject_Z (Z.of_nat b)))
  /\ (Z.of_nat a <= 2 ^ 53 -> Z.of_nat b <= 2 ^ 53 ->
      parse_ratio (ratio_string a b)
      = (Fin (inject_Z (Z.of_nat a)), Fin (inject_Z (Z.of_nat b))))
  /\ (Z.of_nat (a + b) <= 2 ^ 53 ->
      exists p,
        cachedProbability_of (ratio_string a b) = Fin p
        /\ (0 <= p)%Q /\ (p <= 1)%Q
        /\ (a = O -> p = 0%Q)
        /\ ((0 < a)%nat ->
            let exact := (inject_Z (Z.of_nat a) / inject_Z (Z.of_nat (a + b)))%Q in
            (exact - exact * 2 ^ (-53) <= p)%Q /\ (p <= exact + exact * 2 ^ (-53))%Q)).
Proof.
  assert (Z.of_nat a <= 2 ^ 53 -> Z.of_nat b <= 2 ^ 53 ->
          parse_ratio (ratio_string a b)
          = (Fin (inject_Z (Z.of_nat a)), Fin (inject_Z (Z.of_nat b)))) as Hexact.
  { intros Ha Hb. rewrite parse_ratio_string.
    rewrite (round64_Z _ (Z.of_nat a)), (round64_Z _ (Z.of_nat b));
      first [reflexivity|lia]. }
  split; [apply parse_ratio_string|]. split; [exact Hexact|].
  intros Hsum. rewrite Nat2Z.inj_add in Hsum.
  destruct (cachedProbability_of_weights (ratio_string a b) (Z.of_nat a) (Z.of_nat b)
              (Hexact ltac:(lia) ltac:(lia)) ltac:(lia) ltac:(lia) Hsum)
    as (p & Hp & Hp0 & Hp1 & Hzero & Hnear).
  exists p. split; [exact Hp|]. split; [exact Hp0|]. split; [exact Hp1|]. split.
  - intros ->. apply Hzero. reflexivity.
  - intros Hpos. rewrite Nat2Z.inj_add. apply Hnear. lia.
Qed.

Lemma ratio_round_trip_witness :
  parse_ratio (ratio_string 3 1) = (Fin 3, Fin 1)
  /\ exists p, cachedProbability_of (ratio_string 3 1) = Fin p /\ (p <= 1)%Q.
Proof.
  destruct (ratio_round_trip 3 1) as (_ & Hexact & Hprobability).
  split; [apply Hexact; vm_compute; discriminate|].
  destruct (Hprobability ltac:(vm_compute; discriminate)) as (p & Hp & _ & Hp1 & _).
  exists p. split; assumption.
Defined.

(* ===================================================================== *)
(** ** The mock data *)
(* ===================================================================== *)

Lemma round_hundredths_between (x : Q) (lo hi : Z) :
  (0 <= x)%Q ->
  (inject_Z lo <= x * 100)%Q -> (x * 100 <= inject_Z hi)%Q ->
  (inject_Z lo <= round_hundredths x * 100)%Q
  /\ (round_hundredths x * 100 <= inject_Z hi)%Q.
Proof.
  intros Hx Hlo Hhi. unfold round_hundredths.
  destruct (Qltb x 0) eqn:Hneg; [apply Qltb_lt in Hneg; lra|].
  assert (lo <= Qfloor (x * 100 + (1 # 2)) <= hi) as [Hfloor_lo Hfloor_hi].
  { split.
    - rewrite <- (Qfloor_Z lo). apply Qfloor_resp_le. lra.
    - assert (Qfloor (x * 100 + (1 # 2)) < hi + 1); [|lia].
      rewrite Zlt_Qlt. apply (Qle_lt_trans _ _ _ (Qfloor_le _)).
      rewrite inject_Z_plus. change (inject_Z 1) with 1%Q. lra. }
  rewrite Zle_Qle in Hfloor_lo, Hfloor_hi.
  assert (inject_Z (Qfloor (x * 100 + (1 # 2))) / 100 * 100
          == inject_Z (Qfloor (x * 100 + (1 # 2))))%Q as -> by field.
  split; assumption.
Qed.

Lemma baseOpsPerSecond_integer (type storage : string) :
  exists b : Z, (baseOpsPerSecond type storage == inject_Z b)%Q /\ 0 < b.
Proof.
  unfold baseOpsPerSecond.
  destruct (String.eqb type "get"), (String.eqb type "set"), (is_redis storage);
    eexists; (split; [reflexivity|reflexivity]).
Qed.

Lemma mock_opsPerSecond_bounds (config : MockConfig.t) (w : world) :
  draws_in_unit_interval w ->
  exists ops,
    MockResult.opsPerSecond (result_of (generateMockBenchmarkData config) w) = Fin ops
    /\ (baseOpsPerSecond (MockConfig.type config) (MockConfig.storage config) * 90
        <= ops * 100)%Q
    /\ (ops * 100
        <= baseOpsPerSecond (MockConfig.type config) (MockConfig.storage config) * 110)%Q.
Proof.
  intros Hw. destruct (Hw (cursor w)) as [Hnonneg Hbelow].
  eexists. split; [reflexivity|].
  set (r := draws w (cursor w)) in *.
  destruct (baseOpsPerSecond_integer (MockConfig.type config) (MockConfig.storage config))
    as (b & Hb & Hpos).
  assert (0 < inject_Z b)%Q as Hpos'
    by (change 0%Q with (inject_Z 0); rewrite <- Zlt_Qlt; lia).
  set (base := baseOpsPerSecond (MockConfig.type config) (MockConfig.storage config)) in *.
  destruct (round_hundredths_between (base * (1 + (r * (2 # 10) - (1 # 10)))) (b * 90)
              (b * 110)) as [Hlo Hhi].
  - nra.
  - rewrite inject_Z_mult. change (inject_Z 90) with 90%Q. nra.
  - rewrite inject_Z_mult. change (inject_Z 110) with 110%Q. nra.
  - rewrite inject_Z_mult in Hlo, Hhi.
    change (inject_Z 90) with 90%Q in Hlo. change (inject_Z 110) with 110%Q in Hhi.
    split; lra.
Qed.

(** X21. With draws in [[0, 1)], the throughput that
    [generateMockBenchmarkData] reports lies between 7020 and 9350 on
    ['redis'] and between 162 and 242 on any other storage: ten percent
    around the entries of its table (8500, 7800, 8100 on ['redis'] and 180,
    220, 200 elsewhere).  So every mock result on ['redis'] reports a
    higher throughput than every mock result on another storage; the
    request count and the payload size are repeated unchanged. *)
Theorem mock_data_favours_the_cached_tier (fast slow : MockConfig.t) (w w' : world) :
  draws_in_unit_interval w ->
  draws_in_unit_interval w' ->
  MockConfig.storage fast = "redis" ->
  MockConfig.storage slow <> "redis" ->
  exists quick sluggish,
    MockResult.opsPerSecond (result_of (generateMockBenchmarkData fast) w) = Fin quick
    /\ MockResult.opsPerSecond (result_of (generateMockBenchmarkData slow) w') = Fin sluggish
    /\ (7020 <= quick)%Q /\ (quick <= 9350)%Q
    /\ (162 <= sluggish)%Q /\ (sluggish <= 242)%Q
    /\ MockResult.requests (result_of (generateMockBenchmarkData fast) w)
       = MockConfig.requests fast
    /\ MockResult.size (result_of (generateMockBenchmarkData fast) w)
       = MockConfig.size fast.
Proof.
  intros Hw Hw' Hfast Hslow.
  destruct (mock_opsPerSecond_bounds fast w Hw) as (quick & Hquick & Hlo & Hhi).
  destruct (mock_opsPerSecond_bounds slow w' Hw') as (sluggish & Hsluggish & Hlo' & Hhi').
  exists quick, sluggish. split; [exact Hquick|]. split; [exact Hsluggish|].
  apply is_redis_true in Hfast. apply is_redis_false in Hslow.
  unfold baseOpsPerSecond in Hlo, Hhi, Hlo', Hhi'. rewrite Hfast in Hlo, Hhi.
  rewrite Hslow in Hlo', Hhi'.
  destruct (String.eqb (MockConfig.type fast) "get"),
    (String.eqb (MockConfig.type fast) "set"),
    (String.eqb (MockConfig.type slow) "get"),
    (String.eqb (MockConfig.type slow) "set");
    repeat split; try reflexivity; lra.
Qed.

Lemma mock_data_favours_the_cached_tier_witness :
  exists quick sluggish,
    MockResult.opsPerSecond
      (result_of (generateMockBenchmarkData
                    {| MockConfig.type := "get"; MockConfig.storage := "redis";
                       MockConfig.requests := 1000; MockConfig.size := 3;
                       MockConfig.ratio := None; MockConfig.cachedRatio := None;
                       MockConfig.name := None |}) sample_world) = Fin quick
    /\ MockResult.opsPerSecond
         (result_of (generateMockBenchmarkData
                       {| MockConfig.type := "get"; MockConfig.storage := "db";
                          MockConfig.requests := 1000; MockConfig.size := 3;
                          MockConfig.ratio := None; MockConfig.cachedRatio := None;
                          MockConfig.name := None |}) sample_world) = Fin sluggish
    /\ (sluggish <= 242)%Q /\ (7020 <= quick)%Q.
Proof.
  destruct (mock_data_favours_the_cached_tier
              {| MockConfig.type := "get"; MockConfig.storage := "redis";
                 MockConfig.requests := 1000; MockConfig.size := 3;
                 MockConfig.ratio := None; MockConfig.cachedRatio := None;
                 MockConfig.name := None |}
              {| MockConfig.type := "get"; MockConfig.storage := "db";
                 MockConfig.requests := 1000; MockConfig.size := 3;
                 MockConfig.ratio := None; MockConfig.cachedRatio := None;
                 MockConfig.name := None |}
              sample_world sample_world
              sample_draws_in_unit_interval sample_draws_in_unit_interval eq_refl)
    as (quick & sluggish & Hquick & Hsluggish & Hlo & _ & _ & Hhi & _);
    [discriminate|].
  exists quick, sluggish. repeat split; assumption.
Defined.

Example mock_get_on_redis :
  result_of (generateMockBenchmarkData
               {| MockConfig.type := "get"; MockConfig.storage := "redis";
                  MockConfig.requests := 1000; MockConfig.size := 3;
                  MockConfig.ratio := None; MockConfig.cachedRatio := Some "1:0";
                  MockConfig.name := Some "" |}) sample_world
  = {| MockResult.name := "Redis GET Benchmark"; MockResult.type := "get";
       MockResult.storage := "redis"; MockResult.requests := 1000; MockResult.size := 3;
       MockResult.ratio := None; MockResult.cachedRatio := Some "1:0";
       MockResult.opsPerSecond := Fin (850000 / 100);
       MockResult.duration := Fin (12 / 100) |}.
Proof. vm_compute. reflexivity. Qed.
